(** * MouseWont: worker-pool scheduler, batch dispatcher and backend selection

  A shallow embedding of
    - [src/utils/threading/ThreadPoolManager.ts] (the scheduler and the
      batch dispatcher),
    - [src/utils/threading/worker.js] (the listener of a worker thread),
      and
    - [src/core/MathModuleBridge.ts] (the backend registry / factory),
  followed by the properties of the specification that concern them.

  Conventions.
    - JavaScript numbers that are counts or identifiers (task ids, sizes,
      thread counts) are integers ([Z] or [nat]); coordinates and the
      pseudo-random generator are IEEE-754 binary64 values ([float]),
      which is what a JavaScript number is.
    - The scheduler runs on one event loop.  Every function of the class
      is embedded as the state transformer of its synchronous run; what
      happens after an [await] is a separate transition.
    - Effects that leave the object (timers, callbacks of promises,
      messages to workers, console warnings) are recorded in the state,
      next to the fields of the class. *)

From Stdlib Require Import ZArith QArith Lqa Floats Lia Bool.
From stdpp Require Import base option list gmap strings.

Set Warnings "-inexact-float,-register-all".

Local Open Scope Z_scope.

(* ================================================================== *)
(** ** JavaScript numbers *)
(* ================================================================== *)

Module JS.

(** The number with integer value [z] (exact for [|z| < 2^53]). *)
Definition of_Z (z : Z) : float :=
  match z with
  | Z0 => PrimFloat.zero
  | Zpos p => SF2Prim (S754_finite false p 0)
  | Zneg p => SF2Prim (S754_finite true p 0)
  end.

Definition of_nat (n : nat) : float := of_Z (Z.of_nat n).

(** [Math.floor]. *)
Definition floor (f : float) : float :=
  match Prim2SF f with
  | S754_finite s m e =>
      if 0 <=? e then f
      else
        let q := Z.pos m / 2 ^ (- e) in
        let exact := Z.pos m mod 2 ^ (- e) =? 0 in
        if s then of_Z (- (if exact then q else q + 1))
        else of_Z q
  | _ => f
  end.

(** The [%] operator on numbers: the remainder has the sign of the
    dividend and is computed exactly. *)
Definition rem (x y : float) : float :=
  match Prim2SF x with
  | S754_nan | S754_infinity _ => PrimFloat.nan
  | S754_zero _ =>
      match Prim2SF y with
      | S754_nan | S754_zero _ => PrimFloat.nan
      | _ => x
      end
  | S754_finite sx mx ex =>
      match Prim2SF y with
      | S754_nan | S754_zero _ => PrimFloat.nan
      | S754_infinity _ => x
      | S754_finite _ my ey =>
          let e := Z.min ex ey in
          let r := (Z.pos mx * 2 ^ (ex - e)) mod (Z.pos my * 2 ^ (ey - e)) in
          if r =? 0 then (if sx then PrimFloat.neg_zero else PrimFloat.zero)
          else
            let f := Z.ldexp (of_Z r) e in
            if sx then PrimFloat.opp f else f
      end
  end.

(** [Math.min] of two numbers. *)
Definition min (a b : float) : float :=
  if PrimFloat.is_nan a || PrimFloat.is_nan b then PrimFloat.nan
  else if PrimFloat.ltb a b then a
  else if PrimFloat.ltb b a then b
  else if PrimFloat.get_sign a then a else b.

(** [a > b]. *)
Definition gtb (a b : float) : bool := PrimFloat.ltb b a.

End JS.

(* ================================================================== *)
(** ** MathModuleBridge.ts: the backend registry *)
(* ================================================================== *)

Module MathModuleBridge.

(** [enum MathModuleType], in the order of its declaration. *)
Inductive MathModuleType := TYPESCRIPT | CPP | PYTHON | FORTRAN.

#[global] Instance MathModuleType_eq_dec : EqDecision MathModuleType.
Proof. solve_decision. Defined.

Definition MathModuleType_to_nat (t : MathModuleType) : nat :=
  match t with TYPESCRIPT => 0 | CPP => 1 | PYTHON => 2 | FORTRAN => 3 end%nat.

Definition MathModuleType_of_nat (n : nat) : option MathModuleType :=
  match n with
  | 0 => Some TYPESCRIPT | 1 => Some CPP | 2 => Some PYTHON | 3 => Some FORTRAN
  | _ => None
  end%nat.

#[global] Instance MathModuleType_countable : Countable MathModuleType.
Proof.
  apply (inj_countable MathModuleType_to_nat MathModuleType_of_nat).
  by intros [].
Defined.

(** A [MathModule] instance; only its identity matters to the factory. *)
Record MathModule := { implementation : MathModuleType }.

(** The static fields of [MathModuleFactory] that selection reads and
    writes. *)
Record Factory := {
  instances : gmap MathModuleType MathModule;
  activeType : MathModuleType;
}.

Definition has (fa : Factory) (t : MathModuleType) : bool :=
  bool_decide (is_Some (instances fa !! t)).

(** The first element of [order] that is registered, as the loop
    [for (const type of preferredOrder) if (this.instances.has(type)) return type]
    finds it. *)
Definition firstRegistered (fa : Factory) (order : list MathModuleType)
  : option MathModuleType :=
  List.find (has fa) order.

Definition preferredOrder : list MathModuleType :=
  [CPP; FORTRAN; PYTHON; TYPESCRIPT].

(** [getBestAvailableType]. *)
Definition getBestAvailableType (fa : Factory) : MathModuleType :=
  let availableTypes := List.filter (has fa) [CPP; PYTHON; FORTRAN; TYPESCRIPT] in
  match availableTypes with
  | [TYPESCRIPT] => TYPESCRIPT
  | _ =>
      match firstRegistered fa preferredOrder with
      | Some t => t
      | None => TYPESCRIPT
      end
  end.

(** [Object.values(MathModuleType)]: the declaration order of the enum. *)
Definition enumValues : list MathModuleType :=
  [TYPESCRIPT; CPP; PYTHON; FORTRAN].

(** [results]: the score of each kind once the timed runs are over.  The
    object literal is written with the keys TYPESCRIPT, CPP, PYTHON,
    FORTRAN, and [Object.entries] lists them in that order.  A score is a
    sum of [(1000 / avgTime) * weight]; its order is that of the
    rationals. *)
Definition Results := MathModuleType -> Q.

Definition entries (results : Results) : list (MathModuleType * Q) :=
  List.map (fun t => (t, results t)) [TYPESCRIPT; CPP; PYTHON; FORTRAN].

(** [score > bestScore]. *)
Definition Qgtb (a b : Q) : bool := negb (Qle_bool a b).

(** One turn of the loop that looks for the highest score. *)
Definition better (fa : Factory) (best : MathModuleType * Q)
    (entry : MathModuleType * Q) : MathModuleType * Q :=
  if Qgtb (snd entry) (snd best) && has fa (fst entry) then entry else best.

Definition selectBest (fa : Factory) (results : Results) : MathModuleType :=
  fst (List.fold_left (better fa) (entries results)
         (TYPESCRIPT, results TYPESCRIPT)).

(** [benchmarkAndSelectBest], from the point where the factory is
    initialised; [results] is what the timed runs produce. *)
Definition benchmarkAndSelectBest (results : Results) (fa : Factory)
  : Factory * MathModuleType :=
  let availableTypes := List.filter (has fa) enumValues in
  match availableTypes with
  | [TYPESCRIPT] => (fa, TYPESCRIPT)
  | _ =>
      let bestModule := selectBest fa results in
      ({| instances := instances fa; activeType := bestModule |}, bestModule)
  end.

(** Position of a kind in a list of kinds. *)
Fixpoint rank (order : list MathModuleType) (t : MathModuleType) : nat :=
  match order with
  | [] => 0%nat
  | u :: rest => if decide (u = t) then 0%nat else S (rank rest t)
  end.

(** A factory with the given kinds registered. *)
Definition registry (kinds : list MathModuleType) : Factory :=
  {| instances := list_to_map (List.map (fun t => (t, {| implementation := t |})) kinds);
     activeType := TYPESCRIPT |}.

End MathModuleBridge.

(* ================================================================== *)
(** ** ThreadPoolManager.ts: data *)
(* ================================================================== *)

Module ThreadPool.

Import PrimFloat.

(** [Point] of core/types. *)
Record Point := { x : float; y : float }.

(** Values that cross the thread boundary ([any] in the source). *)
Inductive Value :=
| VUndefined
| VNumber (n : float)
| VPoint (p : Point)
| VArray (vs : list Value).

(** A [Point[]] and a [Point[][]] as values. *)
Definition pathValue (path : list Point) : Value := VArray (VPoint <$> path).
Definition pathsValue (paths : list (list Point)) : Value :=
  VArray (pathValue <$> paths).

(** What a worker reports in [message.error]: [serializeError] gives a
    string or an object with a name and a message. *)
Inductive Reported :=
| ReportedString (text : string)
| ReportedObject (name message : string).

(** The errors a caller can receive, one constructor per [new Error(...)]
    or rethrown value of the class. *)
Inductive Error :=
| NotRunning                      (* 'Thread pool is not running' *)
| QueueFull                       (* 'Task queue is full' *)
| NoWorkers                       (* 'No workers available' *)
| TimedOut (taskId taskTimeout : Z) (* `Task ${taskId} timed out after ...` *)
| ShuttingDown                    (* 'Thread pool is shutting down' *)
| LengthMismatch                  (* 'Start and end points arrays must ...' *)
| TaskFailed (error : Reported)   (* the error of a result message *)
| Thrown (message : string).      (* thrown by postMessage or the addon *)

(** Options of Bezier path generation; [numPoints] is a count. *)
Record BezierOptions := {
  numPoints : nat;
  complexity : float;
  overshootFactor : float;
  jitterAmount : float;
  seed : option float;
}.

Record PhysicsOptions := {
  mass : float;
  springConstant : float;
  dampingFactor : float;
  timeStep : float;
  maxSteps : nat;
  stoppingThreshold : float;
  physicsSeed : option float;
}.

(** The object pushed on [batches] in [generateBezierPaths]. *)
Record Batch := {
  startPoints : list Point;
  endPoints : list Point;
  options : BezierOptions;
}.

(** The functions that are shipped to workers as text
    ([functionData = task.toString()]): the closure [processBatch] of
    [generateBezierPaths], or a function of the caller known by its
    text only. *)
Inductive TaskFunction :=
| ProcessBatch
| CallerFunction (source : string).

Inductive Arg :=
| ArgBatch (batch : Batch)
| ArgValue (v : Value).

(** [TaskMessage]; its [type] is always 'task'. *)
Record TaskMessage := {
  tm_id : Z;
  tm_functionData : TaskFunction;
  tm_args : list Arg;
}.

(** [ResultMessage] as received: [rm_id] is [None] when
    [typeof message.id] is not 'number'. *)
Record ResultMessage := {
  rm_type : string;
  rm_id : option Z;
  rm_result : Value;
  rm_error : option Reported;
}.

(** A [Worker] object: the slot it was created for and its identity. *)
Record Worker := { slot : Z; handle : nat }.

#[global] Instance Worker_eq_dec : EqDecision Worker.
Proof. solve_decision. Defined.

(** An entry of [taskQueue].  The [resolve] and [reject] callbacks are
    those of the promise made by the call of [scheduleTask] that got the
    task id [promise]; the timer is named after the task whose entry it
    guards. *)
Record Entry := { promise : Z; timeoutId : option Z }.

Inductive Settlement :=
| Resolved (v : Value)
| Rejected (e : Error).

(** One invocation of a [resolve] or [reject] callback, with what the
    scheduler's state was when it was made: whether the task still had
    its entry in [taskQueue], and whether its timer was still live. *)
Record Call := {
  task : Z;
  settlement : Settlement;
  registered : bool;
  timerLive : bool;
}.

(** What [getThreadPoolInfo] of the addon returns. *)
Record ThreadPoolInfo := { threadCount : Z; activeThreads : Z; queueSize : Z }.

(** The native addon [mouse_math.node]: each batch primitive may be
    missing; a call returns or throws. *)
Record CppModule := {
  getThreadPoolInfo : option ThreadPoolInfo;
  batchGenerateBezierPaths :
    option (list Point -> list Point -> BezierOptions -> float ->
            Error + list (list Point));
  batchSimulatePhysicsMovements :
    option (list Point -> list Point -> PhysicsOptions -> float ->
            Error + list (list Point));
}.

Record ThreadPoolOptions := {
  jsThreads : option Z;
  maxQueueSizeOption : option Z;
  taskTimeoutOption : option Z;
}.

(** The fields of [ThreadPoolManager], then the part of the runtime the
    class acts on. *)
Record Pool := {
  workers : list Worker;
  jsThreadCount : Z;
  taskQueue : gmap Z Entry;
  nextTaskId : Z;
  running : bool;
  cppModule : option CppModule;
  fallbackMode : bool;
  maxQueueSize : Z;
  taskTimeout : Z;
  (* runtime *)
  timers : gset Z;                       (* live timers *)
  calls : list Call;                     (* callbacks invoked so far *)
  posted : list (Worker * TaskMessage);  (* worker.postMessage *)
  terminated : list Worker;              (* worker.terminate *)
  warnings : list string;                (* console.warn *)
  spawned : nat;                         (* Worker objects made so far *)
  nativeCalls : nat;                     (* calls of the addon's batch primitives *)
}.

Definition set_workers (v : list Worker) (st : Pool) : Pool :=
  {| workers := v; jsThreadCount := jsThreadCount st; taskQueue := taskQueue st;
     nextTaskId := nextTaskId st; running := running st; cppModule := cppModule st;
     fallbackMode := fallbackMode st; maxQueueSize := maxQueueSize st;
     taskTimeout := taskTimeout st; timers := timers st; calls := calls st;
     posted := posted st; terminated := terminated st; warnings := warnings st;
     spawned := spawned st; nativeCalls := nativeCalls st |}.

Definition set_taskQueue (v : gmap Z Entry) (st : Pool) : Pool :=
  {| workers := workers st; jsThreadCount := jsThreadCount st; taskQueue := v;
     nextTaskId := nextTaskId st; running := running st; cppModule := cppModule st;
     fallbackMode := fallbackMode st; maxQueueSize := maxQueueSize st;
     taskTimeout := taskTimeout st; timers := timers st; calls := calls st;
     posted := posted st; terminated := terminated st; warnings := warnings st;
     spawned := spawned st; nativeCalls := nativeCalls st |}.

Definition set_nextTaskId (v : Z) (st : Pool) : Pool :=
  {| workers := workers st; jsThreadCount := jsThreadCount st; taskQueue := taskQueue st;
     nextTaskId := v; running := running st; cppModule := cppModule st;
     fallbackMode := fallbackMode st; maxQueueSize := maxQueueSize st;
     taskTimeout := taskTimeout st; timers := timers st; calls := calls st;
     posted := posted st; terminated := terminated st; warnings := warnings st;
     spawned := spawned st; nativeCalls := nativeCalls st |}.

Definition set_running (v : bool) (st : Pool) : Pool :=
  {| workers := workers st; jsThreadCount := jsThreadCount st; taskQueue := taskQueue st;
     nextTaskId := nextTaskId st; running := v; cppModule := cppModule st;
     fallbackMode := fallbackMode st; maxQueueSize := maxQueueSize st;
     taskTimeout := taskTimeout st; timers := timers st; calls := calls st;
     posted := posted st; terminated := terminated st; warnings := warnings st;
     spawned := spawned st; nativeCalls := nativeCalls st |}.

Definition set_timers (v : gset Z) (st : Pool) : Pool :=
  {| workers := workers st; jsThreadCount := jsThreadCount st; taskQueue := taskQueue st;
     nextTaskId := nextTaskId st; running := running st; cppModule := cppModule st;
     fallbackMode := fallbackMode st; maxQueueSize := maxQueueSize st;
     taskTimeout := taskTimeout st; timers := v; calls := calls st;
     posted := posted st; terminated := terminated st; warnings := warnings st;
     spawned := spawned st; nativeCalls := nativeCalls st |}.

Definition set_calls (v : list Call) (st : Pool) : Pool :=
  {| workers := workers st; jsThreadCount := jsThreadCount st; taskQueue := taskQueue st;
     nextTaskId := nextTaskId st; running := running st; cppModule := cppModule st;
     fallbackMode := fallbackMode st; maxQueueSize := maxQueueSize st;
     taskTimeout := taskTimeout st; timers := timers st; calls := v;
     posted := posted st; terminated := terminated st; warnings := warnings st;
     spawned := spawned st; nativeCalls := nativeCalls st |}.

Definition set_posted (v : list (Worker * TaskMessage)) (st : Pool) : Pool :=
  {| workers := workers st; jsThreadCount := jsThreadCount st; taskQueue := taskQueue st;
     nextTaskId := nextTaskId st; running := running st; cppModule := cppModule st;
     fallbackMode := fallbackMode st; maxQueueSize := maxQueueSize st;
     taskTimeout := taskTimeout st; timers := timers st; calls := calls st;
     posted := v; terminated := terminated st; warnings := warnings st;
     spawned := spawned st; nativeCalls := nativeCalls st |}.

Definition set_terminated (v : list Worker) (st : Pool) : Pool :=
  {| workers := workers st; jsThreadCount := jsThreadCount st; taskQueue := taskQueue st;
     nextTaskId := nextTaskId st; running := running st; cppModule := cppModule st;
     fallbackMode := fallbackMode st; maxQueueSize := maxQueueSize st;
     taskTimeout := taskTimeout st; timers := timers st; calls := calls st;
     posted := posted st; terminated := v; warnings := warnings st;
     spawned := spawned st; nativeCalls := nativeCalls st |}.

Definition set_warnings (v : list string) (st : Pool) : Pool :=
  {| workers := workers st; jsThreadCount := jsThreadCount st; taskQueue := taskQueue st;
     nextTaskId := nextTaskId st; running := running st; cppModule := cppModule st;
     fallbackMode := fallbackMode st; maxQueueSize := maxQueueSize st;
     taskTimeout := taskTimeout st; timers := timers st; calls := calls st;
     posted := posted st; terminated := terminated st; warnings := v;
     spawned := spawned st; nativeCalls := nativeCalls st |}.

Definition set_spawned (v : nat) (st : Pool) : Pool :=
  {| workers := workers st; jsThreadCount := jsThreadCount st; taskQueue := taskQueue st;
     nextTaskId := nextTaskId st; running := running st; cppModule := cppModule st;
     fallbackMode := fallbackMode st; maxQueueSize := maxQueueSize st;
     taskTimeout := taskTimeout st; timers := timers st; calls := calls st;
     posted := posted st; terminated := terminated st; warnings := warnings st;
     spawned := v; nativeCalls := nativeCalls st |}.

Definition set_nativeCalls (v : nat) (st : Pool) : Pool :=
  {| workers := workers st; jsThreadCount := jsThreadCount st; taskQueue := taskQueue st;
     nextTaskId := nextTaskId st; running := running st; cppModule := cppModule st;
     fallbackMode := fallbackMode st; maxQueueSize := maxQueueSize st;
     taskTimeout := taskTimeout st; timers := timers st; calls := calls st;
     posted := posted st; terminated := terminated st; warnings := warnings st;
     spawned := spawned st; nativeCalls := v |}.

(* ---------------------------------------------------------------- *)
(** *** Runtime primitives *)
(* ---------------------------------------------------------------- *)

(** [setTimeout(..., this.taskTimeout)] for the task [taskId]. *)
Definition setTimeout (taskId : Z) (st : Pool) : Pool :=
  set_timers ({[taskId]} ∪ timers st) st.

Definition clearTimeout (timer : Z) (st : Pool) : Pool :=
  set_timers (timers st ∖ {[timer]}) st.

(** [if (taskPromise.timeoutId) clearTimeout(taskPromise.timeoutId)]. *)
Definition clearEntryTimeout (tp : Entry) (st : Pool) : Pool :=
  match timeoutId tp with
  | Some timer => clearTimeout timer st
  | None => st
  end.

Definition warn (text : string) (st : Pool) : Pool :=
  set_warnings (warnings st ++ [text]) st.

(** A callback of the promise of task [p] is invoked. *)
Definition invoke (p : Z) (s : Settlement) (st : Pool) : Pool :=
  set_calls
    (calls st ++
       [{| task := p; settlement := s;
           registered := bool_decide (is_Some (taskQueue st !! p));
           timerLive := bool_decide (p ∈ timers st) |}])
    st.

(** [taskPromise.resolve(v)] and [taskPromise.reject(e)]. *)
Definition resolve (tp : Entry) (v : Value) : Pool -> Pool :=
  invoke (promise tp) (Resolved v).
Definition reject (tp : Entry) (e : Error) : Pool -> Pool :=
  invoke (promise tp) (Rejected e).

Definition postMessage (w : Worker) (m : TaskMessage) (st : Pool) : Pool :=
  set_posted (posted st ++ [(w, m)]) st.

(* ---------------------------------------------------------------- *)
(** *** Construction and worker lifecycle *)
(* ---------------------------------------------------------------- *)

(** [getAvailableHardwareThreads]: [os.cpus().length], or 4 when the
    detection throws ([cpus = None]). *)
Definition getAvailableHardwareThreads (cpus : option Z) : Z :=
  match cpus with
  | Some n => n
  | None => 4
  end.

(** [determineThreadCount]. *)
Definition determineThreadCount (cpus : option Z) (requestedThreads : option Z) : Z :=
  let availableThreads := getAvailableHardwareThreads cpus in
  match requestedThreads with
  | Some requested =>
      if (requested =? 0) || (requested <=? 0)
      then Z.max 1 (availableThreads / 2)
      else Z.min requested availableThreads
  | None => Z.max 1 (availableThreads / 2)
  end.

(** [value || fallback] on an optional number: an absent value and 0 are
    falsy. *)
Definition orDefault (value : option Z) (fallback : Z) : Z :=
  match value with
  | Some v => if v =? 0 then fallback else v
  | None => fallback
  end.

(** [terminateWorkers], up to its [await]: every worker gets an 'exit'
    listener and [terminate()], and [workers] is emptied.  The second
    component lists the workers whose 'exit' the caller then waits for. *)
Definition terminateWorkers (st : Pool) : Pool * list Worker :=
  let awaited := workers st in
  (set_workers [] (set_terminated (terminated st ++ awaited) st), awaited).

(** [Promise.all(terminationPromises)] is resolved once every awaited
    worker has emitted 'exit'. *)
Definition allExited (awaited exited : list Worker) : bool :=
  forallb (fun w => bool_decide (w ∈ exited)) awaited.

(** [start], up to the [await] inside [initializeWorkers].  [None]: the
    pool was running and the call returned at once. *)
Definition start (st : Pool) : Pool * option (list Worker) :=
  if running st then (st, None)
  else
    let st := set_running true st in
    let '(st, awaited) := terminateWorkers st in
    (st, Some awaited).

(** [createWorker(id)]: [new Worker(...)] throws ([ok = false]) or the
    new worker is pushed on [workers]. *)
Definition createWorker (id : Z) (ok : bool) (st : Pool) : Pool :=
  if ok
  then set_spawned (S (spawned st))
         (set_workers (workers st ++ [{| slot := id; handle := spawned st |}]) st)
  else st.

(** The rest of [initializeWorkers]: one [createWorker(i)] for each
    [i < jsThreadCount]. *)
Definition createWorkers (ok : nat -> bool) (st : Pool) : Pool :=
  foldl (fun st i => createWorker (Z.of_nat i) (ok i) st) st
    (seq 0 (Z.to_nat (jsThreadCount st))).

(** The 'exit' listener that [createWorker] installs. *)
Definition workerExited (w : Worker) (st : Pool) : Pool :=
  set_workers (List.filter (fun w' => negb (bool_decide (w' = w))) (workers st)) st.

(** The constructor, which ends with [this.start()]: the fields are
    initialised, the addon is loaded ([native = None]: [require] throws),
    and the synchronous part of [start] runs. *)
Definition construct (opts : ThreadPoolOptions) (cpus : option Z)
    (native : option CppModule) : Pool :=
  let fallback :=
    match native with
    | Some m => match getThreadPoolInfo m with Some _ => false | None => true end
    | None => true
    end in
  fst (start
    {| workers := [];
       jsThreadCount := determineThreadCount cpus (jsThreads opts);
       taskQueue := ∅;
       nextTaskId := 0;
       running := false;
       cppModule := native;
       fallbackMode := fallback;
       maxQueueSize := orDefault (maxQueueSizeOption opts) 10000;
       taskTimeout := orDefault (taskTimeoutOption opts) 30000;
       timers := ∅;
       calls := [];
       posted := [];
       terminated := [];
       warnings := [];
       spawned := 0%nat;
       nativeCalls := 0%nat |}).

(* ---------------------------------------------------------------- *)
(** *** Scheduling *)
(* ---------------------------------------------------------------- *)

(** The promise [scheduleTask] returns: rejected inside the executor
    before a task id exists, or the promise of task [id], which is
    settled by the calls recorded for [id]. *)
Inductive PromiseRef :=
| RejectedAtOnce (e : Error)
| OfTask (id : Z).

(** [message.error] is truthy: it is present and not the empty string. *)
Definition truthy (error : Reported) : bool :=
  match error with
  | ReportedString EmptyString => false
  | _ => true
  end.

(** [handleWorkerMessage]. *)
Definition handleWorkerMessage (message : ResultMessage) (st : Pool) : Pool :=
  match (if String.eqb (rm_type message) "result" then rm_id message else None) with
  | None => warn "Received invalid message from worker" st
  | Some id =>
      match taskQueue st !! id with
      | None => warn "Received result for unknown task ID" st
      | Some taskPromise =>
          let st := clearEntryTimeout taskPromise st in
          let st := set_taskQueue (delete id (taskQueue st)) st in
          match rm_error message with
          | Some error =>
              if truthy error
              then reject taskPromise (TaskFailed error) st
              else resolve taskPromise (rm_result message) st
          | None => resolve taskPromise (rm_result message) st
          end
      end
  end.

(** The timeout handler that [scheduleTask] installs for [taskId]. *)
Definition timeoutHandler (taskId : Z) (st : Pool) : Pool :=
  match taskQueue st !! taskId with
  | Some taskPromise =>
      let st := set_taskQueue (delete taskId (taskQueue st)) st in
      reject taskPromise (TimedOut taskId (taskTimeout st)) st
  | None => st
  end.

(** The timer of [taskId] fires: only a live timer does, it is no longer
    live afterwards, and its handler runs. *)
Definition timerFires (taskId : Z) (st : Pool) : Pool :=
  if bool_decide (taskId ∈ timers st)
  then timeoutHandler taskId (set_timers (timers st ∖ {[taskId]}) st)
  else st.

(** [scheduleTask(task, ...args)].  [postThrows] tells whether
    [worker.postMessage] throws, and the message of what it throws. *)
Definition scheduleTask (task : TaskFunction) (args : list Arg)
    (postThrows : option string) (st : Pool) : Pool * PromiseRef :=
  if negb (running st) then (st, RejectedAtOnce NotRunning)
  else if maxQueueSize st <=? Z.of_nat (size (taskQueue st))
  then (st, RejectedAtOnce QueueFull)
  else
    let taskId := nextTaskId st in
    let st := set_nextTaskId (taskId + 1) st in
    let st := setTimeout taskId st in
    let taskPromise := {| promise := taskId; timeoutId := Some taskId |} in
    let st := set_taskQueue (<[taskId := taskPromise]> (taskQueue st)) st in
    let functionData := task in
    if (length (workers st) =? 0)%nat
    then
      let st := clearTimeout taskId st in
      let st := set_taskQueue (delete taskId (taskQueue st)) st in
      (reject taskPromise NoWorkers st, OfTask taskId)
    else
      let workerIndex := Z.to_nat (taskId mod Z.of_nat (length (workers st))) in
      let message :=
        {| tm_id := taskId; tm_functionData := functionData; tm_args := args |} in
      let posting :=
        match workers st !! workerIndex with
        | Some worker =>
            match postThrows with
            | None => inr worker
            | Some text => inl (Thrown text)
            end
        | None => inl (Thrown "TypeError")
        end in
      match posting with
      | inr worker => (postMessage worker message st, OfTask taskId)
      | inl error =>
          let st := clearTimeout taskId st in
          let st := set_taskQueue (delete taskId (taskQueue st)) st in
          (reject taskPromise error st, OfTask taskId)
      end.

(** The loop of [shutdown] over [taskQueue.entries()]. *)
Definition rejectPending (st : Pool) (entry : Z * Entry) : Pool :=
  let taskPromise := snd entry in
  let st := clearEntryTimeout taskPromise st in
  reject taskPromise ShuttingDown st.

(** [shutdown], up to its [await]; the second component lists the
    workers whose 'exit' is awaited before the call returns ([[]]: it
    returns without waiting).  [taskQueue.entries()] lists the entries in
    the order of their insertion and [map_to_list] in the order of the
    map; the entries are independent of one another in the loop. *)
Definition shutdown (st : Pool) : Pool * list Worker :=
  if negb (running st) then (st, [])
  else
    let st := set_running false st in
    let st := foldl rejectPending st (map_to_list (taskQueue st)) in
    let st := set_taskQueue ∅ st in
    terminateWorkers st.

(* ---------------------------------------------------------------- *)
(** *** Bezier path generation (the JavaScript fallback) *)
(* ---------------------------------------------------------------- *)

Local Open Scope float_scope.

(** One step of the generator inside [generateBezierPath]:
    [rngState = (1664525 * rngState + 1013904223) % 2**32]. *)
Definition lcg (rngState : float) : float :=
  JS.rem (1664525 * rngState + 1013904223) 4294967296.

(** [options.seed ?? Math.floor(Math.random() * 1000000)], where
    [mathRandom] is what [Math.random()] returns if it is called. *)
Definition resolveSeed (seed : option float) (mathRandom : float) : float :=
  match seed with
  | Some s => s
  | None => JS.floor (mathRandom * 1000000)
  end.

(** The point of parameter [t] on the cubic Bezier curve. *)
Definition bezierPoint (start cp1 cp2 end_ : Point) (t : float) : Point :=
  let mt := 1 - t in
  let mt2 := mt * mt in
  let mt3 := mt2 * mt in
  let t2 := t * t in
  let t3 := t2 * t in
  {| x := mt3 * x start + 3 * mt2 * t * x cp1 + 3 * mt * t2 * x cp2 + t3 * x end_;
     y := mt3 * y start + 3 * mt2 * t * y cp1 + 3 * mt * t2 * y cp2 + t3 * y end_ |}.

(** [generateBezierPath(start, end, options)]. *)
Definition generateBezierPath (mathRandom : float) (start end_ : Point)
    (options : BezierOptions) : list Point :=
  let numPoints := numPoints options in
  let seed := resolveSeed (seed options) mathRandom in
  (* the successive values of rngState and of random() *)
  let s1 := lcg seed in let r1 := s1 / 4294967296 in
  let s2 := lcg s1 in let r2 := s2 / 4294967296 in
  let s3 := lcg s2 in let r3 := s3 / 4294967296 in
  let s4 := lcg s3 in let r4 := s4 / 4294967296 in
  let s5 := lcg s4 in let r5 := s5 / 4294967296 in
  let s6 := lcg s5 in let r6 := s6 / 4294967296 in
  let dx := x end_ - x start in
  let dy := y end_ - y start in
  let distance := sqrt (dx * dx + dy * dy) in
  let jitterScale := JS.min 50 (distance * 0.2) * jitterAmount options * 0.1 in
  let jitterX1 := (r1 * 2 - 1) * jitterScale in
  let jitterY1 := (r2 * 2 - 1) * jitterScale in
  let jitterX2 := (r3 * 2 - 1) * jitterScale in
  let jitterY2 := (r4 * 2 - 1) * jitterScale in
  let perpMagnitude := complexity options * 0.5 * (r5 - 0.5) in
  let perpX := (- dy) * perpMagnitude in
  let perpY := dx * perpMagnitude in
  let cp1 :=
    {| x := x start + dx * 0.3 + perpX + jitterX1;
       y := y start + dy * 0.3 + perpY + jitterY1 |} in
  let cp2 :=
    {| x := x end_ - dx * 0.3 - perpX + jitterX2;
       y := y end_ - dy * 0.3 - perpY + jitterY2 |} in
  let cp2 :=
    if JS.gtb (overshootFactor options) 0 && JS.gtb distance 100
    then
      let overshootAmount := overshootFactor options * (0.1 + 0.1 * r6) in
      {| x := x end_ + dx * overshootAmount; y := y end_ + dy * overshootAmount |}
    else cp2 in
  List.map
    (fun i => bezierPoint start cp1 cp2 end_ (JS.of_nat i / (JS.of_nat numPoints - 1)))
    (seq 0 numPoints).

(** The closure [processBatch] of [generateBezierPaths], with the
    ThreadPoolManager as [this]: one path per index of
    [batch.startPoints].  [mathRandom i] is
    what [Math.random()] returns while item [i] is computed.  A missing
    end point makes [generateBezierPath] throw ([None]). *)
Definition processBatch (mathRandom : nat -> float) (batch : Batch)
  : option (list (list Point)) :=
  mapM
    (fun i =>
       start ← startPoints batch !! i;
       end_ ← endPoints batch !! i;
       Some (generateBezierPath (mathRandom i) start end_ (options batch)))
    (seq 0 (length (startPoints batch))).

(** The minimal fallback of [simulatePhysicsMovements]: a straight line
    of [Math.min(options.maxSteps, 100)] points. *)
Definition linearPath (options : PhysicsOptions) (start end_ : Point) : list Point :=
  let numPoints := Nat.min (maxSteps options) 100 in
  List.map
    (fun j =>
       let t := JS.of_nat j / (JS.of_nat numPoints - 1) in
       {| x := x start + (x end_ - x start) * t;
          y := y start + (y end_ - y start) * t |})
    (seq 0 numPoints).

Local Close Scope float_scope.

(* ---------------------------------------------------------------- *)
(** *** The worker (worker.js) *)
(* ---------------------------------------------------------------- *)

(** [taskFunction(...args)]: the call of the function that
    [evaluateFunction] has rebuilt with [new Function] from the text of
    a task function.  The rebuilt function is called as a plain function
    of the worker: neither the variables nor the [this] of the place
    where the task function was written are there.

    - [processBatch] is an arrow function inside [generateBezierPaths];
      its loop calls [this.generateBezierPath], where [this] is the
      ThreadPoolManager.  In the worker that member is not a function,
      and the first turn of the loop throws a TypeError.  With no start
      point the loop does not run and the result is the empty array.
    - a function of the caller is known by its text only; [caller] says
      what it computes. *)
Definition callRebuilt (caller : string -> list Arg -> Reported + Value)
    (functionData : TaskFunction) (args : list Arg) : Reported + Value :=
  match functionData with
  | ProcessBatch =>
      match args with
      | ArgBatch batch :: _ =>
          match startPoints batch with
          | [] => inr (VArray [])
          | _ :: _ =>
              inl (ReportedObject "TypeError" "this.generateBezierPath is not a function")
          end
      | _ => inl (ReportedObject "TypeError" "Cannot read properties of undefined")
      end
  | CallerFunction source => caller source args
  end.

(** The 'message' listener of worker.js for a task message: the result
    message it posts back.  [rebuilds functionData] tells whether
    [evaluateFunction] gets a function out of the text, that is whether
    its pattern finds the parameters and the body and [new Function]
    accepts them; otherwise it throws "Failed to evaluate function".
    Whatever is thrown reaches the [catch] clause, which posts it. *)
Definition workerReply (rebuilds : TaskFunction -> bool)
    (caller : string -> list Arg -> Reported + Value) (message : TaskMessage)
  : ResultMessage :=
  if rebuilds (tm_functionData message) then
    match callRebuilt caller (tm_functionData message) (tm_args message) with
    | inr result =>
        {| rm_type := "result"; rm_id := Some (tm_id message);
           rm_result := result; rm_error := None |}
    | inl error =>
        {| rm_type := "result"; rm_id := Some (tm_id message);
           rm_result := VUndefined; rm_error := Some error |}
    end
  else
    {| rm_type := "result"; rm_id := Some (tm_id message);
       rm_result := VUndefined;
       rm_error := Some (ReportedObject "Error" "Failed to evaluate function") |}.

(** The reply [generateBezierPaths] counts on: that of a worker in which
    [processBatch] runs as it does where it was written, with the
    ThreadPoolManager as [this]. *)
Definition expectedReply (mathRandom : nat -> float) (message : TaskMessage)
  : ResultMessage :=
  match tm_functionData message, tm_args message with
  | ProcessBatch, ArgBatch batch :: _ =>
      match processBatch mathRandom batch with
      | Some paths =>
          {| rm_type := "result"; rm_id := Some (tm_id message);
             rm_result := pathsValue paths; rm_error := None |}
      | None =>
          {| rm_type := "result"; rm_id := Some (tm_id message);
             rm_result := VUndefined;
             rm_error := Some (ReportedObject "TypeError"
                                 "Cannot read properties of undefined") |}
      end
  | _, _ =>
      {| rm_type := "result"; rm_id := Some (tm_id message);
         rm_result := VUndefined;
         rm_error := Some (ReportedObject "Error" "Failed to evaluate function") |}
  end.

(* ---------------------------------------------------------------- *)
(** *** The batch dispatcher *)
(* ---------------------------------------------------------------- *)

Local Open Scope nat_scope.

(** [Math.ceil(n / w)] for a positive [w]. *)
Definition ceilDiv (n w : nat) : nat := (n + w - 1) / w.

(** [Math.max(1, Math.ceil(n / w))].  With no worker the quotient is
    [Infinity]: the first slice takes the whole input and the loop
    stops, as with a batch size of [n]. *)
Definition batchSize (n w : nat) : nat :=
  if w =? 0 then Nat.max 1 n else Nat.max 1 (ceilDiv n w).

(** [array.slice(i, j)]. *)
Definition slice {A} (i j : nat) (l : list A) : list A := take (j - i) (drop i l).

(** The values of [i] in [for (let i = 0; i < n; i += batchSize)]. *)
Definition batchOffsets (n batchSize : nat) : list nat :=
  List.map (fun k => k * batchSize) (seq 0 (ceilDiv n batchSize)).

(** [batches] at the end of the loop that fills it. *)
Definition makeBatches (startPoints endPoints : list Point) (options : BezierOptions)
    (batchSize : nat) : list Batch :=
  List.map
    (fun i =>
       {| startPoints := slice i (i + batchSize) startPoints;
          endPoints := slice i (i + batchSize) endPoints;
          options := options |})
    (batchOffsets (length startPoints) batchSize).

(** [batches.map(batch => this.scheduleTask(processBatch, batch))];
    [postThrows k] is the behaviour of [postMessage] for the batch of
    index [k]. *)
Fixpoint scheduleBatches (batches : list Batch) (postThrows : nat -> option string)
    (k : nat) (st : Pool) : Pool * list PromiseRef :=
  match batches with
  | [] => (st, [])
  | batch :: rest =>
      let '(st, p) := scheduleTask ProcessBatch [ArgBatch batch] (postThrows k) st in
      let '(st, ps) := scheduleBatches rest postThrows (S k) st in
      (st, p :: ps)
  end.

(** How far an [async] batch operation gets in its synchronous run. *)
Inductive Dispatch :=
| Throws (e : Error)                  (* the returned promise is rejected *)
| Returns (paths : list Value)        (* it is resolved with [paths] *)
| Awaits (promises : list PromiseRef) (* [await Promise.all(promises)] *).

(** The fallback of [generateBezierPaths] on worker threads, up to the
    [await]. *)
Definition bezierFallback (startPoints endPoints : list Point)
    (options : BezierOptions) (postThrows : nat -> option string) (st : Pool)
  : Pool * Dispatch :=
  let batchSize := batchSize (length startPoints) (length (workers st)) in
  let batches := makeBatches startPoints endPoints options batchSize in
  let '(st, promises) := scheduleBatches batches postThrows 0 st in
  (st, Awaits promises).

(** The native batch primitive, when the addon is loaded, is not in
    fallback mode and has the primitive. *)
Definition nativePrimitive {F} (primitive : CppModule -> option F) (st : Pool)
  : option F :=
  if fallbackMode st then None
  else
    match cppModule st with
    | Some m => primitive m
    | None => None
    end.

(** A batch primitive of the addon is entered. *)
Definition enterNative (st : Pool) : Pool :=
  set_nativeCalls (S (nativeCalls st)) st.

(** [generateBezierPaths], up to its [await]. *)
Definition generateBezierPaths (startPoints endPoints : list Point)
    (options : BezierOptions) (mathRandom : float)
    (postThrows : nat -> option string) (st : Pool) : Pool * Dispatch :=
  if negb (running st) then (st, Throws NotRunning)
  else if negb (length startPoints =? length endPoints) then (st, Throws LengthMismatch)
  else if length startPoints =? 0 then (st, Returns [])
  else
    match nativePrimitive batchGenerateBezierPaths st with
    | Some batch =>
        let seed := resolveSeed (seed options) mathRandom in
        let st := enterNative st in
        match batch startPoints endPoints options seed with
        | inr paths => (st, Returns (pathValue <$> paths))
        | inl error =>
            bezierFallback startPoints endPoints options postThrows
              (warn "C++ batch Bezier path generation failed, falling back to JS" st)
        end
    | None => bezierFallback startPoints endPoints options postThrows st
    end.

(** [simulatePhysicsMovements]; it never awaits. *)
Definition simulatePhysicsMovements (startPoints endPoints : list Point)
    (options : PhysicsOptions) (mathRandom : float) (st : Pool) : Pool * Dispatch :=
  if negb (running st) then (st, Throws NotRunning)
  else if negb (length startPoints =? length endPoints) then (st, Throws LengthMismatch)
  else if length startPoints =? 0 then (st, Returns [])
  else
    let fallback st :=
      (st, Returns (pathValue <$> zip_with (linearPath options) startPoints endPoints)) in
    match nativePrimitive batchSimulatePhysicsMovements st with
    | Some batch =>
        let seed := resolveSeed (physicsSeed options) mathRandom in
        let st := enterNative st in
        match batch startPoints endPoints options seed with
        | inr paths => (st, Returns (pathValue <$> paths))
        | inl error =>
            fallback (warn "C++ batch physics simulation failed, falling back to JS" st)
        end
    | None => fallback st
    end.

Local Close Scope nat_scope.

(** The state of a promise of [scheduleTask] given the callbacks invoked
    so far: the first invocation settles it. *)
Definition promiseState (calls : list Call) (p : PromiseRef) : option Settlement :=
  match p with
  | RejectedAtOnce e => Some (Rejected e)
  | OfTask id => settlement <$> List.find (fun c => bool_decide (task c = id)) calls
  end.

Inductive Outcome :=
| Pending
| Failed
| Fulfilled (values : list Value).

(** [Promise.all]: rejected as soon as one promise is, fulfilled with the
    values in the order of the promises once all are. *)
Fixpoint promiseAll (calls : list Call) (promises : list PromiseRef) : Outcome :=
  match promises with
  | [] => Fulfilled []
  | p :: rest =>
      match promiseState calls p, promiseAll calls rest with
      | Some (Rejected _), _ => Failed
      | _, Failed => Failed
      | Some (Resolved v), Fulfilled vs => Fulfilled (v :: vs)
      | _, _ => Pending
      end
  end.

(** [array.flat()]: one level of arrays is removed. *)
Definition flat (values : list Value) : list Value :=
  concat (List.map (fun v => match v with VArray vs => vs | _ => [v] end) values).

(** What the promise returned by a batch operation is, given how far the
    call got and the callbacks invoked since. *)
Definition batchResult (d : Dispatch) (st : Pool) : Outcome :=
  match d with
  | Throws _ => Failed
  | Returns paths => Fulfilled paths
  | Awaits promises =>
      match promiseAll (calls st) promises with
      | Fulfilled batchResults => Fulfilled (flat batchResults)
      | other => other
      end
  end.

(* ---------------------------------------------------------------- *)
(** *** Runs of the scheduler *)
(* ---------------------------------------------------------------- *)

(** What can happen to a pool, one event-loop turn at a time. *)
Inductive Action :=
| CallScheduleTask (task : TaskFunction) (args : list Arg) (postThrows : option string)
| WorkerMessage (message : ResultMessage)
| TimerFires (taskId : Z)
| CallShutdown
| CallStart
| CreateWorkers (ok : nat -> bool)       (* [initializeWorkers] resumes *)
| CreateWorker (id : Z) (ok : bool)      (* re-creation after 'exit' or 'error' *)
| WorkerExited (w : Worker)
| CallGenerateBezierPaths (startPoints endPoints : list Point)
    (options : BezierOptions) (mathRandom : float) (postThrows : nat -> option string)
| CallSimulatePhysicsMovements (startPoints endPoints : list Point)
    (options : PhysicsOptions) (mathRandom : float).

Definition step (st : Pool) (a : Action) : Pool :=
  match a with
  | CallScheduleTask task args postThrows => fst (scheduleTask task args postThrows st)
  | WorkerMessage message => handleWorkerMessage message st
  | TimerFires taskId => timerFires taskId st
  | CallShutdown => fst (shutdown st)
  | CallStart => fst (start st)
  | CreateWorkers ok => createWorkers ok st
  | CreateWorker id ok => createWorker id ok st
  | WorkerExited w => workerExited w st
  | CallGenerateBezierPaths startPoints endPoints options mathRandom postThrows =>
      fst (generateBezierPaths startPoints endPoints options mathRandom postThrows st)
  | CallSimulatePhysicsMovements startPoints endPoints options mathRandom =>
      fst (simulatePhysicsMovements startPoints endPoints options mathRandom st)
  end.

Definition run (actions : list Action) (st : Pool) : Pool := foldl step st actions.

(** Default options, and a pool made with them on a host with [n] CPUs
    and no native addon. *)
Definition defaultOptions : ThreadPoolOptions :=
  {| jsThreads := None; maxQueueSizeOption := None; taskTimeoutOption := None |}.

Definition newPool (n : Z) : Pool := construct defaultOptions (Some n) None.

(* ---------------------------------------------------------------- *)
(** *** Bookkeeping of the scheduler *)
(* ---------------------------------------------------------------- *)

(** The part of a state the bookkeeping is about. *)
Definition books (st : Pool) : gmap Z Entry * gset Z * list Call * Z * Z :=
  (taskQueue st, timers st, calls st, nextTaskId st, maxQueueSize st).

(** The bookkeeping is consistent: entries carry the callbacks and the
    timer of their own task, ids in use were allocated, a timer is live
    exactly for the registered tasks, the registry respects its bound,
    and the callbacks invoked so far were invoked once per task, for
    tasks that are no longer registered, with the timer out of the way;
    only [shutdown] invokes a callback of a task still registered. *)
Record Consistent (st : Pool) : Prop := {
  entries_named :
    forall id tp, taskQueue st !! id = Some tp ->
      promise tp = id /\ timeoutId tp = Some id;
  entries_allocated :
    forall id, is_Some (taskQueue st !! id) -> id < nextTaskId st;
  timers_guard :
    forall id, id ∈ timers st <-> is_Some (taskQueue st !! id);
  queue_bounded :
    Z.of_nat (size (taskQueue st)) <= Z.max 0 (maxQueueSize st);
  calls_allocated :
    forall c, c ∈ calls st -> task c < nextTaskId st;
  calls_once : NoDup (task <$> calls st);
  calls_final :
    forall c, c ∈ calls st -> taskQueue st !! task c = None;
  calls_timer :
    forall c, c ∈ calls st -> timerLive c = false;
  calls_order :
    forall c, c ∈ calls st ->
      registered c = true <-> settlement c = Rejected ShuttingDown;
}.

(** Task [id] is settled the way every path but [shutdown] does it: its
    timer is cancelled (or has fired), its entry is removed, then its
    callback is invoked. *)
Definition settle (id : Z) (s : Settlement) (st : Pool) : Pool :=
  invoke id s (set_taskQueue (delete id (taskQueue st)) (clearTimeout id st)).

(** A task id is allocated, with its timer and its entry. *)
Definition allocate (st : Pool) : Pool :=
  let taskId := nextTaskId st in
  set_taskQueue
    (<[taskId := {| promise := taskId; timeoutId := Some taskId |}]> (taskQueue st))
    (setTimeout taskId (set_nextTaskId (taskId + 1) st)).

(** What a result message settles its task with. *)
Definition messageSettlement (message : ResultMessage) : Settlement :=
  match rm_error message with
  | Some error =>
      if truthy error then Rejected (TaskFailed error)
      else Resolved (rm_result message)
  | None => Resolved (rm_result message)
  end.

(** The callback invocation [shutdown] makes for an entry of the
    registry [queue]. *)
Definition shutdownCall (queue : gmap Z Entry) (entry : Z * Entry) : Call :=
  {| task := promise (snd entry); settlement := Rejected ShuttingDown;
     registered := bool_decide (is_Some (queue !! promise (snd entry)));
     timerLive := false |}.

Definition named (entry : Z * Entry) : Prop :=
  promise (snd entry) = fst entry /\ timeoutId (snd entry) = Some (fst entry).

(** The path of a batch of Bezier paths as computed one item at a time. *)
Definition sequentialPath (options : BezierOptions) (mathRandom : float)
    (pair : Point * Point) : Value :=
  pathValue (generateBezierPath mathRandom (fst pair) (snd pair) options).

(** The task messages of a list of batches, ids from [n] on. *)
Fixpoint batchMessages (n : Z) (batches : list Batch) : list TaskMessage :=
  match batches with
  | [] => []
  | batch :: rest =>
      {| tm_id := n; tm_functionData := ProcessBatch; tm_args := [ArgBatch batch] |}
      :: batchMessages (n + 1) rest
  end.

(** A path is the reference computation for a pair of points, for some
    value of [Math.random()]. *)
Definition referencePath (options : BezierOptions) (path : list Point)
    (pair : Point * Point) : Prop :=
  exists r, path = generateBezierPath r (fst pair) (snd pair) options.

(** Task and settlement of the callbacks invoked so far. *)
Definition outcomes (st : Pool) : list (Z * Settlement) :=
  (fun c => (task c, settlement c)) <$> calls st.

(** The task a result message is about ([0] when it has no id) and what
    it settles it with. *)
Definition replyOutcome (message : ResultMessage) : Z * Settlement :=
  (default 0 (rm_id message), messageSettlement message).

(* ---------------------------------------------------------------- *)
(** *** Sample configurations and states *)
(* ---------------------------------------------------------------- *)

Definition allCreated : nat -> bool := fun _ => true.

(** A pool on a host with eight CPUs, once its four workers exist. *)
Definition fourWorkers : Pool := run [CreateWorkers allCreated] (newPool 8).

(** A pool with two workers and one, respectively two, pending tasks. *)
Definition onePending : Pool :=
  run [CreateWorkers allCreated;
       CallScheduleTask (CallerFunction "() => 42") [] None]
    (newPool 4).

Definition twoPending : Pool :=
  run [CallScheduleTask (CallerFunction "() => 43") [] None] onePending.

(** A pool that was shut down. *)
Definition stoppedPool : Pool :=
  run [CreateWorkers allCreated; CallShutdown] (newPool 4).

Definition negativeRequest : ThreadPoolOptions :=
  {| jsThreads := Some (-1); maxQueueSizeOption := None; taskTimeoutOption := None |}.

Definition someOptions : BezierOptions :=
  {| numPoints := 3; complexity := 0.5; overshootFactor := 0.2;
     jitterAmount := 1; seed := Some 12345%float |}.

Definition somePhysics : PhysicsOptions :=
  {| mass := 1; springConstant := 8; dampingFactor := 0.7; timeStep := 0.016;
     maxSteps := 100; stoppingThreshold := 0.1; physicsSeed := None |}.

Definition origin : Point := {| x := 0; y := 0 |}.
Definition target : Point := {| x := 300; y := 400 |}.

(** 237 start points on a line and 237 end points on another. *)
Definition manyStarts : list Point :=
  List.map (fun i => {| x := JS.of_nat i; y := 0 |}) (seq 0 237).
Definition manyEnds : list Point :=
  List.map (fun i => {| x := 1000; y := JS.of_nat i |}) (seq 0 237).

(** An addon whose Bezier batch primitive throws. *)
Definition failingAddon : CppModule :=
  {| getThreadPoolInfo := Some {| threadCount := 4; activeThreads := 0; queueSize := 0 |};
     batchGenerateBezierPaths := Some (fun _ _ _ _ => inl (Thrown "native failure"));
     batchSimulatePhysicsMovements := None |}.

Definition poolWithFailingAddon : Pool :=
  run [CreateWorkers allCreated]
    (construct defaultOptions (Some 4) (Some failingAddon)).

End ThreadPool.

(* ================================================================== *)
(** ** ThreadPoolManager.ts: status and the Ornstein-Uhlenbeck batch *)
(* ================================================================== *)

Module ThreadPoolStatus.
Import ThreadPool.



(** What [getThreadPoolInfo] of the pool returns: the counters of the
    addon, then [jsThreads], [fallbackMode] and [totalThreads]. *)
Record Info := {
  info_threadCount : Z;
  info_activeThreads : Z;
  info_queueSize : Z;
  info_jsThreads : nat;
  info_fallbackMode : bool;
  info_totalThreads : Z;
}.

(** [getThreadPoolInfo] of the pool.  The call of the addon may throw
    ([None]); the [catch] clause warns and the fallback info is
    returned. *)
Definition getThreadPoolInfo (st : Pool) : Pool * Info :=
  let jsThreads := length (workers st) in
  let fallbackInfo :=
    {| info_threadCount := 0; info_activeThreads := 0; info_queueSize := 0;
       info_jsThreads := jsThreads; info_fallbackMode := true;
       info_totalThreads := Z.of_nat jsThreads |} in
  match (if fallbackMode st then None else cppModule st) with
  | Some m =>
      match ThreadPool.getThreadPoolInfo m with
      | Some cppInfo =>
          (st,
           {| info_threadCount := threadCount cppInfo;
              info_activeThreads := activeThreads cppInfo;
              info_queueSize := queueSize cppInfo;
              info_jsThreads := jsThreads; info_fallbackMode := false;
              info_totalThreads := threadCount cppInfo + Z.of_nat jsThreads |})
      | None => (warn "Failed to get C++ thread pool info" st, fallbackInfo)
      end
  | None => (st, fallbackInfo)
  end.

Local Open Scope float_scope.

(** The options of [generateOUProcesses]; [count] and [points] are
    counts. *)
Record OUOptions := {
  count : Z;
  points : Z;
  theta : float;
  sigma : float;
  dt : float;
  ouSeed : option float;
}.

Record Jitter := { jitterX : list float; jitterY : list float }.

Inductive OUResult :=
| OUThrows (e : Error)
| OUReturns (processes : list Jitter).

(** One element of the fallback result: [points] draws for [jitterX],
    then [points] draws for [jitterY]; [first] is the number of draws of
    [Math.random()] made before. *)
Definition jitterProcess (mathRandom : nat -> float) (points first : nat) : Jitter :=
  {| jitterX := List.map (fun j => mathRandom (first + j)%nat - 0.5) (seq 0 points);
     jitterY := List.map (fun j => mathRandom (first + points + j)%nat - 0.5)
                  (seq 0 points) |}.

(** The minimal fallback of [generateOUProcesses].  [Array(n)] throws a
    RangeError for a length of [2^32] or more. *)
Definition ouFallback (options : OUOptions) (mathRandom : nat -> float) (drawn : nat)
  : OUResult :=
  if (4294967296 <=? count options)%Z
  then OUThrows (Thrown "RangeError: Invalid array length")
  else if (4294967296 <=? points options)%Z
  then OUThrows (Thrown "RangeError: Invalid array length")
  else
    let n := Z.to_nat (points options) in
    OUReturns
      (List.map (fun i => jitterProcess mathRandom n (drawn + i * (2 * n))%nat)
         (seq 0 (Z.to_nat (count options)))).

(** [generateOUProcesses]; it never awaits.  [primitive] is the member
    [batchGenerateOUProcesses] of the addon, if it has one; [mathRandom k]
    is what the call number [k] of [Math.random()] returns. *)
Definition generateOUProcesses (options : OUOptions)
    (primitive : option (OUOptions -> float -> Error + list Jitter))
    (mathRandom : nat -> float) (st : Pool) : Pool * OUResult :=
  if negb (running st) then (st, OUThrows NotRunning)
  else if ((count options <=? 0) || (points options <=? 0))%Z then (st, OUReturns [])
  else
    match (if fallbackMode st then None
           else match cppModule st with Some _ => primitive | None => None end) with
    | Some batch =>
        let seed := resolveSeed (ouSeed options) (mathRandom 0%nat) in
        let drawn := match ouSeed options with Some _ => 0%nat | None => 1%nat end in
        let st := enterNative st in
        match batch options seed with
        | inr processes => (st, OUReturns processes)
        | inl error =>
            (warn "C++ batch OU process generation failed, falling back to JS" st,
             ouFallback options mathRandom drawn)
        end
    | None => (st, ouFallback options mathRandom 0%nat)
    end.

Local Close Scope float_scope.

(** What the constructor fixes: the number of workers to create, the
    addon and whether it is used, the bound of the queue and the
    timeout of a task. *)
Definition configuration (st : Pool)
  : Z * option CppModule * bool * Z * Z :=
  (jsThreadCount st, cppModule st, fallbackMode st, maxQueueSize st, taskTimeout st).

(** Every task id handed out so far, that is every id from 0 up to
    [nextTaskId], is accounted for: its task is pending in the registry
    or a callback of its promise was invoked; and no other id is. *)
Definition Accounted (st : Pool) : Prop :=
  0 <= nextTaskId st
  /\ (forall id, 0 <= id < nextTaskId st ->
        is_Some (taskQueue st !! id) \/ id ∈ task <$> calls st)
  /\ (forall id, is_Some (taskQueue st !! id) \/ id ∈ task <$> calls st -> 0 <= id).

(** A pool that is not running has nothing pending. *)
Definition Idle (st : Pool) : Prop :=
  running st = false -> taskQueue st = ∅.

(** An addon whose physics batch primitive throws. *)
Definition brokenPhysicsAddon : CppModule :=
  {| ThreadPool.getThreadPoolInfo :=
       Some {| threadCount := 4; activeThreads := 0; queueSize := 0 |};
     batchGenerateBezierPaths := None;
     batchSimulatePhysicsMovements :=
       Some (fun _ _ _ _ => inl (Thrown "native failure")) |}.

End ThreadPoolStatus.

(* ================================================================== *)
(** ** worker.js: errors reported to the main thread *)
(* ================================================================== *)

Module WorkerScript.
Import ThreadPool.

(** What a task function can throw, as [serializeError] looks at it. *)
Inductive Raised :=
| RaisedFalsy                          (* undefined, null, 0, NaN or false *)
| RaisedString (text : string)
| RaisedObject (name message : option string).
  (* any other value; its members [name] and [message] when they are
     there *)

(** [member || fallback] for a member that is a string when present. *)
Definition orElse (member : option string) (fallback : string) : string :=
  match member with
  | Some EmptyString | None => fallback
  | Some text => text
  end.

(** [serializeError]. *)
Definition serializeError (error : Raised) : Reported :=
  match error with
  | RaisedFalsy => ReportedString "Unknown error"
  | RaisedString EmptyString => ReportedString "Unknown error"
  | RaisedString text => ReportedString text
  | RaisedObject name message =>
      ReportedObject (orElse name "Error") (orElse message "Unknown error")
  end.

(** The message the [catch] clause of the listener posts for the task
    [id] when [error] was thrown. *)
Definition errorReply (id : Z) (error : Raised) : ResultMessage :=
  {| rm_type := "result"; rm_id := Some id; rm_result := VUndefined;
     rm_error := Some (serializeError error) |}.

(** The message posted when the task function has returned [result]. *)
Definition resultReply (id : Z) (result : Value) : ResultMessage :=
  {| rm_type := "result"; rm_id := Some id; rm_result := result; rm_error := None |}.

(** The reports a worker posts besides results: 'ready' when it starts,
    and what its handlers of uncaught exceptions and unhandled rejections
    send.  Both carry the id [-1]. *)
Definition statusReport : ResultMessage :=
  {| rm_type := "status"; rm_id := Some (-1); rm_result := VUndefined; rm_error := None |}.

Definition errorReport (error : Raised) : ResultMessage :=
  {| rm_type := "error"; rm_id := Some (-1); rm_result := VUndefined;
     rm_error := Some (serializeError error) |}.

End WorkerScript.

(* ================================================================== *)
(** ** MathModuleBridge.ts: initialisation of the factory *)
(* ================================================================== *)

Module MathModuleFactory.
Import MathModuleBridge.

(** What the factory meets when it loads the implementations: whether
    the dynamic import of the file of a class (and the construction of
    its instance) succeeds, and what [CppMathModule.isAvailable()]
    resolves to ([None]: it throws).  The instance of a class is the
    [MathModule] whose [implementation] is the kind of the class. *)
Record Loader := {
  imports : MathModuleType -> bool;
  cppIsAvailable : option bool;
}.

(** The classes that define the optional member [isAvailable]:
    CppMathModule does; TypeScriptMathModule, PythonMathModule (which has
    [isServerRunning] instead) and FortranMathModule do not. *)
Definition definesIsAvailable (class : MathModuleType) : bool :=
  match class with
  | CPP => true
  | TYPESCRIPT | PYTHON | FORTRAN => false
  end.

(** [createTypeScriptModule]; [None]: the promise is rejected. *)
Definition createTypeScriptModule (l : Loader) : option MathModule :=
  if imports l TYPESCRIPT then Some {| implementation := TYPESCRIPT |} else None.

(** [createCppModule], [createPythonModule] and [createFortranModule]:
    the instance of the class, or the TypeScript module when the import
    fails. *)
Definition createModule (l : Loader) (kind : MathModuleType) : option MathModule :=
  if imports l kind then Some {| implementation := kind |}
  else createTypeScriptModule l.

(** [module.isAvailable && await module.isAvailable()], inside the [try]
    of [initializeModules]: an exception counts as not available. *)
Definition isAvailable (l : Loader) (module : MathModule) : bool :=
  definesIsAvailable (implementation module)
  && match implementation module with
     | CPP => match cppIsAvailable l with Some b => b | None => false end
     | _ => false
     end.

Definition set_instances (v : gmap MathModuleType MathModule) (fa : Factory) : Factory :=
  {| instances := v; activeType := activeType fa |}.

Definition set_activeType (v : MathModuleType) (fa : Factory) : Factory :=
  {| instances := instances fa; activeType := v |}.

(** One of the three blocks "try to initialize the ... module". *)
Definition tryModule (l : Loader) (kind : MathModuleType) (fa : Factory) : Factory :=
  match createModule l kind with
  | Some module =>
      if isAvailable l module
      then set_instances (<[kind := module]> (instances fa)) fa
      else fa
  | None => fa
  end.

(** [initializeModules]; [None]: the promise is rejected, which happens
    when the TypeScript implementation cannot be created, before
    anything is registered. *)
Definition initializeModules (l : Loader) (fa : Factory) : option Factory :=
  match createTypeScriptModule l with
  | None => None
  | Some tsModule =>
      let fa := set_instances (<[TYPESCRIPT := tsModule]> (instances fa)) fa in
      let fa := tryModule l CPP fa in
      let fa := tryModule l PYTHON fa in
      let fa := tryModule l FORTRAN fa in
      Some (set_activeType (getBestAvailableType fa) fa)
  end.

(** The static fields of [MathModuleFactory].  A call of [initialize]
    that finds [isInitializing] set returns the promise of the call in
    progress, and every method that changes the fields awaits
    [initialize] first: the initialisation is embedded as one step. *)
Record State := {
  factory : Factory;
  isInitialized : bool;
}.

(** The fields when the file is loaded. *)
Definition initial : State :=
  {| factory := {| instances := ∅; activeType := TYPESCRIPT |};
     isInitialized := false |}.

(** [initialize]; the boolean tells whether the promise is fulfilled. *)
Definition initialize (l : Loader) (s : State) : State * bool :=
  if isInitialized s then (s, true)
  else
    match initializeModules l (factory s) with
    | Some fa => ({| factory := fa; isInitialized := true |}, true)
    | None => (s, false)
    end.

(** The result of a method that awaits [initialize]. *)
Inductive Result (A : Type) :=
| Rejects
| Fulfils (value : A).
Arguments Rejects {A}.
Arguments Fulfils {A} value.

(** [getModule(type)]; the value is [this.instances.get(type)], which is
    [undefined] ([None]) for a kind that is not registered. *)
Definition getModule (l : Loader) (type : MathModuleType) (s : State)
  : State * Result (option MathModule) :=
  let '(s, ok) := initialize l s in
  if ok then
    let type := if has (factory s) type then type else activeType (factory s) in
    (s, Fulfils (instances (factory s) !! type))
  else (s, Rejects).

(** [setActiveType(type)]. *)
Definition setActiveType (l : Loader) (type : MathModuleType) (s : State)
  : State * Result bool :=
  let '(s, ok) := initialize l s in
  if ok then
    if has (factory s) type
    then ({| factory := set_activeType type (factory s);
             isInitialized := isInitialized s |}, Fulfils true)
    else (s, Fulfils false)
  else (s, Rejects).

Definition getCurrentType (s : State) : MathModuleType := activeType (factory s).

(** [isModuleAvailable(type)]. *)
Definition isModuleAvailable (l : Loader) (type : MathModuleType) (s : State)
  : State * Result bool :=
  let '(s, ok) := initialize l s in
  if ok then (s, Fulfils (has (factory s) type)) else (s, Rejects).

(** [benchmarkAndSelectBest], with the wait for [initialize] in front. *)
Definition benchmark (l : Loader) (results : Results) (s : State)
  : State * Result MathModuleType :=
  let '(s, ok) := initialize l s in
  if ok then
    let '(fa, best) := benchmarkAndSelectBest results (factory s) in
    ({| factory := fa; isInitialized := isInitialized s |}, Fulfils best)
  else (s, Rejects).

(** The calls a user of the factory can make. *)
Inductive Call :=
| Initialize (l : Loader)
| GetModule (l : Loader) (type : MathModuleType)
| SetActiveType (l : Loader) (type : MathModuleType)
| IsModuleAvailable (l : Loader) (type : MathModuleType)
| Benchmark (l : Loader) (results : Results).

Definition step (s : State) (c : Call) : State :=
  match c with
  | Initialize l => fst (initialize l s)
  | GetModule l type => fst (getModule l type s)
  | SetActiveType l type => fst (setActiveType l type s)
  | IsModuleAvailable l type => fst (isModuleAvailable l type s)
  | Benchmark l results => fst (benchmark l results s)
  end.

Definition run (calls : list Call) : State := foldl step initial calls.

(** What a block "try to initialize" registers: the C++ module when its
    class loads and says it is available, nothing for the other kinds. *)
Definition registers (l : Loader) (kind : MathModuleType) : bool :=
  match kind with
  | CPP => imports l CPP && bool_decide (cppIsAvailable l = Some true)
  | _ => false
  end.

(** The fields of an initialised factory: TypeScript is registered, the
    Python and Fortran kinds are not, every registered module is the
    instance of its own class, and the active kind is registered. *)
Record Ready (fa : Factory) : Prop := {
  ready_typescript : has fa TYPESCRIPT = true;
  ready_python : has fa PYTHON = false;
  ready_fortran : has fa FORTRAN = false;
  ready_classes :
    forall t module, instances fa !! t = Some module -> implementation module = t;
  ready_active : has fa (activeType fa) = true;
}.

Definition Invariant (s : State) : Prop :=
  if isInitialized s then Ready (factory s) else s = initial.

End MathModuleFactory.

(* ================================================================== *)
(** ** TypeScriptMathModule.ts: the reference implementation *)
(* ================================================================== *)

Module TypeScriptMathModule.
Import ThreadPool.
Local Open Scope float_scope.

(** [generateBezierCurve(p0, p1, p2, p3, numPoints)]; the body of its
    loop is the formula of [bezierPoint]. *)
Definition generateBezierCurve (p0 p1 p2 p3 : Point) (numPoints : nat) : list Point :=
  List.map
    (fun i => bezierPoint p0 p1 p2 p3 (JS.of_nat i / (JS.of_nat numPoints - 1)))
    (seq 0 numPoints).

(** The [options] of [simulatePhysicsMovement]: any member may be
    missing, and the destructuring gives it its default. *)
Record PhysicsInput := {
  mass : option float;
  springConstant : option float;
  dampingFactor : option float;
  timeStep : option float;
  maxSteps : option Z;
  stoppingThreshold : option float;
}.

(** [position] and [velocity]. *)
Record Body := { position : Point; velocity : Point }.

(** One turn of the loop of [simulatePhysicsMovement]: the new state,
    and whether the loop breaks after the new position was pushed. *)
Definition advance (mass springConstant dampingFactor timeStep stoppingThreshold : float)
    (end_ : Point) (b : Body) : Body * bool :=
  let dx := x end_ - x (position b) in
  let dy := y end_ - y (position b) in
  let ax := (springConstant * dx - dampingFactor * x (velocity b)) / mass in
  let ay := (springConstant * dy - dampingFactor * y (velocity b)) / mass in
  let vx := x (velocity b) + ax * timeStep in
  let vy := y (velocity b) + ay * timeStep in
  let px := x (position b) + vx * timeStep in
  let py := y (position b) + vy * timeStep in
  let distance := sqrt (dx * dx + dy * dy) in
  let speed := sqrt (vx * vx + vy * vy) in
  ({| position := {| x := px; y := py |}; velocity := {| x := vx; y := vy |} |},
   (distance <? stoppingThreshold) && (speed <? stoppingThreshold)).

(** The points pushed by the loop when [steps] turns are left. *)
Fixpoint simulate (steps : nat)
    (mass springConstant dampingFactor timeStep stoppingThreshold : float)
    (end_ : Point) (b : Body) : list Point :=
  match steps with
  | O => []
  | S steps =>
      let '(b, stop) :=
        advance mass springConstant dampingFactor timeStep stoppingThreshold end_ b in
      position b ::
        (if stop then []
         else simulate steps mass springConstant dampingFactor timeStep
                stoppingThreshold end_ b)
  end.

(** [simulatePhysicsMovement(start, end, options)]. *)
Definition simulatePhysicsMovement (start end_ : Point) (options : PhysicsInput)
  : list Point :=
  let mass := default 1 (mass options) in
  let springConstant := default 8 (springConstant options) in
  let dampingFactor := default 0.7 (dampingFactor options) in
  let timeStep := default 0.016 (timeStep options) in
  let maxSteps := default 1000%Z (maxSteps options) in
  let stoppingThreshold := default 0.1 (stoppingThreshold options) in
  {| x := x start; y := y start |} ::
    simulate (Z.to_nat maxSteps) mass springConstant dampingFactor timeStep
      stoppingThreshold end_
      {| position := {| x := x start; y := y start |};
         velocity := {| x := 0; y := 0 |} |}.

(** [generateTimeValues(numPoints, velocityProfile)]: 0, then one value
    for each [i] with [1 <= i < numPoints - 1], then 1.  [pow] and [exp]
    are [Math.pow] and [Math.exp]. *)
Definition adjusted (pow : float -> float -> float) (exp : float -> float)
    (velocityProfile : string) (t : float) : float :=
  if String.eqb velocityProfile "minimum_jerk"
  then t * t * t * (10 - 15 * t + 6 * t * t)
  else if String.eqb velocityProfile "asymmetric"
  then pow t 1.8 / (pow t 1.8 + pow (1 - t) 2.2)
  else if String.eqb velocityProfile "sigmoid"
  then 1 / (1 + exp (-12 * (t - 0.5)))
  else t.

Definition generateTimeValues (pow : float -> float -> float) (exp : float -> float)
    (numPoints : Z) (velocityProfile : string) : list float :=
  [0]
  ++ List.map
       (fun i => adjusted pow exp velocityProfile (JS.of_nat i / JS.of_Z (numPoints - 1)))
       (seq 1 (Z.to_nat (numPoints - 2)))
  ++ [1].

(** What [generateOrnsteinUhlenbeckProcess] returns or throws. *)
Inductive Jitters :=
| JittersThrow (e : Error)
| JittersReturn (jitterX jitterY : list float).

(** The loop of [generateOrnsteinUhlenbeckProcess] from the index after
    the values [previousX] and [previousY], with [steps] turns left;
    [drawn] is the number of draws of [Math.random()] made before.
    [log], [cos] and [sin] are those of [Math]. *)
Fixpoint jitterLoop (log cos sin : float -> float) (mathRandom : nat -> float)
    (theta sigma dt : float) (steps drawn : nat) (previousX previousY : float)
  : list (float * float) :=
  match steps with
  | O => []
  | S steps =>
      let sqrtDt := sqrt dt in
      let u1 := mathRandom drawn in
      let u2 := mathRandom (S drawn) in
      let z1 := sqrt (-2 * log u1) * cos (2 * 3.141592653589793 * u2) in
      let z2 := sqrt (-2 * log u1) * sin (2 * 3.141592653589793 * u2) in
      let nextX := previousX * (1 - theta * dt) + sigma * sqrtDt * z1 in
      let nextY := previousY * (1 - theta * dt) + sigma * sqrtDt * z2 in
      (nextX, nextY)
      :: jitterLoop log cos sin mathRandom theta sigma dt steps (S (S drawn)) nextX nextY
  end.

(** [generateOrnsteinUhlenbeckProcess(points, theta, sigma, dt)].
    [Array(points)] throws a RangeError for a negative length and for
    [2^32] or more; the assignments to the index 0 make both arrays at
    least one long. *)
Definition generateOrnsteinUhlenbeckProcess (log cos sin : float -> float)
    (mathRandom : nat -> float) (points : Z) (theta sigma dt : float) : Jitters :=
  if ((points <? 0) || (4294967296 <=? points))%Z
  then JittersThrow (Thrown "RangeError: Invalid array length")
  else
    let rest :=
      jitterLoop log cos sin mathRandom theta sigma dt (Z.to_nat (points - 1)) 0 0 0 in
    JittersReturn (0 :: List.map fst rest) (0 :: List.map snd rest).

End TypeScriptMathModule.

(* ================================================================== *)
(** ** OUProcess.ts *)
(* ================================================================== *)

Module OUProcess.
Local Open Scope float_scope.

Record OUParameters := { theta : float; mu : float; sigma : float; dt : float }.

(** [Partial<OUParameters>]. *)
Record PartialParameters := {
  theta' : option float;
  mu' : option float;
  sigma' : option float;
  dt' : option float;
}.

Definition DEFAULT_TREMOR_PARAMETERS : OUParameters :=
  {| theta := 0.7; mu := 0; sigma := 0.3; dt := 0.1 |}.

(** [{ ...base, ...params }]. *)
Definition merge (base : OUParameters) (params : PartialParameters) : OUParameters :=
  {| theta := default (theta base) (theta' params);
     mu := default (mu base) (mu' params);
     sigma := default (sigma base) (sigma' params);
     dt := default (dt base) (dt' params) |}.

(** The fields of an [OUProcess]; [drawn] counts the calls of its
    [random] function made so far. *)
Record Process := {
  currentValue : float;
  params : OUParameters;
  drawn : nat;
}.

(** [new OUProcess(params, initialValue, randomFn)]. *)
Definition construct (params : PartialParameters) (initialValue : option float)
  : Process :=
  let merged := merge DEFAULT_TREMOR_PARAMETERS params in
  {| currentValue := default (mu merged) initialValue;
     params := merged;
     drawn := 0 |}.

(** [normalRandom()], with the two draws it makes; [log] and [cos] are
    those of [Math]. *)
Definition normalRandom (log cos : float -> float) (random : nat -> float) (drawn : nat)
  : float :=
  let u1 := 1 - random drawn in
  let u2 := random (S drawn) in
  sqrt (-2 * log u1) * cos (2 * 3.141592653589793 * u2).

(** [next()]: the process afterwards and the value returned. *)
Definition next (log cos : float -> float) (random : nat -> float) (p : Process)
  : Process * float :=
  let drift := theta (params p) * (mu (params p) - currentValue p) * dt (params p) in
  let diffusion :=
    sigma (params p) * normalRandom log cos random (drawn p) * sqrt (dt (params p)) in
  let value := currentValue p + (drift + diffusion) in
  ({| currentValue := value; params := params p; drawn := S (S (drawn p)) |}, value).

(** The loop of [nextN]. *)
Fixpoint nextLoop (log cos : float -> float) (random : nat -> float) (steps : nat)
    (p : Process) : Process * list float :=
  match steps with
  | O => (p, [])
  | S steps =>
      let '(p, value) := next log cos random p in
      let '(p, values) := nextLoop log cos random steps p in
      (p, value :: values)
  end.

(** [nextN(steps)]. *)
Definition nextN (log cos : float -> float) (random : nat -> float) (steps : Z)
    (p : Process) : Process * list float :=
  nextLoop log cos random (Z.to_nat steps) p.

(** [reset(value)]. *)
Definition reset (value : option float) (p : Process) : Process :=
  {| currentValue := default (mu (params p)) value;
     params := params p; drawn := drawn p |}.

Definition getValue (p : Process) : float := currentValue p.

(** [updateParameters(params)]. *)
Definition updateParameters (params : PartialParameters) (p : Process) : Process :=
  {| currentValue := currentValue p;
     params := merge (OUProcess.params p) params; drawn := drawn p |}.

Local Close Scope float_scope.

End OUProcess.

(* ================================================================== *)
(** ** The threading index: [parallelMap] and [parallelChunk] *)
(* ================================================================== *)

Module Threading.
Import ThreadPool.

(** The task [parallelMap] makes for an item is the closure
    [() => fn(item)]; what reaches [scheduleTask], and then the worker,
    is its text, with no argument. *)
Definition itemTask : TaskFunction := CallerFunction "() => fn(item)".

(** [tasks.map(task => globalThreadPool.scheduleTask(task))] for [n]
    tasks. *)
Fixpoint scheduleTasks (n : nat) (st : Pool) : Pool * list PromiseRef :=
  match n with
  | O => (st, [])
  | S n =>
      let '(st, p) := scheduleTask itemTask [] None st in
      let '(st, ps) := scheduleTasks n st in
      (st, p :: ps)
  end.

(** [parallelMap(fn, items)] on the global pool, up to its
    [Promise.all]. *)
Definition parallelMap {T} (items : list T) (st : Pool) : Pool * Dispatch :=
  match items with
  | [] => (st, Returns [])
  | _ :: _ =>
      let '(st, promises) := scheduleTasks (length items) st in
      (st, Awaits promises)
  end.

(** The chunks made by the loop of [parallelChunk]; with a chunk size of
    zero or less the loop does not end ([None]). *)
Definition chunks {T} (items : list T) (chunkSize : Z) : option (list (list T)) :=
  if chunkSize <=? 0 then None
  else
    let size := Z.to_nat chunkSize in
    Some (List.map (fun i => slice i (i + size) items)
            (batchOffsets (length items) size)).

(** [parallelChunk(items, fn, chunkSize)], up to the [await]; [None]:
    the call does not return. *)
Definition parallelChunk {T} (items : list T) (chunkSize : Z) (st : Pool)
  : option (Pool * Dispatch) :=
  match items with
  | [] => Some (st, Returns [])
  | _ :: _ =>
      match chunks items chunkSize with
      | Some cs => Some (parallelMap cs st)
      | None => None
      end
  end.

End Threading.

(* ================================================================== *)
(** ** BezierPathGenerator.ts: a curve computed on the thread pool *)
(* ================================================================== *)

Module BezierPathGenerator.
Import ThreadPool.
Local Open Scope float_scope.

(** [generateBezierCurveInternal(p0, p1, p2, p3, numPoints)]. *)
Definition generateBezierCurveInternal (p0 p1 p2 p3 : Point) (numPoints : nat)
  : list Point :=
  List.map
    (fun i => bezierPoint p0 p1 p2 p3 (JS.of_nat i / (JS.of_nat numPoints - 1)))
    (seq 0 numPoints).

(** The task function [generateBezierPoints] of
    [generateBezierCurveWithThreadPool]: the points of the indices from
    [start] to [end], both included.  It refers to its parameter only. *)
Definition generateBezierPoints (start end_ : Z) (numPoints : nat)
    (p0 p1 p2 p3 : Point) : list Point :=
  List.map
    (fun k =>
       bezierPoint p0 p1 p2 p3
         (JS.of_Z (start + Z.of_nat k) / (JS.of_nat numPoints - 1)))
    (seq 0 (Z.to_nat (end_ - start + 1))).

Local Close Scope float_scope.

(** [Math.max(1, poolInfo.totalThreads)]. *)
Definition numThreads (totalThreads : Z) : nat := Z.to_nat (Z.max 1 totalThreads).

(** The [start] and [end] of the tasks made by the loop over the
    threads: thread [i] gets the indices from [i * pointsPerThread] to
    [min((i + 1) * pointsPerThread - 1, numPoints - 1)], and no task
    when that range is empty. *)
Definition ranges (numPoints numThreads : nat) : list (Z * Z) :=
  let pointsPerThread := ceilDiv numPoints numThreads in
  List.filter (fun r => fst r <=? snd r)
    (List.map
       (fun i =>
          (Z.of_nat (i * pointsPerThread),
           Z.min (Z.of_nat ((i + 1) * pointsPerThread) - 1) (Z.of_nat numPoints - 1)))
       (seq 0 numThreads)).

(** [path] after the loop that pushes the partial paths in the order of
    the tasks and before it is sorted, when every task was answered with
    what [generateBezierPoints] returns. *)
Definition collectedPath (p0 p1 p2 p3 : Point) (numPoints numThreads : nat)
  : list Point :=
  concat
    (List.map (fun r => generateBezierPoints (fst r) (snd r) numPoints p0 p1 p2 p3)
       (ranges numPoints numThreads)).

End BezierPathGenerator.


(* ================================================================== *)
(** * Properties *)
(* ================================================================== *)

(** ** Backend selection *)

Module BackendSelection.
Import MathModuleBridge.

Lemma Qgtb_true a b : Qgtb a b = true <-> (b < a)%Q.
Proof.
  unfold Qgtb. rewrite negb_true_iff.
  destruct (Qle_bool a b) eqn:E.
  - apply Qle_bool_iff in E. split; [discriminate | intros; lra].
  - split; [intros _ | done].
    apply Qnot_le_lt. intros H. apply Qle_bool_iff in H. congruence.
Qed.

Lemma Qgtb_false a b : Qgtb a b = false <-> (a <= b)%Q.
Proof.
  unfold Qgtb. rewrite negb_false_iff. apply Qle_bool_iff.
Qed.

Lemma getBestAvailableType_find fa :
  getBestAvailableType fa = default TYPESCRIPT (firstRegistered fa preferredOrder).
Proof.
  unfold getBestAvailableType, firstRegistered, preferredOrder. simpl.
  destruct (has fa CPP), (has fa PYTHON), (has fa FORTRAN), (has fa TYPESCRIPT);
    reflexivity.
Qed.

Lemma benchmarkAndSelectBest_selectBest results fa :
  snd (benchmarkAndSelectBest results fa) = selectBest fa results.
Proof.
  unfold benchmarkAndSelectBest, selectBest, entries, better, enumValues.
  cbn [List.filter List.fold_left List.map fst snd].
  destruct (Qgtb (results TYPESCRIPT) (results TYPESCRIPT)) eqn:E0.
  { apply Qgtb_true in E0. lra. }
  cbn [andb].
  destruct (has fa TYPESCRIPT), (has fa CPP), (has fa PYTHON), (has fa FORTRAN);
    rewrite ?andb_false_r; reflexivity.
Qed.

(** C7, as stated, fails: with the TypeScript and C++ backends registered
    and equal scores, the benchmark keeps TypeScript as the active kind,
    although C++ comes first in the preference order (which is what
    [getBestAvailableType] returns). *)
Lemma benchmark_tie_keeps_typescript :
  has (registry [TYPESCRIPT; CPP]) CPP = true
  /\ has (registry [TYPESCRIPT; CPP]) TYPESCRIPT = true
  /\ (rank preferredOrder CPP < rank preferredOrder TYPESCRIPT)%nat
  /\ getBestAvailableType (registry [TYPESCRIPT; CPP]) = CPP
  /\ snd (benchmarkAndSelectBest (fun _ => 5%Q) (registry [TYPESCRIPT; CPP]))
     = TYPESCRIPT
  /\ activeType (fst (benchmarkAndSelectBest (fun _ => 5%Q) (registry [TYPESCRIPT; CPP])))
     = TYPESCRIPT.
Proof. repeat split; try (vm_compute; reflexivity). vm_compute. lia. Qed.

(** C7 (amended): [getBestAvailableType] returns the first registered
    kind in the order C++, Fortran, Python, TypeScript.
    [benchmarkAndSelectBest] does not use that order: it returns, and
    makes active, a kind with the highest score among TypeScript and the
    registered kinds, and among kinds of equal highest score the first in
    the order TypeScript, C++, Python, Fortran, because a kind replaces
    the current best only with a strictly higher score and the scan
    starts from TypeScript. *)
Theorem selection_order (fa : Factory) (results : Results) :
  getBestAvailableType fa
    = default TYPESCRIPT (List.find (has fa) [CPP; FORTRAN; PYTHON; TYPESCRIPT])
  /\ (forall t, has fa t = true ->
        has fa (getBestAvailableType fa) = true /\
        (rank preferredOrder (getBestAvailableType fa) <= rank preferredOrder t)%nat)
  /\ (let best := snd (benchmarkAndSelectBest results fa) in
      (List.filter (has fa) enumValues <> [TYPESCRIPT] ->
         activeType (fst (benchmarkAndSelectBest results fa)) = best)
      /\ (best = TYPESCRIPT \/ has fa best = true)
      /\ (forall u, u = TYPESCRIPT \/ has fa u = true -> (results u <= results best)%Q)
      /\ (forall u, u = TYPESCRIPT \/ has fa u = true ->
            (results u == results best)%Q ->
            (rank enumValues best <= rank enumValues u)%nat)).
Proof.
  split; [apply getBestAvailableType_find |].
  split.
  - intros t Ht. rewrite getBestAvailableType_find.
    unfold firstRegistered, preferredOrder. simpl.
    destruct t; rewrite ?Ht;
      destruct (has fa CPP) eqn:?, (has fa FORTRAN) eqn:?, (has fa PYTHON) eqn:?,
               (has fa TYPESCRIPT) eqn:?; simpl; try done; split; try done;
      try (compute; lia).
  - cbv zeta. split.
    { intros Hmore. rewrite benchmarkAndSelectBest_selectBest.
      unfold benchmarkAndSelectBest.
      destruct (List.filter (has fa) enumValues) as [| [] [|]]; try reflexivity.
      done. }
    rewrite benchmarkAndSelectBest_selectBest.
    unfold selectBest, entries, better, enumValues.
    cbn [List.fold_left List.map fst snd].
    destruct (Qgtb (results TYPESCRIPT) (results TYPESCRIPT)) eqn:E0.
    { apply Qgtb_true in E0. lra. }
    clear E0. cbn [andb fst snd].
    destruct (has fa CPP) eqn:Hc, (has fa PYTHON) eqn:Hp, (has fa FORTRAN) eqn:Hf;
      rewrite ?andb_true_r, ?andb_false_r; cbn [fst snd].
    all: repeat match goal with
         | |- context [Qgtb (?f ?a) (?g ?b)] =>
             lazymatch a with
             | TYPESCRIPT => idtac | CPP => idtac | PYTHON => idtac | FORTRAN => idtac
             end;
             lazymatch b with
             | TYPESCRIPT => idtac | CPP => idtac | PYTHON => idtac | FORTRAN => idtac
             end;
             let E := fresh "E" in
             destruct (Qgtb (f a) (g b)) eqn:E;
             [apply Qgtb_true in E | apply Qgtb_false in E]; cbn [fst snd]
         end.
    all: (split; [auto |]); split.
    all: try (intros [] [?|?]; try congruence; lra).
    all: intros [] [?|?] ?; try congruence; try (vm_compute; lia); exfalso; lra.
Qed.
End BackendSelection.

(** ** The scheduler *)

Module Scheduler.

Import ThreadPool.

Lemma Consistent_books st st' :
  books st' = books st -> Consistent st -> Consistent st'.
Proof.
  unfold books. intros [= Hq Ht Hc Hn Hm] [].
  constructor; rewrite ?Hq, ?Ht, ?Hc, ?Hn, ?Hm; assumption.
Qed.

Lemma settle_Consistent id s st :
  Consistent st -> is_Some (taskQueue st !! id) -> s <> Rejected ShuttingDown ->
  Consistent (settle id s st).
Proof.
  intros [Hnamed Halloc Hguard Hbound Hcalloc Honce Hfinal Htimer Horder] Hin Hs.
  assert (Hfresh : forall c, c ∈ calls st -> task c <> id).
  { intros c Hc Heq. apply Hfinal in Hc. rewrite Heq in Hc.
    rewrite Hc in Hin. by destruct Hin as [? [=]]. }
  constructor; unfold settle, invoke, clearTimeout; cbn.
  - intros i tp Hi. apply lookup_delete_Some in Hi as [_ Hi]. eauto.
  - intros i Hi. apply Halloc.
    destruct Hi as [tp Hi]. apply lookup_delete_Some in Hi as [_ Hi]. eauto.
  - intros i. rewrite elem_of_difference, elem_of_singleton, Hguard.
    split.
    + intros [[tp Hi] Hne]. exists tp. by rewrite lookup_delete_ne.
    + intros [tp Hi]. apply lookup_delete_Some in Hi as [Hne Hi]. split; eauto.
  - destruct Hin as [tp Hin]. rewrite map_size_delete, Hin. lia.
  - intros c Hc. apply elem_of_app in Hc as [Hc | Hc]; [eauto |].
    apply list_elem_of_singleton in Hc as ->. cbn. eauto.
  - rewrite fmap_app. apply NoDup_app. split; [assumption |]. split.
    + intros i Hi Hi'. cbn in Hi'. apply list_elem_of_singleton in Hi' as ->.
      apply list_elem_of_fmap in Hi as (c & -> & Hc). by eapply Hfresh.
    + cbn. apply NoDup_singleton.
  - intros c Hc. apply elem_of_app in Hc as [Hc | Hc].
    + apply lookup_delete_None. right. eauto.
    + apply list_elem_of_singleton in Hc as ->. cbn. apply lookup_delete_eq.
  - intros c Hc. apply elem_of_app in Hc as [Hc | Hc]; [eauto |].
    apply list_elem_of_singleton in Hc as ->. cbn.
    apply bool_decide_eq_false. rewrite elem_of_difference, elem_of_singleton. tauto.
  - intros c Hc. apply elem_of_app in Hc as [Hc | Hc]; [eauto |].
    apply list_elem_of_singleton in Hc as ->. cbn.
    rewrite lookup_delete_eq. split; [| done].
    intros [? [=]]%bool_decide_eq_true.
Qed.

Lemma handleWorkerMessage_settle message id st :
  Consistent st ->
  rm_type message = "result" -> rm_id message = Some id ->
  is_Some (taskQueue st !! id) ->
  handleWorkerMessage message st = settle id (messageSettlement message) st.
Proof.
  intros Hst Hty Hid [tp Htp].
  destruct (entries_named _ Hst _ _ Htp) as [Hp Ht].
  unfold handleWorkerMessage, messageSettlement, settle.
  rewrite Hty, Hid. cbn. rewrite Htp.
  unfold clearEntryTimeout, resolve, reject. rewrite Ht, Hp. cbn.
  destruct (rm_error message) as [e |]; [destruct (truthy e) |]; reflexivity.
Qed.

Lemma messageSettlement_not_shutdown message :
  messageSettlement message <> Rejected ShuttingDown.
Proof.
  unfold messageSettlement.
  destruct (rm_error message) as [e |]; [destruct (truthy e) |]; discriminate.
Qed.

Lemma handleWorkerMessage_dropped message st :
  (forall id, rm_type message = "result" -> rm_id message = Some id ->
     taskQueue st !! id = None) ->
  exists text, handleWorkerMessage message st = warn text st.
Proof.
  intros Hnone. unfold handleWorkerMessage.
  destruct (String.eqb (rm_type message) "result") eqn:Hty; [| eauto].
  apply String.eqb_eq in Hty.
  destruct (rm_id message) as [id |] eqn:Hid; [| eauto].
  rewrite (Hnone id Hty eq_refl). eauto.
Qed.

Lemma timerFires_settle id st :
  Consistent st -> id ∈ timers st ->
  timerFires id st = settle id (Rejected (TimedOut id (taskTimeout st))) st.
Proof.
  intros Hst Hin. unfold timerFires, timeoutHandler, settle.
  rewrite bool_decide_eq_true_2 by done. cbn.
  apply (timers_guard _ Hst) in Hin as [tp Htp]. rewrite Htp.
  destruct (entries_named _ Hst _ _ Htp) as [Hp Ht].
  unfold reject. rewrite Hp. reflexivity.
Qed.

Lemma timerFires_dead id st : id ∉ timers st -> timerFires id st = st.
Proof. intros Hin. unfold timerFires. by rewrite bool_decide_eq_false_2. Qed.

Lemma allocate_Consistent st :
  Consistent st -> Z.of_nat (size (taskQueue st)) < maxQueueSize st ->
  Consistent (allocate st).
Proof.
  intros [Hnamed Halloc Hguard Hbound Hcalloc Honce Hfinal Htimer Horder] Hroom.
  assert (Hnew : taskQueue st !! nextTaskId st = None).
  { destruct (taskQueue st !! nextTaskId st) eqn:E; [| done].
    specialize (Halloc _ (ex_intro _ _ E)). lia. }
  constructor; unfold allocate, setTimeout; cbn.
  - intros i tp Hi. apply lookup_insert_Some in Hi as [[<- <-] | [_ Hi]]; eauto.
  - intros i [tp Hi]. apply lookup_insert_Some in Hi as [[<- <-] | [_ Hi]]; [lia |].
    specialize (Halloc i (ex_intro _ tp Hi)). lia.
  - intros i. rewrite elem_of_union, elem_of_singleton, Hguard.
    split.
    + intros [-> | [tp Hi]]; [by rewrite lookup_insert_eq |].
      destruct (decide (nextTaskId st = i)) as [-> | Hne];
        [by rewrite lookup_insert_eq | rewrite lookup_insert_ne by done; eauto].
    + intros [tp Hi]. apply lookup_insert_Some in Hi as [[<- <-] | [_ Hi]]; eauto.
  - rewrite map_size_insert_None by done. lia.
  - intros c Hc. specialize (Hcalloc c Hc). lia.
  - assumption.
  - intros c Hc. specialize (Hcalloc c Hc). rewrite lookup_insert_ne by lia. eauto.
  - assumption.
  - assumption.
Qed.

Lemma allocate_lookup st :
  is_Some (taskQueue (allocate st) !! nextTaskId st).
Proof. unfold allocate. cbn. rewrite lookup_insert_eq. eauto. Qed.

(** The ways [scheduleTask] can go. *)
Lemma scheduleTask_cases task args postThrows st :
  let res := scheduleTask task args postThrows st in
  (running st = false /\ res = (st, RejectedAtOnce NotRunning))
  \/ (running st = true /\ maxQueueSize st <= Z.of_nat (size (taskQueue st))
      /\ res = (st, RejectedAtOnce QueueFull))
  \/ (running st = true /\ Z.of_nat (size (taskQueue st)) < maxQueueSize st
      /\ exists error,
           error <> ShuttingDown
           /\ res = (settle (nextTaskId st) (Rejected error) (allocate st),
                     OfTask (nextTaskId st)))
  \/ (running st = true /\ Z.of_nat (size (taskQueue st)) < maxQueueSize st
      /\ postThrows = None
      /\ exists worker,
           workers st !! Z.to_nat (nextTaskId st mod Z.of_nat (length (workers st)))
             = Some worker
           /\ res = (postMessage worker
                       {| tm_id := nextTaskId st; tm_functionData := task;
                          tm_args := args |} (allocate st),
                     OfTask (nextTaskId st))).
Proof.
  cbv zeta. unfold scheduleTask.
  destruct (running st); cbn [negb]; [| by left].
  destruct (Z.leb_spec (maxQueueSize st) (Z.of_nat (size (taskQueue st))));
    [right; left; done |].
  right; right. cbn -[Z.modulo Z.to_nat].
  destruct (Nat.eqb_spec (length (workers st)) 0).
  { left. split; [done |]. split; [done |]. exists NoWorkers. done. }
  destruct (workers st !! _) as [w |] eqn:Hw.
  - destruct postThrows as [e |].
    + left. split; [done |]. split; [done |]. exists (Thrown e). done.
    + right. split; [done |]. split; [done |]. split; [done |]. eauto.
  - left. split; [done |]. split; [done |]. exists (Thrown "TypeError"). done.
Qed.

Lemma scheduleTask_Consistent task args postThrows st :
  Consistent st -> Consistent (fst (scheduleTask task args postThrows st)).
Proof.
  intros Hst.
  destruct (scheduleTask_cases task args postThrows st)
    as [[_ ->] | [(_ & _ & ->) | [(_ & Hroom & e & He & ->) | (_ & Hroom & _ & w & _ & ->)]]];
    cbn [fst].
  - done.
  - done.
  - apply settle_Consistent;
      [by apply allocate_Consistent | apply allocate_lookup | congruence].
  - eapply Consistent_books; [| by apply allocate_Consistent]. reflexivity.
Qed.

Lemma scheduleTask_posts fn args st :
  running st = true -> (1 <= length (workers st))%nat ->
  Z.of_nat (size (taskQueue st)) < maxQueueSize st ->
  exists worker,
    scheduleTask fn args None st
    = (postMessage worker
         {| tm_id := nextTaskId st; tm_functionData := fn; tm_args := args |}
         (allocate st),
       OfTask (nextTaskId st)).
Proof.
  intros Hrun Hw Hroom.
  unfold scheduleTask. rewrite Hrun. cbn [negb].
  rewrite (proj2 (Z.leb_gt _ _) Hroom). cbn -[Z.modulo Z.to_nat].
  destruct (Nat.eqb_spec (length (workers st)) 0); [lia |].
  destruct (workers st !! _) as [w |] eqn:Hl; [by exists w |].
  apply lookup_ge_None in Hl.
  pose proof (Z.mod_pos_bound (nextTaskId st) (Z.of_nat (length (workers st)))
                ltac:(lia)). lia.
Qed.

Lemma rejectPending_foldl (l : list (Z * Entry)) st :
  Forall named l ->
  foldl rejectPending st l =
    set_calls (calls st ++ (shutdownCall (taskQueue st) <$> l))
      (set_timers (timers st ∖ list_to_set (fst <$> l)) st).
Proof.
  revert st. induction l as [| [id tp] l IH]; intros st Hl.
  - cbn. rewrite app_nil_r, difference_empty_L. by destruct st.
  - apply Forall_cons in Hl as [[Hp Ht] Hl]. cbn in Hp, Ht.
    cbn [foldl]. rewrite IH by done.
    unfold rejectPending, clearEntryTimeout, reject, invoke, clearTimeout,
      set_calls, set_timers, shutdownCall.
    cbn. rewrite Ht, Hp. cbn.
    rewrite <- app_assoc. cbn.
    rewrite (bool_decide_eq_false_2 (id ∈ timers st ∖ {[id]})).
    + f_equal. apply difference_difference_l_L.
    + intros [_ Hne]%elem_of_difference. apply Hne. by apply elem_of_singleton.
Qed.

Lemma queue_entries_named st :
  Consistent st -> Forall named (map_to_list (taskQueue st)).
Proof.
  intros Hst. apply Forall_forall. intros [id tp] Hin.
  apply elem_of_map_to_list in Hin. apply (entries_named _ Hst) in Hin. done.
Qed.

Lemma shutdown_running st :
  Consistent st -> running st = true ->
  shutdown st =
    (set_workers []
       (set_terminated (terminated st ++ workers st)
          (set_taskQueue ∅
             (set_calls (calls st ++ (shutdownCall (taskQueue st) <$> map_to_list (taskQueue st)))
                (set_timers (timers st ∖ dom (taskQueue st))
                   (set_running false st))))),
     workers st).
Proof.
  intros Hst Hrun. unfold shutdown. rewrite Hrun. cbn [negb].
  cbn [taskQueue set_running].
  rewrite rejectPending_foldl by (by apply queue_entries_named).
  unfold terminateWorkers. cbn.
  replace (list_to_set (map_to_list (taskQueue st)).*1) with (dom (taskQueue st)); [done |].
  apply set_eq. intros i. rewrite elem_of_list_to_set, elem_of_dom.
  rewrite list_elem_of_fmap. split.
  - intros [tp Hi]. exists (i, tp). split; [done |]. by apply elem_of_map_to_list.
  - intros ([j tp] & -> & Hi). apply elem_of_map_to_list in Hi. eauto.
Qed.

Lemma shutdown_stopped st : running st = false -> shutdown st = (st, []).
Proof. intros H. unfold shutdown. by rewrite H. Qed.

Lemma shutdown_calls st :
  Consistent st ->
  forall c, c ∈ shutdownCall (taskQueue st) <$> map_to_list (taskQueue st) ->
    is_Some (taskQueue st !! task c) /\ settlement c = Rejected ShuttingDown
    /\ timerLive c = false /\ registered c = true.
Proof.
  intros Hst c (e & -> & He)%list_elem_of_fmap. destruct e as [id tp].
  apply elem_of_map_to_list in He.
  destruct (entries_named _ Hst _ _ He) as [Hp _].
  cbn. rewrite Hp. split; [eauto |]. split; [done |]. split; [done |].
  apply bool_decide_eq_true. eauto.
Qed.

Lemma shutdown_tasks st :
  Consistent st ->
  task <$> (shutdownCall (taskQueue st) <$> map_to_list (taskQueue st))
  = fst <$> map_to_list (taskQueue st).
Proof.
  intros Hst. rewrite <- list_fmap_compose. apply Forall_fmap_ext.
  apply Forall_forall. intros [id tp] He.
  apply elem_of_map_to_list in He.
  destruct (entries_named _ Hst _ _ He) as [Hp _]. done.
Qed.

Lemma shutdown_Consistent st : Consistent st -> Consistent (fst (shutdown st)).
Proof.
  intros Hst. destruct (running st) eqn:Hrun;
    [| by rewrite shutdown_stopped].
  rewrite shutdown_running by done. cbn [fst].
  pose proof (shutdown_calls st Hst) as Hnew.
  pose proof Hst as [Hnamed Halloc Hguard Hbound Hcalloc Honce Hfinal Htimer Horder].
  constructor; cbn.
  - intros i tp Hi. by rewrite lookup_empty in Hi.
  - intros i [tp Hi]. by rewrite lookup_empty in Hi.
  - intros i. rewrite elem_of_difference, elem_of_dom, Hguard, lookup_empty.
    split; [tauto | intros [? [=]]].
  - rewrite map_size_empty. lia.
  - intros c [Hc | Hc]%elem_of_app; [eauto |].
    apply Hnew in Hc as [Hc _]. eauto.
  - rewrite fmap_app. apply NoDup_app. split; [done |]. split.
    + intros i (c & -> & Hc)%list_elem_of_fmap (c' & Heq & Hc')%list_elem_of_fmap.
      apply Hfinal in Hc. apply Hnew in Hc' as [[tp Hc'] _].
      rewrite Heq in Hc. congruence.
    + rewrite shutdown_tasks by done. apply NoDup_fst_map_to_list.
  - intros c _. apply lookup_empty.
  - intros c [Hc | Hc]%elem_of_app; [eauto |]. by apply Hnew in Hc as (_ & _ & ? & _).
  - intros c [Hc | Hc]%elem_of_app; [eauto |].
    apply Hnew in Hc as (_ & -> & _ & ->). done.
Qed.

Lemma start_books st : books (fst (start st)) = books st.
Proof. unfold start. by destruct (running st). Qed.

Lemma createWorker_books id ok st : books (createWorker id ok st) = books st.
Proof. unfold createWorker. by destruct ok. Qed.

Lemma createWorkers_books ok st : books (createWorkers ok st) = books st.
Proof.
  unfold createWorkers. generalize (seq 0 (Z.to_nat (jsThreadCount st))) as l.
  intros l. revert st. induction l as [| i l IH]; intros st; [done |].
  cbn [foldl]. rewrite IH. apply createWorker_books.
Qed.

Lemma createWorkers_running ok st : running (createWorkers ok st) = running st.
Proof.
  unfold createWorkers. generalize (seq 0 (Z.to_nat (jsThreadCount st))) as l.
  intros l. revert st. induction l as [| i l IH]; intros st; [done |].
  cbn [foldl]. rewrite IH. unfold createWorker. by destruct (ok i).
Qed.

Lemma scheduleBatches_Consistent batches postThrows k st :
  Consistent st -> Consistent (fst (scheduleBatches batches postThrows k st)).
Proof.
  revert k st. induction batches as [| b batches IH]; intros k st Hst; [done |].
  cbn [scheduleBatches].
  pose proof (scheduleTask_Consistent ProcessBatch [ArgBatch b] (postThrows k) st Hst) as H1.
  destruct (scheduleTask _ _ _ st) as [st1 p]. cbn [fst] in H1.
  specialize (IH (S k) st1 H1).
  destruct (scheduleBatches batches postThrows (S k) st1) as [st2 ps]. done.
Qed.

Lemma bezierFallback_Consistent startPoints endPoints options postThrows st :
  Consistent st ->
  Consistent (fst (bezierFallback startPoints endPoints options postThrows st)).
Proof.
  intros Hst. unfold bezierFallback.
  pose proof (scheduleBatches_Consistent
    (makeBatches startPoints endPoints options
       (batchSize (length startPoints) (length (workers st)))) postThrows 0 st Hst) as H.
  destruct (scheduleBatches _ _ _ _) as [st1 ps]. done.
Qed.

Lemma generateBezierPaths_Consistent startPoints endPoints options mathRandom postThrows st :
  Consistent st ->
  Consistent (fst (generateBezierPaths startPoints endPoints options mathRandom postThrows st)).
Proof.
  intros Hst. unfold generateBezierPaths.
  destruct (running st); cbn [negb]; [| done].
  destruct (length startPoints =? length endPoints)%nat; cbn [negb]; [| done].
  destruct (length startPoints =? 0)%nat; [done |].
  destruct (nativePrimitive _ st) as [batch |];
    [| by apply bezierFallback_Consistent].
  destruct (batch _ _ _ _); [| eapply Consistent_books; [| exact Hst]; reflexivity].
  apply bezierFallback_Consistent. eapply Consistent_books; [| exact Hst]; reflexivity.
Qed.

Lemma simulatePhysicsMovements_books startPoints endPoints options mathRandom st :
  books (fst (simulatePhysicsMovements startPoints endPoints options mathRandom st))
  = books st.
Proof.
  unfold simulatePhysicsMovements.
  destruct (running st); cbn [negb]; [| done].
  destruct (length startPoints =? length endPoints)%nat; cbn [negb]; [| done].
  destruct (length startPoints =? 0)%nat; [done |].
  destruct (nativePrimitive _ st) as [batch |]; [| done].
  by destruct (batch _ _ _ _).
Qed.

Lemma step_Consistent st a : Consistent st -> Consistent (step st a).
Proof.
  intros Hst.
  destruct a as [fn args pt | message | taskId | | | ok | id ok | w
                | sp ep opt mr pt | sp ep opt mr]; cbn [step].
  - by apply scheduleTask_Consistent.
  - destruct (String.eqb (rm_type message) "result") eqn:Hty.
    + apply String.eqb_eq in Hty.
      destruct (rm_id message) as [id |] eqn:Hid.
      * destruct (taskQueue st !! id) as [tp |] eqn:Htp.
        -- rewrite (handleWorkerMessage_settle message id) by eauto.
           apply settle_Consistent; eauto using messageSettlement_not_shutdown.
        -- destruct (handleWorkerMessage_dropped message st) as [text ->].
           { intros i _ Hi. congruence. }
           eapply Consistent_books; [| exact Hst]; reflexivity.
      * destruct (handleWorkerMessage_dropped message st) as [text ->].
        { intros i _ Hi. congruence. }
        eapply Consistent_books; [| exact Hst]; reflexivity.
    + destruct (handleWorkerMessage_dropped message st) as [text ->].
      { intros i Hi. rewrite Hi in Hty. done. }
      eapply Consistent_books; [| exact Hst]; reflexivity.
  - destruct (decide (taskId ∈ timers st)) as [Hin | Hin].
    + rewrite timerFires_settle by done.
      apply settle_Consistent; [done | by apply (timers_guard _ Hst) | done].
    + by rewrite timerFires_dead.
  - by apply shutdown_Consistent.
  - eapply Consistent_books; [apply start_books | done].
  - eapply Consistent_books; [apply createWorkers_books | done].
  - eapply Consistent_books; [apply createWorker_books | done].
  - eapply Consistent_books; [| exact Hst]; reflexivity.
  - by apply generateBezierPaths_Consistent.
  - eapply Consistent_books; [apply simulatePhysicsMovements_books | done].
Qed.

Lemma construct_Consistent opts cpus native : Consistent (construct opts cpus native).
Proof.
  unfold construct, start. cbn.
  constructor; cbn.
  - intros i tp Hi. by rewrite lookup_empty in Hi.
  - intros i [tp Hi]. by rewrite lookup_empty in Hi.
  - intros i. rewrite lookup_empty, elem_of_empty. split; [done | intros [? [=]]].
  - rewrite map_size_empty. lia.
  - intros c Hc. by apply elem_of_nil in Hc.
  - constructor.
  - intros c Hc. by apply elem_of_nil in Hc.
  - intros c Hc. by apply elem_of_nil in Hc.
  - intros c Hc. by apply elem_of_nil in Hc.
Qed.

Lemma run_Consistent actions st : Consistent st -> Consistent (run actions st).
Proof.
  revert st. induction actions as [| a actions IH]; intros st Hst; [done |].
  cbn. apply IH. by apply step_Consistent.
Qed.

Lemma rejectPending_calls (l : list (Z * Entry)) st :
  calls st `prefix_of` calls (foldl rejectPending st l).
Proof.
  revert st. induction l as [| e l IH]; intros st; [done |].
  cbn [foldl]. etrans; [| apply IH].
  unfold rejectPending, clearEntryTimeout, reject, invoke.
  destruct (timeoutId (snd e)); cbn; by apply prefix_app_r.
Qed.

Lemma scheduleTask_calls fn args postThrows st :
  calls st `prefix_of` calls (fst (scheduleTask fn args postThrows st)).
Proof.
  destruct (scheduleTask_cases fn args postThrows st)
    as [[_ ->] | [(_ & _ & ->) | [(_ & _ & e & _ & ->) | (_ & _ & _ & w & _ & ->)]]];
    cbn; try done. by apply prefix_app_r.
Qed.

Lemma scheduleBatches_calls batches postThrows k st :
  calls st `prefix_of` calls (fst (scheduleBatches batches postThrows k st)).
Proof.
  revert k st. induction batches as [| b batches IH]; intros k st; [done |].
  cbn [scheduleBatches].
  pose proof (scheduleTask_calls ProcessBatch [ArgBatch b] (postThrows k) st) as H1.
  destruct (scheduleTask _ _ _ st) as [st1 p]. cbn [fst] in H1.
  specialize (IH (S k) st1).
  destruct (scheduleBatches batches postThrows (S k) st1) as [st2 ps].
  cbn [fst] in *. by etrans.
Qed.

Lemma step_calls st a : calls st `prefix_of` calls (step st a).
Proof.
  destruct a as [fn args pt | message | taskId | | | ok | id ok | w
                | sp ep opt mr pt | sp ep opt mr]; cbn [step].
  - apply scheduleTask_calls.
  - unfold handleWorkerMessage.
    destruct (if String.eqb _ _ then _ else _) as [id |]; [| done].
    destruct (taskQueue st !! id) as [tp |]; [| done].
    unfold clearEntryTimeout, resolve, reject, invoke.
    destruct (timeoutId tp), (rm_error message) as [e |];
      try destruct (truthy e); cbn; by apply prefix_app_r.
  - unfold timerFires, timeoutHandler. destruct (bool_decide _); [| done]. cbn.
    destruct (taskQueue st !! taskId); [| done]. cbn. by apply prefix_app_r.
  - unfold shutdown. destruct (running st); cbn [negb]; [| done].
    cbn. apply (rejectPending_calls _ (set_running false st)).
  - unfold start. by destruct (running st).
  - pose proof (createWorkers_books ok st) as [= _ _ -> _ _]. done.
  - pose proof (createWorker_books id ok st) as [= _ _ -> _ _]. done.
  - done.
  - unfold generateBezierPaths.
    destruct (running st); cbn [negb]; [| done].
    destruct (length sp =? length ep)%nat; cbn [negb]; [| done].
    destruct (length sp =? 0)%nat; [done |].
    unfold bezierFallback.
    destruct (nativePrimitive _ st) as [batch |].
    + destruct (batch _ _ _ _); [| done].
      match goal with
      | |- context [scheduleBatches ?bs ?pt ?k ?s] =>
          pose proof (scheduleBatches_calls bs pt k s) as H;
          destruct (scheduleBatches bs pt k s) as [st1 ps]
      end. done.
    + match goal with
      | |- context [scheduleBatches ?bs ?pt ?k ?s] =>
          pose proof (scheduleBatches_calls bs pt k s) as H;
          destruct (scheduleBatches bs pt k s) as [st1 ps]
      end. done.
  - pose proof (simulatePhysicsMovements_books sp ep opt mr st)
      as [= _ _ -> _ _]. done.
Qed.

Lemma run_calls actions st : calls st `prefix_of` calls (run actions st).
Proof.
  revert st. induction actions as [| a actions IH]; intros st; [done |].
  cbn. etrans; [apply step_calls | apply IH].
Qed.

Lemma run_app actions later st : run later (run actions st) = run (actions ++ later) st.
Proof. unfold run. by rewrite foldl_app. Qed.

Lemma reachable_Consistent opts cpus native actions :
  Consistent (run actions (construct opts cpus native)).
Proof. apply run_Consistent, construct_Consistent. Qed.

(** C1, as stated, fails at shutdown: the reject callback of a pending
    task is invoked while the task still has its entry in the registry;
    the registry is emptied after the loop over its entries. *)
Lemma shutdown_rejects_registered_entry :
  taskQueue onePending !! 0 = Some {| promise := 0; timeoutId := Some 0 |}
  /\ calls (fst (shutdown onePending))
     = [{| task := 0; settlement := Rejected ShuttingDown;
           registered := true; timerLive := false |}].
Proof. split; vm_compute; reflexivity. Qed.

(** C1 (amended): in every state the scheduler can reach, each task id
    has had at most one callback invoked and ids are not reused; a task
    whose callback was invoked has no entry left; on every path but
    shutdown the entry was removed before the callback was invoked, and
    at shutdown the callback is invoked first and the registry emptied
    next; a result message for an id without an entry only logs a
    warning, and so does, at any later time, a result message for an id
    whose callback was invoked. *)
Theorem resolution_at_most_once opts cpus native actions :
  let st := run actions (construct opts cpus native) in
  NoDup (task <$> calls st)
  /\ (forall c, c ∈ calls st ->
        task c < nextTaskId st
        /\ taskQueue st !! task c = None
        /\ (registered c = true <-> settlement c = Rejected ShuttingDown))
  /\ (forall fn args postThrows id,
        snd (scheduleTask fn args postThrows st) = OfTask id ->
        id = nextTaskId st /\ id ∉ task <$> calls st)
  /\ (forall message,
        (forall id, rm_type message = "result" -> rm_id message = Some id ->
           taskQueue st !! id = None) ->
        exists text, handleWorkerMessage message st = warn text st)
  /\ (forall c later message,
        c ∈ calls st -> rm_id message = Some (task c) ->
        exists text,
          handleWorkerMessage message (run later st) = warn text (run later st)).
Proof.
  intros st. pose proof (reachable_Consistent opts cpus native actions) as Hst.
  fold st in Hst.
  split; [apply (calls_once _ Hst) |]. split; [| split; [| split]].
  - intros c Hc. split; [by apply (calls_allocated _ Hst) |].
    split; [by apply (calls_final _ Hst) | by apply (calls_order _ Hst)].
  - intros fn args postThrows id Hid.
    assert (id = nextTaskId st) as ->.
    { destruct (scheduleTask_cases fn args postThrows st)
        as [[_ E] | [(_ & _ & E) | [(_ & _ & e & _ & E) | (_ & _ & _ & w & _ & E)]]];
        rewrite E in Hid; cbn in Hid; congruence. }
    split; [done |]. intros (c & Heq & Hc)%list_elem_of_fmap.
    apply (calls_allocated _ Hst) in Hc. lia.
  - intros message Hnone. by apply handleWorkerMessage_dropped.
  - intros c later message Hc Hid. apply handleWorkerMessage_dropped.
    intros id _ Hid'. assert (id = task c) as -> by congruence.
    unfold st. rewrite run_app.
    apply (calls_final _ (reachable_Consistent opts cpus native (actions ++ later))).
    rewrite <- run_app. eapply elem_of_prefix; [exact Hc | apply run_calls].
Qed.

(** C9, as stated, fails at shutdown: both pending tasks are rejected
    while their entries are still in the registry (their timers are
    cancelled first); the registry is emptied only after the loop. *)
Lemma shutdown_empties_registry_last :
  registered <$> calls (fst (shutdown twoPending)) = [true; true]
  /\ timerLive <$> calls (fst (shutdown twoPending)) = [false; false]
  /\ dom (taskQueue twoPending) = {[0; 1]}
  /\ taskQueue (fst (shutdown twoPending)) = ∅.
Proof. repeat split; vm_compute; reflexivity. Qed.

(** C9 (amended): in every state the scheduler can reach, between two
    operations, a task id has an entry in the registry exactly when its
    timer is live; whenever a callback was invoked the task's timer was
    already cancelled or had fired, and the task has neither an entry
    nor a live timer afterwards; every path but shutdown removed the
    entry before invoking the callback, while shutdown rejects the
    entries first and empties the registry after the loop. *)
Theorem registry_tracks_timers opts cpus native actions :
  let st := run actions (construct opts cpus native) in
  (forall id, id ∈ timers st <-> is_Some (taskQueue st !! id))
  /\ (forall c, c ∈ calls st ->
        timerLive c = false
        /\ taskQueue st !! task c = None
        /\ (task c ∉ timers st)
        /\ (registered c = false <-> settlement c <> Rejected ShuttingDown)).
Proof.
  intros st. pose proof (reachable_Consistent opts cpus native actions) as Hst.
  fold st in Hst.
  split; [apply (timers_guard _ Hst) |].
  intros c Hc. split; [by apply (calls_timer _ Hst) |].
  pose proof (calls_final _ Hst c Hc) as Hnone.
  split; [done |]. split.
  - rewrite (timers_guard _ Hst), Hnone. intros [? [=]].
  - pose proof (calls_order _ Hst c Hc) as Hord.
    destruct (registered c); split; intros H; try done.
    + exfalso. apply H. by apply Hord.
    + intros E. apply Hord in E. done.
Qed.

(** C4: [scheduleTask] on a pool that is not running rejects at once
    with "not running"; on a running pool whose registry has reached
    [maxQueueSize] it rejects at once with "queue full"; in both cases
    the state is returned as it was (no id allocated, no timer, registry
    unchanged).  Hence no reachable state has more entries than
    [maxQueueSize]; with a negative [maxQueueSize] every submission is
    refused and the registry stays empty. *)
Theorem scheduleTask_fails_fast (pool : Pool) opts cpus native actions fn args postThrows :
  (running pool = false ->
     scheduleTask fn args postThrows pool = (pool, RejectedAtOnce NotRunning))
  /\ (running pool = true ->
      maxQueueSize pool <= Z.of_nat (size (taskQueue pool)) ->
        scheduleTask fn args postThrows pool = (pool, RejectedAtOnce QueueFull))
  /\ (let st := run actions (construct opts cpus native) in
      (0 <= maxQueueSize st -> Z.of_nat (size (taskQueue st)) <= maxQueueSize st)
      /\ (maxQueueSize st < 0 -> taskQueue st = ∅)).
Proof.
  split; [| split].
  - intros Hrun. unfold scheduleTask. by rewrite Hrun.
  - intros Hrun Hfull. unfold scheduleTask. rewrite Hrun. cbn [negb].
    by rewrite (proj2 (Z.leb_le _ _) Hfull).
  - intros st. pose proof (reachable_Consistent opts cpus native actions) as Hst.
    fold st in Hst. pose proof (queue_bounded _ Hst) as Hb.
    split; [lia |]. intros Hneg. apply map_size_empty_iff. lia.
Qed.

Lemma allExited_spec awaited exited :
  allExited awaited exited = true <-> forall w, w ∈ awaited -> w ∈ exited.
Proof.
  unfold allExited. rewrite forallb_forall. split; intros H w Hw.
  - apply list_elem_of_In in Hw. apply H in Hw. by apply bool_decide_eq_true in Hw.
  - apply bool_decide_eq_true. apply H. by apply list_elem_of_In.
Qed.

(** C3: [shutdown] on a running pool clears the running flag, cancels
    the timer of every entry of the registry, rejects every entry with
    "shutting down", empties the registry, calls [terminate] on every
    worker and awaits the exit of each of them before it returns; on a
    pool that is not running it returns at once and leaves the state as
    it is, so a second call is a no-op. *)
Theorem shutdown_rejects_pending_and_terminates opts cpus native actions :
  let st := run actions (construct opts cpus native) in
  let st' := fst (shutdown st) in
  let awaited := snd (shutdown st) in
  (running st = true ->
     running st' = false
     /\ (exists rejections,
           calls st' = calls st ++ rejections
           /\ task <$> rejections = fst <$> map_to_list (taskQueue st)
           /\ Forall (fun c => settlement c = Rejected ShuttingDown) rejections)
     /\ (forall id, is_Some (taskQueue st !! id) -> id ∉ timers st')
     /\ timers st' = ∅
     /\ taskQueue st' = ∅
     /\ workers st' = []
     /\ terminated st' = terminated st ++ workers st
     /\ awaited = workers st
     /\ (forall exited,
           allExited awaited exited = true <-> forall w, w ∈ workers st -> w ∈ exited))
  /\ (running st = false -> shutdown st = (st, []))
  /\ shutdown st' = (st', []).
Proof.
  intros st st' awaited.
  pose proof (reachable_Consistent opts cpus native actions) as Hst. fold st in Hst.
  assert (Hstop : running st' = false).
  { unfold st'. destruct (running st) eqn:Hrun.
    - by rewrite shutdown_running.
    - by rewrite shutdown_stopped. }
  split; [| split].
  - intros Hrun. unfold st', awaited. rewrite shutdown_running by done. cbn.
    assert (Hempty : timers st ∖ dom (taskQueue st) = ∅).
    { apply set_eq. intros i.
      rewrite elem_of_difference, elem_of_dom, (timers_guard _ Hst), elem_of_empty.
      tauto. }
    split; [done |]. split.
    { eexists. split; [reflexivity |]. split; [by apply shutdown_tasks |].
      apply Forall_forall. intros c Hc. by apply (shutdown_calls st Hst) in Hc as (_ & ? & _). }
    split. { intros i _. rewrite Hempty. apply not_elem_of_empty. }
    split; [done |]. split; [done |]. split; [done |]. split; [done |].
    split; [done |]. intros exited. apply allExited_spec.
  - apply shutdown_stopped.
  - by apply shutdown_stopped.
Qed.

(** C10: the constructor starts the pool: a pool just constructed is
    running, so [scheduleTask] is not refused as "not running" although
    [start] was never called by the user, and once workers exist the task
    gets the first id and is posted to a worker; [start] on a running
    pool returns at once and leaves the state, the workers included, as
    it is. *)
Theorem constructor_starts_pool opts cpus native fn args postThrows (pool : Pool) :
  let st := construct opts cpus native in
  running st = true
  /\ snd (scheduleTask fn args postThrows st) <> RejectedAtOnce NotRunning
  /\ (forall ok,
        (1 <= length (workers (createWorkers ok st)))%nat ->
        0 < maxQueueSize st ->
        exists worker,
          scheduleTask fn args None (createWorkers ok st)
          = (postMessage worker
               {| tm_id := 0; tm_functionData := fn; tm_args := args |}
               (allocate (createWorkers ok st)),
             OfTask 0))
  /\ (running pool = true -> start pool = (pool, None)).
Proof.
  intros st. assert (Hrun : running st = true) by reflexivity.
  split; [done |]. split; [| split].
  - destruct (scheduleTask_cases fn args postThrows st)
      as [[E _] | [(_ & _ & E) | [(_ & _ & e & _ & E) | (_ & _ & _ & w & _ & E)]]];
      [congruence | rewrite E; cbn; discriminate ..].
  - intros ok Hw Hmax.
    pose proof (createWorkers_books ok st) as [= Hq _ _ Hn Hm].
    destruct (scheduleTask_posts fn args (createWorkers ok st)) as [w E].
    + by rewrite createWorkers_running.
    + done.
    + rewrite Hq, Hm, map_size_empty. exact Hmax.
    + exists w. rewrite E, Hn. reflexivity.
  - intros Hp. unfold start. by rewrite Hp.
Qed.

Lemma createWorkers_length st :
  workers st = [] ->
  length (workers (createWorkers allCreated st)) = Z.to_nat (jsThreadCount st).
Proof.
  intros Hw. unfold createWorkers.
  assert (H : forall l st, length (workers (foldl
              (fun st i => createWorker (Z.of_nat i) true st) st l))
            = (length (workers st) + length l)%nat).
  { induction l as [| i l IH]; intros st0; cbn [foldl]; [cbn; lia |].
    rewrite IH. cbn. rewrite length_app. cbn. lia. }
  rewrite H, Hw, length_seq. cbn. lia.
Qed.

(** C8: when the requested worker count is absent, zero or negative,
    the thread count of the constructed pool is
    [max(1, floor(availableHardwareThreads / 2))], which is at least 1,
    and the workers created for it, when each creation succeeds, are
    that many. *)
Theorem invalid_thread_count_defaults opts cpus native :
  (forall n, jsThreads opts = Some n -> n <= 0) ->
  let st := construct opts cpus native in
  determineThreadCount cpus (jsThreads opts)
    = Z.max 1 (getAvailableHardwareThreads cpus / 2)
  /\ jsThreadCount st = Z.max 1 (getAvailableHardwareThreads cpus / 2)
  /\ 1 <= jsThreadCount st
  /\ (1 <= length (workers (createWorkers allCreated st)))%nat.
Proof.
  intros Hreq st.
  assert (E : determineThreadCount cpus (jsThreads opts)
              = Z.max 1 (getAvailableHardwareThreads cpus / 2)).
  { unfold determineThreadCount. destruct (jsThreads opts) as [n |]; [| done].
    specialize (Hreq n eq_refl).
    rewrite (proj2 (Z.leb_le n 0) Hreq), orb_true_r. done. }
  assert (E' : jsThreadCount st = determineThreadCount cpus (jsThreads opts))
    by reflexivity.
  split; [done |]. split; [congruence |]. split; [lia |].
  rewrite createWorkers_length by reflexivity. lia.
Qed.

Lemma invalid_thread_count_defaults_witness :
  (forall n, jsThreads negativeRequest = Some n -> n <= 0)
  /\ jsThreadCount (construct negativeRequest (Some 8) None) = 4
  /\ 1 <= jsThreadCount (construct negativeRequest (Some 8) None).
Proof.
  assert (H : forall n, jsThreads negativeRequest = Some n -> n <= 0).
  { intros n [= <-]. lia. }
  split; [exact H |].
  destruct (invalid_thread_count_defaults negativeRequest (Some 8) None H)
    as (_ & H2 & H3 & _).
  split; [exact H2 | exact H3].
Defined.
End Scheduler.

(** ** Chunking *)

Module Chunks.

Import ThreadPool.
Local Open Scope nat_scope.

Lemma ceilDiv_covers n w : 1 <= w -> n <= ceilDiv n w * w.
Proof.
  intros Hw. unfold ceilDiv.
  pose proof (Nat.div_mod_eq (n + w - 1) w) as E.
  pose proof (Nat.mod_upper_bound (n + w - 1) w) as U. nia.
Qed.

Lemma ceilDiv_tight n w : 1 <= w -> 1 <= n -> (ceilDiv n w - 1) * w < n.
Proof.
  intros Hw Hn. unfold ceilDiv.
  pose proof (Nat.div_mod_eq (n + w - 1) w) as E.
  pose proof (Nat.mod_upper_bound (n + w - 1) w) as U. nia.
Qed.

Lemma ceilDiv_zero w : 1 <= w -> ceilDiv 0 w = 0.
Proof. intros Hw. unfold ceilDiv. apply Nat.div_small. lia. Qed.

Lemma ceilDiv_pos n w : 1 <= w -> 1 <= n -> 1 <= ceilDiv n w.
Proof.
  intros Hw Hn. pose proof (ceilDiv_covers n w Hw).
  destruct (ceilDiv n w); lia.
Qed.

Lemma batchSize_pos n w : 1 <= batchSize n w.
Proof. unfold batchSize. destruct (w =? 0); lia. Qed.

Lemma batchSize_ceil n w : 1 <= w -> 1 <= n -> batchSize n w = ceilDiv n w.
Proof.
  intros Hw Hn. unfold batchSize.
  destruct (Nat.eqb_spec w 0); [lia |].
  pose proof (ceilDiv_pos n w Hw Hn). lia.
Qed.

(** At most one chunk per worker. *)
Lemma batch_count n w : 1 <= w -> ceilDiv n (batchSize n w) <= w.
Proof.
  intros Hw. destruct (Nat.eq_dec n 0) as [-> | Hn].
  - rewrite ceilDiv_zero by apply batchSize_pos. lia.
  - rewrite batchSize_ceil by lia.
    pose proof (ceilDiv_pos n w Hw ltac:(lia)) as Hc.
    pose proof (ceilDiv_covers n w Hw) as Hcov.
    pose proof (ceilDiv_tight n (ceilDiv n w) Hc ltac:(lia)) as Ht.
    nia.
Qed.

Lemma slice_take_drop {A} i n (l : list A) : slice i (i + n) l = take n (drop i l).
Proof. unfold slice. f_equal. lia. Qed.

Lemma concat_slices {A} (l : list A) size count :
  concat (List.map (fun i => slice i (i + size) l)
            (List.map (fun k => k * size) (seq 0 count)))
  = take (count * size) l.
Proof.
  induction count as [| count IH]; [done |].
  rewrite seq_S, !List.map_app, concat_app, IH. cbn [List.map concat].
  rewrite app_nil_r, slice_take_drop, take_take_drop. f_equal. lia.
Qed.

Lemma concat_batches {A} (l : list A) size :
  1 <= size ->
  concat (List.map (fun i => slice i (i + size) l) (batchOffsets (length l) size)) = l.
Proof.
  intros Hs. unfold batchOffsets. rewrite concat_slices.
  apply take_ge. by apply ceilDiv_covers.
Qed.

Lemma makeBatches_startPoints startPoints endPoints options size :
  1 <= size ->
  concat (ThreadPool.startPoints <$> makeBatches startPoints endPoints options size)
  = startPoints.
Proof.
  intros Hs. unfold makeBatches.
  rewrite <- (concat_batches startPoints size Hs) at 2.
  f_equal. rewrite <- list_fmap_compose. done.
Qed.

Lemma makeBatches_endPoints startPoints endPoints options size :
  1 <= size -> length startPoints = length endPoints ->
  concat (ThreadPool.endPoints <$> makeBatches startPoints endPoints options size)
  = endPoints.
Proof.
  intros Hs Hlen. unfold makeBatches. rewrite Hlen.
  rewrite <- (concat_batches endPoints size Hs) at 2.
  f_equal. rewrite <- list_fmap_compose. done.
Qed.

Lemma makeBatches_pairs startPoints endPoints options size :
  1 <= size -> length startPoints = length endPoints ->
  concat ((fun b => zip (ThreadPool.startPoints b) (ThreadPool.endPoints b))
            <$> makeBatches startPoints endPoints options size)
  = zip startPoints endPoints.
Proof.
  intros Hs Hlen. unfold makeBatches.
  etrans; [| apply (concat_batches (zip startPoints endPoints) size Hs)].
  rewrite length_zip_with_l_eq by done.
  f_equal. rewrite <- list_fmap_compose. apply list_fmap_ext.
  intros _ i _. cbn. unfold slice.
  by rewrite zip_with_drop, zip_with_take.
Qed.

Lemma makeBatches_lengths startPoints endPoints options size :
  length startPoints = length endPoints ->
  Forall (fun b => length (ThreadPool.startPoints b) = length (ThreadPool.endPoints b)
                   /\ length (ThreadPool.startPoints b) <= size
                   /\ ThreadPool.options b = options)
    (makeBatches startPoints endPoints options size).
Proof.
  intros Hlen. apply Forall_forall. intros b Hb.
  unfold makeBatches in Hb. apply list_elem_of_fmap in Hb as (i & -> & _).
  cbn. unfold slice. rewrite !length_take, !length_drop.
  split; [lia |]. split; [lia | done].
Qed.

Lemma makeBatches_count startPoints endPoints options w :
  1 <= w ->
  length (makeBatches startPoints endPoints options (batchSize (length startPoints) w)) <= w.
Proof.
  intros Hw. unfold makeBatches, batchOffsets.
  rewrite !length_map, length_seq. by apply batch_count.
Qed.
Lemma makeBatches_nonempty startPoints endPoints options size :
  1 <= size ->
  Forall (fun b => ThreadPool.startPoints b <> [])
    (makeBatches startPoints endPoints options size).
Proof.
  intros Hsize. apply Forall_forall. intros b Hb.
  unfold makeBatches, batchOffsets in Hb.
  apply list_elem_of_fmap in Hb as (i & -> & Hi).
  apply list_elem_of_fmap in Hi as (k & -> & Hk).
  apply elem_of_seq in Hk as [_ Hk]. cbn in *.
  assert (HN : 1 <= length startPoints).
  { destruct (length startPoints) eqn:E; [| lia].
    rewrite ceilDiv_zero in Hk by done. lia. }
  pose proof (ceilDiv_tight (length startPoints) size Hsize HN) as Htight.
  intros Hnil. apply (f_equal length) in Hnil. unfold slice in Hnil.
  rewrite length_take, length_drop in Hnil. cbn in Hnil. nia.
Qed.

End Chunks.

(** ** The batch dispatcher *)

Module Dispatcher.
Import ThreadPool Scheduler Chunks.

Lemma processBatch_reference mathRandom batch :
  length (startPoints batch) = length (endPoints batch) ->
  exists paths,
    processBatch mathRandom batch = Some paths
    /\ Forall2 (referencePath (options batch)) paths
         (zip (startPoints batch) (endPoints batch)).
Proof.
  intros Hlen.
  exists (imap (fun i pair =>
            generateBezierPath (mathRandom i) (fst pair) (snd pair) (options batch))
            (zip (startPoints batch) (endPoints batch))).
  split.
  - unfold processBatch. apply mapM_Some.
    apply Forall2_same_length_lookup_2.
    { rewrite length_seq, length_imap, length_zip_with_l_eq; done. }
    intros i j path Hj Hpath. apply lookup_seq in Hj as [-> Hi]. cbn in *.
    rewrite list_lookup_imap in Hpath.
    destruct (zip (startPoints batch) (endPoints batch) !! i) as [[s e] |] eqn:Hz;
      [| done].
    apply lookup_zip_with_Some in Hz as (s' & e' & [= <- <-] & Hs & He).
    rewrite Hs, He. cbn in *. congruence.
  - apply Forall2_same_length_lookup_2; [by rewrite length_imap |].
    intros i path pair Hpath Hpair. rewrite list_lookup_imap, Hpair in Hpath.
    cbn in Hpath. injection Hpath as <-. by eexists.
Qed.

Lemma flat_paths (pathss : list (list (list Point))) :
  flat (pathsValue <$> pathss) = pathValue <$> concat pathss.
Proof.
  unfold flat. induction pathss as [| paths pathss IH]; [done |].
  cbn. rewrite fmap_app. f_equal. exact IH.
Qed.

Lemma Forall2_concat_chunks {A B} (P : A -> B -> Prop) ls ks :
  Forall2 (Forall2 P) ls ks -> Forall2 P (concat ls) (concat ks).
Proof. induction 1; cbn; [constructor | by apply Forall2_app]. Qed.

Lemma generateBezierPath_seeded options s r r' start end_ :
  seed options = Some s ->
  generateBezierPath r start end_ options = generateBezierPath r' start end_ options.
Proof. intros Hs. unfold generateBezierPath. rewrite Hs. reflexivity. Qed.

(** The reply of a worker to the task message of a well-formed batch. *)
Lemma expectedReply_batch mathRandom n batch :
  length (startPoints batch) = length (endPoints batch) ->
  exists paths,
    expectedReply mathRandom
      {| tm_id := n; tm_functionData := ProcessBatch; tm_args := [ArgBatch batch] |}
    = {| rm_type := "result"; rm_id := Some n;
         rm_result := pathsValue paths; rm_error := None |}
    /\ Forall2 (referencePath (options batch)) paths
         (zip (startPoints batch) (endPoints batch)).
Proof.
  intros Hlen.
  destruct (processBatch_reference mathRandom batch Hlen) as (paths & E & H).
  exists paths. split; [| done].
  unfold expectedReply. cbn. by rewrite E.
Qed.

Lemma batchMessages_ids n batches id :
  id ∈ tm_id <$> batchMessages n batches -> n <= id.
Proof.
  revert n. induction batches as [| b batches IH]; intros n; cbn.
  - intros H. by apply elem_of_nil in H.
  - intros [-> | H]%elem_of_cons; [lia |]. apply IH in H. lia.
Qed.

Lemma batchMessages_NoDup n batches : NoDup (tm_id <$> batchMessages n batches).
Proof.
  revert n. induction batches as [| b batches IH]; intros n; cbn; constructor.
  - intros H. apply batchMessages_ids in H. lia.
  - apply IH.
Qed.

Lemma batchMessages_args n batches :
  tm_args <$> batchMessages n batches = (fun b => [ArgBatch b]) <$> batches.
Proof.
  revert n. induction batches as [| b batches IH]; intros n; cbn; [done |].
  by rewrite IH.
Qed.

Lemma batchMessages_functions n batches :
  tm_functionData <$> batchMessages n batches = (fun _ => ProcessBatch) <$> batches.
Proof.
  revert n. induction batches as [| b batches IH]; intros n; cbn; [done |].
  by rewrite IH.
Qed.

Lemma scheduleBatches_posts batches k st :
  Consistent st -> running st = true -> (1 <= length (workers st))%nat ->
  Z.of_nat (size (taskQueue st)) + Z.of_nat (length batches) <= maxQueueSize st ->
  let res := scheduleBatches batches (fun _ => None) k st in
  snd res = OfTask <$> (tm_id <$> batchMessages (nextTaskId st) batches)
  /\ (exists sent,
        posted (fst res) = posted st ++ sent
        /\ snd <$> sent = batchMessages (nextTaskId st) batches)
  /\ calls (fst res) = calls st
  /\ Consistent (fst res)
  /\ (forall id,
        is_Some (taskQueue st !! id)
        \/ id ∈ tm_id <$> batchMessages (nextTaskId st) batches ->
        is_Some (taskQueue (fst res) !! id)).
Proof.
  revert k st. induction batches as [| b batches IH]; intros k st Hst Hrun Hw Hroom.
  - cbn. split; [done |]. split; [exists []; by rewrite app_nil_r |].
    split; [done |]. split; [done |].
    intros id [H | H]; [done | by apply elem_of_nil in H].
  - cbn [scheduleBatches length] in *.
    destruct (scheduleTask_posts ProcessBatch [ArgBatch b] st Hrun Hw ltac:(lia))
      as [w E].
    rewrite E. clear E.
    set (msg := {| tm_id := nextTaskId st; tm_functionData := ProcessBatch;
                   tm_args := [ArgBatch b] |}).
    set (st1 := postMessage w msg (allocate st)).
    assert (Hst1 : Consistent st1).
    { eapply Consistent_books; [| apply (allocate_Consistent st Hst); lia]. reflexivity. }
    assert (Hfresh : taskQueue st !! nextTaskId st = None).
    { destruct (taskQueue st !! nextTaskId st) eqn:Hq; [| done].
      pose proof (entries_allocated _ Hst _ (ex_intro _ _ Hq)). lia. }
    assert (Hsize : size (taskQueue st1) = S (size (taskQueue st))).
    { unfold st1, allocate. cbn. by rewrite map_size_insert_None. }
    assert (Hkeep : forall id,
              is_Some (taskQueue st !! id) \/ id = nextTaskId st ->
              is_Some (taskQueue st1 !! id)).
    { intros id Hid. unfold st1, allocate. cbn.
      destruct (decide (nextTaskId st = id)) as [-> | Hne];
        [rewrite lookup_insert_eq; eauto |].
      rewrite lookup_insert_ne by done. destruct Hid; [done | congruence]. }
    assert (Hroom1 : Z.of_nat (size (taskQueue st1)) + Z.of_nat (length batches)
                     <= maxQueueSize st1).
    { rewrite Hsize. change (maxQueueSize st1) with (maxQueueSize st). lia. }
    specialize (IH (S k) st1 Hst1 Hrun Hw Hroom1).
    change (nextTaskId st1) with (nextTaskId st + 1) in IH.
    destruct (scheduleBatches batches (fun _ => None) (S k) st1) as [st2 ps].
    cbn [fst snd] in *.
    destruct IH as (Hps & (sent & Hsent & Hmsgs) & Hcalls & Hst2 & Hin).
    split; [by rewrite Hps |]. split.
    { exists ((w, msg) :: sent). split.
      - rewrite Hsent. unfold st1, postMessage. cbn. by rewrite <- app_assoc.
      - cbn. by rewrite Hmsgs. }
    split; [by rewrite Hcalls |]. split; [done |].
    intros id [Hid | [-> | Hid]%elem_of_cons]; apply Hin; auto.
Qed.

Lemma run_replies replies st :
  Consistent st ->
  NoDup (rm_id <$> replies) ->
  (forall r, r ∈ replies ->
     rm_type r = "result"
     /\ exists id, rm_id r = Some id /\ is_Some (taskQueue st !! id)) ->
  outcomes (run (WorkerMessage <$> replies) st)
  = outcomes st ++ (replyOutcome <$> replies).
Proof.
  revert st. induction replies as [| r replies IH]; intros st Hst Hnd Hrs.
  - cbn. by rewrite app_nil_r.
  - cbn [fmap list_fmap run foldl step].
    destruct (Hrs r) as (Hty & id & Hid & Hin); [by left |].
    rewrite (handleWorkerMessage_settle r id st) by done.
    cbn in Hnd. apply NoDup_cons in Hnd as [Hnotin Hnd].
    change (foldl step ?s (WorkerMessage <$> replies))
      with (run (WorkerMessage <$> replies) s).
    rewrite IH.
    + unfold outcomes, settle, invoke, replyOutcome. cbn.
      rewrite fmap_app, <- app_assoc, Hid. done.
    + apply settle_Consistent; [done | done | apply messageSettlement_not_shutdown].
    + done.
    + intros r' Hr'. destruct (Hrs r') as (Hty' & id' & Hid' & Hin'); [by right |].
      split; [done |]. exists id'. split; [done |].
      unfold settle, invoke. cbn. rewrite lookup_delete_ne; [done |].
      intros <-. apply Hnotin. rewrite Hid, <- Hid'.
      by apply list_elem_of_fmap_2.
Qed.

Lemma promiseState_outcomes st id :
  promiseState (calls st) (OfTask id)
  = snd <$> List.find (fun o => bool_decide (fst o = id)) (outcomes st).
Proof.
  unfold promiseState, outcomes. induction (calls st) as [| c cs IH]; [done |].
  cbn. destruct (bool_decide (task c = id)); [done | exact IH].
Qed.

Lemma find_skip {A} (P : A -> bool) l1 l2 :
  (forall x, x ∈ l1 -> P x = false) -> List.find P (l1 ++ l2) = List.find P l2.
Proof.
  induction l1 as [| x l1 IH]; intros H; [done |].
  cbn. rewrite (H x) by left. apply IH. intros y Hy. apply H. by right.
Qed.

Lemma find_unique (l : list (Z * Settlement)) id s :
  NoDup (fst <$> l) -> (id, s) ∈ l ->
  List.find (fun o => bool_decide (fst o = id)) l = Some (id, s).
Proof.
  induction l as [| [i s'] l IH]; intros Hnd Hin; [by apply elem_of_nil in Hin |].
  cbn in *. apply NoDup_cons in Hnd as [Hnotin Hnd].
  apply elem_of_cons in Hin as [[= <- <-] | Hin].
  - by rewrite bool_decide_eq_true_2.
  - rewrite bool_decide_eq_false_2; [by apply IH |].
    intros ->. apply Hnotin. apply list_elem_of_fmap. by exists (id, s).
Qed.

Lemma promiseAll_resolved calls (messages : list TaskMessage) (value : TaskMessage -> Value) :
  (forall m, m ∈ messages ->
     promiseState calls (OfTask (tm_id m)) = Some (Resolved (value m))) ->
  promiseAll calls (OfTask <$> (tm_id <$> messages)) = Fulfilled (value <$> messages).
Proof.
  induction messages as [| m messages IH]; intros H; [done |].
  cbn [fmap list_fmap promiseAll].
  change (list_fmap _ _ OfTask (list_fmap _ _ tm_id messages))
    with (OfTask <$> (tm_id <$> messages)).
  rewrite (H m) by left. rewrite IH; [done |]. intros m' Hm'. apply H. by right.
Qed.

Lemma batch_replies mathRandom options n batches :
  Forall (fun b => length (startPoints b) = length (endPoints b)
                   /\ ThreadPool.options b = options) batches ->
  exists pathss,
    (fun m => rm_result (expectedReply mathRandom m)) <$> batchMessages n batches
      = pathsValue <$> pathss
    /\ Forall2 (Forall2 (referencePath options)) pathss
         ((fun b => zip (startPoints b) (endPoints b)) <$> batches)
    /\ (forall m, m ∈ batchMessages n batches ->
          rm_type (expectedReply mathRandom m) = "result"
          /\ rm_id (expectedReply mathRandom m) = Some (tm_id m)
          /\ rm_error (expectedReply mathRandom m) = None).
Proof.
  revert n. induction batches as [| b batches IH]; intros n Hall.
  - exists []. split; [done |]. split; [constructor |].
    intros m H. by apply elem_of_nil in H.
  - apply Forall_cons in Hall as [[Hlen Hopt] Hall].
    destruct (IH (n + 1) Hall) as (pathss & Hvals & Hrefs & Hshape).
    destruct (expectedReply_batch mathRandom n b Hlen) as (paths & Hreply & Hpaths).
    exists (paths :: pathss). cbn [batchMessages fmap list_fmap].
    split; [| split].
    + rewrite Hreply. cbn. f_equal. exact Hvals.
    + constructor; [by rewrite <- Hopt | exact Hrefs].
    + intros m [-> | Hm]%elem_of_cons; [by rewrite Hreply | by apply Hshape].
Qed.

Lemma Forall2_eq_fmap {A B} (f : A -> B) (l : list B) (k : list A) :
  Forall2 (fun y x => y = f x) l k -> l = f <$> k.
Proof. induction 1; cbn; congruence. Qed.

Lemma makeBatches_lookup startPoints endPoints options size k b :
  makeBatches startPoints endPoints options size !! k = Some b ->
  ThreadPool.startPoints b = take size (drop (k * size) startPoints)
  /\ ThreadPool.endPoints b = take size (drop (k * size) endPoints)
  /\ ThreadPool.options b = options.
Proof.
  unfold makeBatches, batchOffsets. rewrite !list_lookup_fmap.
  destruct (seq 0 _ !! k) as [j |] eqn:Hj; [| done].
  apply lookup_seq in Hj as [-> _]. cbn. intros [= <-]. cbn. unfold slice.
  split; [f_equal; lia |]. split; [f_equal; lia | done].
Qed.

Lemma expectedReply_shape mathRandom m :
  rm_type (expectedReply mathRandom m) = "result"
  /\ rm_id (expectedReply mathRandom m) = Some (tm_id m).
Proof.
  unfold expectedReply.
  destruct (tm_functionData m); [| done].
  destruct (tm_args m) as [| [] ?]; try done.
  by destruct (processBatch _ _).
Qed.

Lemma workerReply_shape rebuilds caller m :
  rm_type (workerReply rebuilds caller m) = "result"
  /\ rm_id (workerReply rebuilds caller m) = Some (tm_id m).
Proof.
  unfold workerReply. destruct (rebuilds _); [| done].
  by destruct (callRebuilt _ _ _).
Qed.

(** The reply of worker.js to the task message of a chunk that is not
    empty carries an error. *)
Lemma workerReply_batch rebuilds caller n batch :
  startPoints batch <> [] ->
  exists error,
    workerReply rebuilds caller
      {| tm_id := n; tm_functionData := ProcessBatch; tm_args := [ArgBatch batch] |}
    = {| rm_type := "result"; rm_id := Some n;
         rm_result := VUndefined; rm_error := Some error |}
    /\ truthy error = true.
Proof.
  intros Hne. unfold workerReply, callRebuilt. cbn.
  destruct (rebuilds ProcessBatch); [| by eexists].
  destruct (startPoints batch); [done |]. by eexists.
Qed.

Lemma batchMessages_elem n batches m :
  m ∈ batchMessages n batches ->
  exists id b,
    b ∈ batches
    /\ m = {| tm_id := id; tm_functionData := ProcessBatch; tm_args := [ArgBatch b] |}.
Proof.
  revert n. induction batches as [| b batches IH]; intros n; cbn.
  - intros H. by apply elem_of_nil in H.
  - intros [-> | H]%elem_of_cons.
    + exists n, b. split; [by left | done].
    + destruct (IH _ H) as (id & b' & Hb' & ->). exists id, b'. split; [by right | done].
Qed.

(** The worker-pool fallback, from the submission of the chunks to the
    settlement of their promises: one task message per chunk is posted,
    and once the replies [reply m] to these messages [m] have arrived, in
    any order, the promise of each task is settled by the reply to it. *)
Lemma fallback_settlements (st : Pool) startPoints endPoints options
    (reply : TaskMessage -> ResultMessage) :
  Consistent st ->
  running st = true ->
  (1 <= length (workers st))%nat ->
  Z.of_nat (size (taskQueue st)) + Z.of_nat (length (workers st)) <= maxQueueSize st ->
  (forall m, rm_type (reply m) = "result" /\ rm_id (reply m) = Some (tm_id m)) ->
  let batches :=
    makeBatches startPoints endPoints options
      (batchSize (length startPoints) (length (workers st))) in
  let msgs := batchMessages (nextTaskId st) batches in
  let submitted := bezierFallback startPoints endPoints options (fun _ => None) st in
  snd submitted = Awaits (OfTask <$> (tm_id <$> msgs))
  /\ snd <$> drop (length (posted st)) (posted (fst submitted)) = msgs
  /\ forall replies, replies ≡ₚ reply <$> msgs ->
     forall m, m ∈ msgs ->
       promiseState (calls (run (WorkerMessage <$> replies) (fst submitted)))
         (OfTask (tm_id m))
       = Some (messageSettlement (reply m)).
Proof.
  intros Hst Hrun HW Hroom Hshape batches msgs submitted.
  pose proof (makeBatches_count startPoints endPoints options _ HW) as Hcount.
  fold batches in Hcount.
  unfold submitted, bezierFallback. fold batches.
  destruct (scheduleBatches_posts batches 0%nat st Hst Hrun HW ltac:(lia))
    as (Hps & (sent & Hsent & Hmsgs) & Hcalls & Hst1 & Hin).
  destruct (scheduleBatches batches (fun _ => None) 0%nat st) as [st1 ps] eqn:Hsched.
  cbn [fst snd] in *. fold msgs in Hps, Hmsgs, Hin.
  split; [by rewrite Hps |].
  split; [by rewrite Hsent, drop_app_length |].
  intros replies Hperm m Hm.
  (* the replies are well-formed and about distinct pending tasks *)
  assert (Hids : rm_id <$> replies ≡ₚ Some <$> (tm_id <$> msgs)).
  { rewrite Hperm.
    assert (E : rm_id <$> (reply <$> msgs) = Some <$> (tm_id <$> msgs)); [| by rewrite E].
    rewrite <- !list_fmap_compose. apply list_fmap_ext. intros i m' _. cbn.
    apply Hshape. }
  assert (Hnd : NoDup (rm_id <$> replies)).
  { rewrite Hids. apply NoDup_fmap; [by intros ?? [=] |]. apply batchMessages_NoDup. }
  pose proof (run_replies replies st1 Hst1 Hnd) as Hout.
  assert (Hwf : forall r, r ∈ replies ->
            rm_type r = "result"
            /\ exists id, rm_id r = Some id /\ is_Some (taskQueue st1 !! id)).
  { intros r Hr. rewrite Hperm in Hr.
    apply list_elem_of_fmap in Hr as (m' & -> & Hm').
    destruct (Hshape m') as [Hty Hid].
    split; [done |]. exists (tm_id m'). split; [done |].
    apply Hin. right. by apply list_elem_of_fmap_2. }
  specialize (Hout Hwf).
  assert (Hnew : fst <$> (replyOutcome <$> replies) ≡ₚ tm_id <$> msgs).
  { transitivity (default 0 <$> (rm_id <$> replies)).
    { by rewrite <- !list_fmap_compose. }
    rewrite Hids, <- list_fmap_compose. cbn.
    by rewrite list_fmap_id. }
  rewrite promiseState_outcomes, Hout.
  rewrite find_skip.
  - rewrite (find_unique _ (tm_id m) (messageSettlement (reply m))); [done | |].
    + rewrite Hnew. apply batchMessages_NoDup.
    + apply list_elem_of_fmap. exists (reply m). split.
      * unfold replyOutcome. by rewrite (proj2 (Hshape m)).
      * rewrite Hperm. by apply list_elem_of_fmap_2.
  - intros [i s] Ho. unfold outcomes in Ho. rewrite Hcalls in Ho.
    apply list_elem_of_fmap in Ho as (c & [= -> ->] & Hc).
    apply bool_decide_eq_false. cbn.
    pose proof (calls_allocated _ Hst c Hc).
    assert (nextTaskId st <= tm_id m); [| lia].
    apply (batchMessages_ids _ batches). by apply list_elem_of_fmap_2.
Qed.

Lemma generateBezierPaths_fallback (st : Pool) startPoints endPoints options
    mathRandom postThrows :
  running st = true ->
  nativePrimitive batchGenerateBezierPaths st = None ->
  length startPoints = length endPoints ->
  length startPoints <> 0%nat ->
  generateBezierPaths startPoints endPoints options mathRandom postThrows st
  = bezierFallback startPoints endPoints options postThrows st.
Proof.
  intros Hrun Hnative Hlen HN. unfold generateBezierPaths. rewrite Hrun. cbn [negb].
  rewrite (proj2 (Nat.eqb_eq _ _) Hlen). cbn [negb].
  rewrite (proj2 (Nat.eqb_neq (length startPoints) 0%nat) HN). by rewrite Hnative.
Qed.

(** The chunking and the reassembly of [generateBezierPaths]: with no
    native batch primitive and at least one live worker, the N input
    pairs are cut into contiguous chunks of [ceil(N / W)] pairs, in order
    and at most one per worker, and one task is submitted per chunk.  If
    each task is answered with what [processBatch] computes where it was
    written, in whatever order the replies arrive, the call is fulfilled
    with exactly N paths, the i-th being
    [generateBezierPath(startPoints[i], endPoints[i], options)]; with an
    explicit seed the result is equal to the list of the paths computed
    one by one, whatever [Math.random] returns. *)
Theorem chunked_generation_matches_sequential
    opts cpus native actions startPoints endPoints options mathRandom
    workerRandom replies :
  let st := run actions (construct opts cpus native) in
  let N := length startPoints in
  let W := length (workers st) in
  let batches := makeBatches startPoints endPoints options (batchSize N W) in
  let submitted :=
    generateBezierPaths startPoints endPoints options mathRandom (fun _ => None) st in
  let tasks := snd <$> drop (length (posted st)) (posted (fst submitted)) in
  running st = true ->
  nativePrimitive batchGenerateBezierPaths st = None ->
  (1 <= W)%nat ->
  length endPoints = N ->
  Z.of_nat (size (taskQueue st)) + Z.of_nat W <= maxQueueSize st ->
  replies ≡ₚ expectedReply workerRandom <$> tasks ->
  (* the chunks *)
  ((1 <= N)%nat -> batchSize N W = ceilDiv N W)
  /\ (forall k b, batches !! k = Some b ->
        ThreadPool.startPoints b = take (batchSize N W) (drop (k * batchSize N W) startPoints)
        /\ ThreadPool.endPoints b = take (batchSize N W) (drop (k * batchSize N W) endPoints))
  /\ concat (ThreadPool.startPoints <$> batches) = startPoints
  /\ concat (ThreadPool.endPoints <$> batches) = endPoints
  /\ (length batches <= W)%nat
  (* one task per chunk, in the order of the chunks *)
  /\ tm_args <$> tasks = (fun b => [ArgBatch b]) <$> batches
  (* the result once the tasks have been answered, in any order *)
  /\ exists values,
       batchResult (snd submitted) (run (WorkerMessage <$> replies) (fst submitted))
         = Fulfilled values
       /\ length values = N
       /\ Forall2 (fun v pair => exists r, v = sequentialPath options r pair)
            values (zip startPoints endPoints)
       /\ (forall s r, seed options = Some s ->
             values = sequentialPath options r <$> zip startPoints endPoints).
Proof.
  intros st N W batches submitted tasks Hrun Hnative HW Hlen Hroom Hperm.
  pose proof (reachable_Consistent opts cpus native actions) as Hst. fold st in Hst.
  pose proof (batchSize_pos N W) as Hbs.
  assert (Hlen' : length startPoints = length endPoints) by (unfold N in Hlen; lia).
  split; [intros HN; by apply batchSize_ceil |].
  split.
  { intros k b Hb. apply makeBatches_lookup in Hb as (? & ? & _). done. }
  split; [by apply makeBatches_startPoints |].
  split; [by apply makeBatches_endPoints |].
  split; [by apply makeBatches_count |].
  destruct (Nat.eq_dec N 0%nat) as [HN | HN].
  - (* nothing to do *)
    assert (startPoints = []) as -> by (by apply length_zero_iff_nil).
    assert (endPoints = []) as ->.
    { apply length_zero_iff_nil. unfold N in *. cbn in *. lia. }
    assert (Hsub : submitted = (st, Returns [])).
    { unfold submitted, generateBezierPaths. by rewrite Hrun. }
    assert (Htasks : tasks = []).
    { unfold tasks. rewrite Hsub. cbn [fst]. by rewrite drop_all. }
    rewrite Htasks in *. cbn in Hperm. apply Permutation_nil_r in Hperm as ->.
    assert (Hnone : batches = []).
    { unfold batches, makeBatches, batchOffsets. cbn [length].
      by rewrite ceilDiv_zero by apply batchSize_pos. }
    split; [by rewrite Hnone |]. exists []. rewrite Hsub. cbn. repeat split; try done.
  - (* the worker-pool fallback *)
    assert (Hsub : submitted = bezierFallback startPoints endPoints options (fun _ => None) st).
    { by apply generateBezierPaths_fallback. }
    destruct (fallback_settlements st startPoints endPoints options
                (expectedReply workerRandom) Hst Hrun HW Hroom
                (expectedReply_shape workerRandom))
      as (Hps & Hposted & Hsettled).
    rewrite <- Hsub in Hps, Hposted, Hsettled. fold N W batches in Hps, Hposted, Hsettled.
    set (msgs := batchMessages (nextTaskId st) batches) in *.
    change (tasks = msgs) in Hposted. rewrite Hposted in Hperm |- *.
    split; [apply batchMessages_args |].
    destruct (batch_replies workerRandom options (nextTaskId st) batches)
      as (pathss & Hvals & Hrefs & Hshape).
    { eapply Forall_impl; [by apply makeBatches_lengths |]. cbn. tauto. }
    fold msgs in Hvals, Hshape.
    specialize (Hsettled replies Hperm).
    (* the promises are fulfilled in chunk order and flattened *)
    assert (Hrefs' : Forall2 (referencePath options) (concat pathss)
                       (zip startPoints endPoints)).
    { rewrite <- (makeBatches_pairs startPoints endPoints options (batchSize N W))
        by done.
      by apply Forall2_concat_chunks. }
    exists (pathValue <$> concat pathss).
    split; [| split; [| split]].
    + unfold batchResult. rewrite Hps.
      rewrite (promiseAll_resolved _ _ (fun m => rm_result (expectedReply workerRandom m))).
      * by rewrite Hvals, flat_paths.
      * intros m Hm. rewrite (Hsettled m Hm). unfold messageSettlement.
        by rewrite (proj2 (proj2 (Hshape m Hm))).
    + rewrite length_fmap, (Forall2_length _ _ _ Hrefs'), length_zip_with_l_eq; done.
    + apply Forall2_fmap_l. eapply Forall2_impl; [exact Hrefs' |].
      intros path pair [r ->]. by exists r.
    + intros s r Hseed. apply Forall2_eq_fmap. apply Forall2_fmap_l.
      eapply Forall2_impl; [exact Hrefs' |].
      intros path pair [r' ->]. unfold sequentialPath.
      by rewrite (generateBezierPath_seeded options s r' r).
Qed.

(** C2: with no native batch primitive and at least one live worker,
    [generateBezierPaths] submits one [processBatch] task per chunk of a
    non-empty input, and worker.js answers every one of them with an
    error: it either gets no function out of the text of [processBatch],
    or calls the rebuilt function without the ThreadPoolManager that the
    text refers to as [this].  Once the replies have arrived, in whatever
    order, the call is rejected: it does not return the N paths of the
    sequential computation. *)
Theorem chunked_generation_rejects
    opts cpus native actions startPoints endPoints options mathRandom
    rebuilds caller replies :
  let st := run actions (construct opts cpus native) in
  let N := length startPoints in
  let W := length (workers st) in
  let batches := makeBatches startPoints endPoints options (batchSize N W) in
  let submitted :=
    generateBezierPaths startPoints endPoints options mathRandom (fun _ => None) st in
  let tasks := snd <$> drop (length (posted st)) (posted (fst submitted)) in
  running st = true ->
  nativePrimitive batchGenerateBezierPaths st = None ->
  (1 <= W)%nat ->
  (1 <= N)%nat ->
  length endPoints = N ->
  Z.of_nat (size (taskQueue st)) + Z.of_nat W <= maxQueueSize st ->
  replies ≡ₚ workerReply rebuilds caller <$> tasks ->
  tm_functionData <$> tasks = (fun _ => ProcessBatch) <$> batches
  /\ tm_args <$> tasks = (fun b => [ArgBatch b]) <$> batches
  /\ Forall (fun r => exists error, rm_error r = Some error /\ truthy error = true) replies
  /\ batchResult (snd submitted) (run (WorkerMessage <$> replies) (fst submitted))
     = Failed.
Proof.
  intros st N W batches submitted tasks Hrun Hnative HW HN Hlen Hroom Hperm.
  pose proof (reachable_Consistent opts cpus native actions) as Hst. fold st in Hst.
  pose proof (batchSize_pos N W) as Hbs.
  assert (Hlen' : length startPoints = length endPoints) by (unfold N in Hlen; lia).
  assert (Hsub : submitted = bezierFallback startPoints endPoints options (fun _ => None) st).
  { apply generateBezierPaths_fallback; try done. unfold N in HN. lia. }
  destruct (fallback_settlements st startPoints endPoints options
              (workerReply rebuilds caller) Hst Hrun HW Hroom
              (workerReply_shape rebuilds caller))
    as (Hps & Hposted & Hsettled).
  rewrite <- Hsub in Hps, Hposted, Hsettled. fold N W batches in Hps, Hposted, Hsettled.
  set (msgs := batchMessages (nextTaskId st) batches) in *.
  change (tasks = msgs) in Hposted. rewrite Hposted in Hperm |- *.
  specialize (Hsettled replies Hperm).
  assert (Herr : forall m, m ∈ msgs ->
            exists error,
              rm_error (workerReply rebuilds caller m) = Some error
              /\ truthy error = true).
  { intros m Hm. apply batchMessages_elem in Hm as (id & b & Hb & ->).
    destruct (workerReply_batch rebuilds caller id b) as (error & -> & Htruthy).
    - pose proof (makeBatches_nonempty startPoints endPoints options _ Hbs) as Hne.
      rewrite Forall_forall in Hne. by apply Hne.
    - by exists error. }
  split; [apply batchMessages_functions |].
  split; [apply batchMessages_args |].
  split.
  { apply Forall_forall. intros r Hr. rewrite Hperm in Hr.
    apply list_elem_of_fmap in Hr as (m & -> & Hm). by apply Herr. }
  unfold batchResult. rewrite Hps.
  assert (Hsome : (1 <= length batches)%nat).
  { unfold batches, makeBatches, batchOffsets. rewrite !length_map, length_seq.
    by apply ceilDiv_pos. }
  destruct batches as [| b bs] eqn:Hbatches; [cbn in Hsome; lia |].
  cbn [msgs batchMessages fmap list_fmap promiseAll] in *.
  rewrite Hsettled by left.
  destruct (Herr _ ltac:(left; reflexivity)) as (error & Herror & Htruthy).
  unfold messageSettlement. by rewrite Herror, Htruthy.
Qed.

(** C6, as stated, fails on a pool that is not running: with both input
    arrays empty the batch operations throw "not running" instead of
    returning the empty array. *)
Lemma empty_batch_on_stopped_pool :
  running stoppedPool = false
  /\ snd (generateBezierPaths [] [] someOptions 0%float (fun _ => None) stoppedPool)
     = Throws NotRunning
  /\ snd (simulatePhysicsMovements [] [] somePhysics 0%float stoppedPool)
     = Throws NotRunning.
Proof. repeat split; vm_compute; reflexivity. Qed.

(** C6 (amended): a batch operation called with arrays of different
    lengths fails and leaves the state as it was, so no native primitive
    was entered and no task was submitted; called on a running pool with
    both arrays empty it returns the empty array and leaves the state as
    it was; on a pool that is not running it throws "not running"
    whatever the arrays are. *)
Theorem batch_validation (st : Pool) startPoints endPoints bezier physics
    mathRandom postThrows :
  (length startPoints <> length endPoints ->
     (exists e, generateBezierPaths startPoints endPoints bezier mathRandom postThrows st
                = (st, Throws e))
     /\ (exists e, simulatePhysicsMovements startPoints endPoints physics mathRandom st
                   = (st, Throws e)))
  /\ (running st = true ->
        generateBezierPaths [] [] bezier mathRandom postThrows st = (st, Returns [])
        /\ simulatePhysicsMovements [] [] physics mathRandom st = (st, Returns []))
  /\ (running st = false ->
        generateBezierPaths startPoints endPoints bezier mathRandom postThrows st
          = (st, Throws NotRunning)
        /\ simulatePhysicsMovements startPoints endPoints physics mathRandom st
          = (st, Throws NotRunning)).
Proof.
  unfold generateBezierPaths, simulatePhysicsMovements.
  split; [| split].
  - intros Hlen. apply Nat.eqb_neq in Hlen.
    destruct (running st); cbn [negb]; rewrite ?Hlen; cbn [negb]; eauto.
  - intros ->. done.
  - intros ->. done.
Qed.

Lemma scheduleTask_log fn args postThrows st :
  warnings (fst (scheduleTask fn args postThrows st)) = warnings st
  /\ nativeCalls (fst (scheduleTask fn args postThrows st)) = nativeCalls st.
Proof.
  destruct (scheduleTask_cases fn args postThrows st)
    as [[_ ->] | [(_ & _ & ->) | [(_ & _ & e & _ & ->) | (_ & _ & _ & w & _ & ->)]]];
    done.
Qed.

Lemma scheduleBatches_log batches postThrows k st :
  length (snd (scheduleBatches batches postThrows k st)) = length batches
  /\ warnings (fst (scheduleBatches batches postThrows k st)) = warnings st
  /\ nativeCalls (fst (scheduleBatches batches postThrows k st)) = nativeCalls st.
Proof.
  revert k st. induction batches as [| b batches IH]; intros k st; [done |].
  cbn [scheduleBatches].
  destruct (scheduleTask_log ProcessBatch [ArgBatch b] (postThrows k) st) as [Hw Hn].
  destruct (scheduleTask ProcessBatch [ArgBatch b] (postThrows k) st) as [st1 p].
  destruct (IH (S k) st1) as (Hl & Hw' & Hn').
  destruct (scheduleBatches batches postThrows (S k) st1) as [st2 ps].
  cbn in *. split; [lia |]. split; congruence.
Qed.

(** C5: when the native Bezier batch primitive is there and its call
    throws, [generateBezierPaths] logs one warning and goes on exactly as
    the worker-pool fallback does: the call does not throw the error of
    the primitive, it submits the chunks and awaits their promises; the
    primitive was entered once. *)
Theorem native_failure_falls_back (st : Pool) startPoints endPoints options
    mathRandom postThrows batch error :
  running st = true ->
  length startPoints = length endPoints ->
  startPoints <> [] ->
  nativePrimitive batchGenerateBezierPaths st = Some batch ->
  batch startPoints endPoints options (resolveSeed (seed options) mathRandom) = inl error ->
  let result :=
    generateBezierPaths startPoints endPoints options mathRandom postThrows st in
  result
    = bezierFallback startPoints endPoints options postThrows
        (warn "C++ batch Bezier path generation failed, falling back to JS"
           (enterNative st))
  /\ (exists promises,
        snd result = Awaits promises
        /\ length promises
           = length (makeBatches startPoints endPoints options
                       (batchSize (length startPoints) (length (workers st)))))
  /\ warnings (fst result)
     = warnings st ++ ["C++ batch Bezier path generation failed, falling back to JS"]
  /\ nativeCalls (fst result) = S (nativeCalls st).
Proof.
  intros Hrun Hlen Hne Hnative Hfail result.
  assert (E : result
    = bezierFallback startPoints endPoints options postThrows
        (warn "C++ batch Bezier path generation failed, falling back to JS"
           (enterNative st))).
  { unfold result, generateBezierPaths. rewrite Hrun. cbn [negb].
    rewrite (proj2 (Nat.eqb_eq _ _) Hlen). cbn [negb].
    destruct startPoints as [| p ps]; [done |]. cbn [length Nat.eqb].
    rewrite Hnative. cbn zeta. by rewrite Hfail. }
  split; [exact E |]. rewrite E. unfold bezierFallback.
  cbn [workers warn enterNative set_warnings set_nativeCalls].
  match goal with
  | |- context [scheduleBatches ?bs ?pt ?k ?s] =>
      destruct (scheduleBatches_log bs pt k s) as (Hl & Hw & Hn);
      destruct (scheduleBatches bs pt k s) as [st1 ps]
  end.
  cbn in *. split; [eauto |]. split; congruence.
Qed.

Lemma native_failure_falls_back_witness :
  nativePrimitive batchGenerateBezierPaths poolWithFailingAddon
    = batchGenerateBezierPaths failingAddon
  /\ exists promises,
       snd (generateBezierPaths [origin] [target] someOptions 0%float (fun _ => None)
              poolWithFailingAddon) = Awaits promises.
Proof.
  split; [reflexivity |].
  destruct (native_failure_falls_back poolWithFailingAddon [origin] [target]
              someOptions 0%float (fun _ => None)
              (fun _ _ _ _ => inl (Thrown "native failure")) (Thrown "native failure"))
    as (_ & (promises & H & _) & _); try reflexivity; try discriminate.
  exists promises. exact H.
Defined.

(** An instance: 237 pairs on four workers, in chunks of 60, with the
    seed 12345, each task answered with what [processBatch] computes. *)
Lemma chunked_generation_example :
  running fourWorkers = true
  /\ length (workers fourWorkers) = 4%nat
  /\ batchSize 237 4 = 60%nat
  /\ exists values,
       batchResult
         (snd (generateBezierPaths manyStarts manyEnds someOptions 0%float
                 (fun _ => None) fourWorkers))
         (run (WorkerMessage <$>
                 (expectedReply (fun _ => 0%float) <$>
                    (snd <$> drop (length (posted fourWorkers))
                       (posted (fst (generateBezierPaths manyStarts manyEnds
                                       someOptions 0%float (fun _ => None)
                                       fourWorkers))))))
            (fst (generateBezierPaths manyStarts manyEnds someOptions 0%float
                    (fun _ => None) fourWorkers)))
       = Fulfilled values
       /\ length values = 237%nat
       /\ values = sequentialPath someOptions 0%float <$> zip manyStarts manyEnds.
Proof.
  split; [reflexivity |]. split; [reflexivity |]. split; [reflexivity |].
  destruct (chunked_generation_matches_sequential defaultOptions (Some 8) None
              [CreateWorkers allCreated] manyStarts manyEnds someOptions
              0%float (fun _ => 0%float)
              (expectedReply (fun _ => 0%float) <$>
                 (snd <$> drop (length (posted fourWorkers))
                    (posted (fst (generateBezierPaths manyStarts manyEnds
                                    someOptions 0%float (fun _ => None)
                                    fourWorkers))))))
    as (_ & _ & _ & _ & _ & _ & values & Hres & Hlen & _ & Hseed).
  - reflexivity.
  - reflexivity.
  - vm_compute. lia.
  - reflexivity.
  - vm_compute. discriminate.
  - reflexivity.
  - exists values. split; [exact Hres |]. split; [exact Hlen |].
    exact (Hseed 12345%float 0%float eq_refl).
Defined.

(** An instance: one pair on four workers, answered by worker.js. *)
Lemma chunked_generation_rejects_example :
  running fourWorkers = true
  /\ nativePrimitive batchGenerateBezierPaths fourWorkers = None
  /\ length (workers fourWorkers) = 4%nat
  /\ batchResult
       (snd (generateBezierPaths [origin] [target] someOptions 0%float
               (fun _ => None) fourWorkers))
       (run (WorkerMessage <$>
               (workerReply (fun _ => true) (fun _ _ => inr VUndefined) <$>
                  (snd <$> drop (length (posted fourWorkers))
                     (posted (fst (generateBezierPaths [origin] [target]
                                     someOptions 0%float (fun _ => None)
                                     fourWorkers))))))
          (fst (generateBezierPaths [origin] [target] someOptions 0%float
                  (fun _ => None) fourWorkers)))
     = Failed.
Proof.
  split; [reflexivity |]. split; [reflexivity |]. split; [reflexivity |].
  destruct (chunked_generation_rejects defaultOptions (Some 8) None
              [CreateWorkers allCreated] [origin] [target] someOptions
              0%float (fun _ => true) (fun _ _ => inr VUndefined)
              (workerReply (fun _ => true) (fun _ _ => inr VUndefined) <$>
                 (snd <$> drop (length (posted fourWorkers))
                    (posted (fst (generateBezierPaths [origin] [target]
                                    someOptions 0%float (fun _ => None)
                                    fourWorkers))))))
    as (_ & _ & _ & Hres).
  - reflexivity.
  - reflexivity.
  - vm_compute. lia.
  - vm_compute. lia.
  - reflexivity.
  - vm_compute. discriminate.
  - reflexivity.
  - exact Hres.
Defined.
End Dispatcher.

(* ================================================================== *)
(** ** More on the scheduler *)
(* ================================================================== *)

Module SchedulerFacts.
Import ThreadPool Scheduler.

Lemma settle_fields id s st :
  calls (settle id s st)
  = calls st ++ [{| task := id; settlement := s; registered := false;
                    timerLive := false |}]
  /\ taskQueue (settle id s st) = delete id (taskQueue st)
  /\ timers (settle id s st) = timers st ∖ {[id]}
  /\ posted (settle id s st) = posted st
  /\ nextTaskId (settle id s st) = nextTaskId st
  /\ workers (settle id s st) = workers st
  /\ warnings (settle id s st) = warnings st.
Proof.
  unfold settle, invoke. cbn. repeat split.
  rewrite lookup_delete_eq.
  rewrite (bool_decide_eq_false_2 (is_Some None)) by (intros [? [=]]).
  rewrite (bool_decide_eq_false_2 (id ∈ timers st ∖ {[id]})); [done |].
  rewrite elem_of_difference, elem_of_singleton. tauto.
Qed.

Lemma allocate_fresh st :
  Consistent st ->
  taskQueue st !! nextTaskId st = None /\ nextTaskId st ∉ timers st.
Proof.
  intros Hst.
  assert (H : taskQueue st !! nextTaskId st = None).
  { destruct (taskQueue st !! nextTaskId st) eqn:Hq; [| done].
    pose proof (entries_allocated _ Hst _ (ex_intro _ _ Hq)). lia. }
  split; [done |]. rewrite (timers_guard _ Hst), H. intros [? [=]].
Qed.

Lemma scheduleTask_sends fn args st :
  running st = true -> (1 <= length (workers st))%nat ->
  Z.of_nat (size (taskQueue st)) < maxQueueSize st ->
  exists worker,
    workers st !! Z.to_nat (nextTaskId st mod Z.of_nat (length (workers st)))
      = Some worker
    /\ scheduleTask fn args None st
       = (postMessage worker
            {| tm_id := nextTaskId st; tm_functionData := fn; tm_args := args |}
            (allocate st),
          OfTask (nextTaskId st)).
Proof.
  intros Hrun Hw Hroom.
  unfold scheduleTask. rewrite Hrun. cbn [negb].
  rewrite (proj2 (Z.leb_gt _ _) Hroom). cbn -[Z.modulo Z.to_nat].
  destruct (Nat.eqb_spec (length (workers st)) 0); [lia |].
  destruct (workers st !! _) as [w |] eqn:Hl; [by exists w |].
  apply lookup_ge_None in Hl.
  pose proof (Z.mod_pos_bound (nextTaskId st) (Z.of_nat (length (workers st)))
                ltac:(lia)). lia.
Qed.

Lemma sends_in_turn (jobs : list (TaskFunction * list Arg)) st :
  Consistent st ->
  running st = true ->
  (1 <= length (workers st))%nat ->
  Z.of_nat (size (taskQueue st)) + Z.of_nat (length jobs) <= maxQueueSize st ->
  let st' := run ((fun job => CallScheduleTask (fst job) (snd job) None) <$> jobs) st in
  nextTaskId st' = nextTaskId st + Z.of_nat (length jobs)
  /\ exists sent,
       posted st' = posted st ++ sent
       /\ length sent = length jobs
       /\ forall i worker message, sent !! i = Some (worker, message) ->
            tm_id message = nextTaskId st + Z.of_nat i
            /\ jobs !! i = Some (tm_functionData message, tm_args message)
            /\ workers st
                 !! Z.to_nat ((nextTaskId st + Z.of_nat i)
                              mod Z.of_nat (length (workers st)))
               = Some worker.
Proof.
  revert st. induction jobs as [| [fn args] jobs IH]; intros st Hst Hrun Hw Hroom.
  - cbn. split; [lia |]. exists []. rewrite app_nil_r. split; [done |].
    split; [done |]. intros i w m H. by rewrite lookup_nil in H.
  - cbn [fmap list_fmap run foldl step fst snd length] in *.
    destruct (scheduleTask_sends fn args st Hrun Hw ltac:(lia)) as (w & Hlook & E).
    rewrite E. cbn [fst].
    set (msg := {| tm_id := nextTaskId st; tm_functionData := fn; tm_args := args |}).
    set (st1 := postMessage w msg (allocate st)).
    assert (Hst1 : Consistent st1).
    { eapply Consistent_books; [| apply (allocate_Consistent st Hst); lia]. reflexivity. }
    destruct (allocate_fresh st Hst) as [Hfresh _].
    assert (Hsize : size (taskQueue st1) = S (size (taskQueue st))).
    { unfold st1, allocate. cbn. by rewrite map_size_insert_None. }
    assert (Hroom1 : Z.of_nat (size (taskQueue st1)) + Z.of_nat (length jobs)
                     <= maxQueueSize st1).
    { rewrite Hsize. change (maxQueueSize st1) with (maxQueueSize st). lia. }
    specialize (IH st1 Hst1 Hrun Hw Hroom1).
    change (foldl step st1 ?l) with (run l st1).
    cbv zeta in IH. destruct IH as (Hnext & sent & Hposted & Hlen & Hsent).
    change (nextTaskId st1) with (nextTaskId st + 1) in *.
    change (workers st1) with (workers st) in *.
    split; [rewrite Hnext; lia |].
    exists ((w, msg) :: sent). split.
    { rewrite Hposted. unfold st1, postMessage. cbn. by rewrite <- app_assoc. }
    split; [cbn; by rewrite Hlen |].
    intros [| i] w' m Hi; cbn in Hi.
    + injection Hi as <- <-. cbn. rewrite Z.add_0_r. done.
    + destruct (Hsent i w' m Hi) as (H1 & H2 & H3).
      split; [lia |]. split; [done |].
      replace (nextTaskId st + Z.of_nat (S i)) with (nextTaskId st + 1 + Z.of_nat i)
        by lia.
      done.
Qed.

(** X2: tasks are handed to the workers in turn.  When [k] tasks are
    submitted one after the other to a running pool with [W >= 1] workers
    and room for them in the queue, the task number [i] gets the id
    [nextTaskId + i] and its message is posted to the worker of index
    [(nextTaskId + i) mod W], with the function and the arguments it was
    submitted with; the id counter has advanced by [k]. *)
Theorem round_robin_dispatch opts cpus native actions
    (jobs : list (TaskFunction * list Arg)) :
  let st := run actions (construct opts cpus native) in
  let W := length (workers st) in
  let st' := run ((fun job => CallScheduleTask (fst job) (snd job) None) <$> jobs) st in
  running st = true ->
  (1 <= W)%nat ->
  Z.of_nat (size (taskQueue st)) + Z.of_nat (length jobs) <= maxQueueSize st ->
  nextTaskId st' = nextTaskId st + Z.of_nat (length jobs)
  /\ exists sent,
       posted st' = posted st ++ sent
       /\ length sent = length jobs
       /\ forall i worker message, sent !! i = Some (worker, message) ->
            tm_id message = nextTaskId st + Z.of_nat i
            /\ jobs !! i = Some (tm_functionData message, tm_args message)
            /\ workers st !! Z.to_nat ((nextTaskId st + Z.of_nat i) mod Z.of_nat W)
               = Some worker.
Proof.
  intros st W st' Hrun HW Hroom.
  apply sends_in_turn; try done. apply reachable_Consistent.
Qed.

Lemma round_robin_dispatch_witness :
  nextTaskId
    (run [CallScheduleTask (CallerFunction "() => 1") [] None;
          CallScheduleTask (CallerFunction "() => 2") [] None;
          CallScheduleTask (CallerFunction "() => 3") [] None]
       (run [CreateWorkers allCreated] (newPool 4)))
  = 3.
Proof.
  pose proof (round_robin_dispatch defaultOptions (Some 4) None
                [CreateWorkers allCreated]
                [(CallerFunction "() => 1", []); (CallerFunction "() => 2", []);
                 (CallerFunction "() => 3", [])]
                eq_refl ltac:(vm_compute; lia) ltac:(vm_compute; discriminate))
    as (H & _).
  exact H.
Defined.

Lemma scheduleTask_allocating fn args postThrows st :
  running st = true ->
  Z.of_nat (size (taskQueue st)) < maxQueueSize st ->
  scheduleTask fn args postThrows st
  = if (length (workers st) =? 0)%nat
    then (settle (nextTaskId st) (Rejected NoWorkers) (allocate st),
          OfTask (nextTaskId st))
    else match workers st
                 !! Z.to_nat (nextTaskId st mod Z.of_nat (length (workers st))),
               postThrows with
         | Some worker, None =>
             (postMessage worker
                {| tm_id := nextTaskId st; tm_functionData := fn; tm_args := args |}
                (allocate st), OfTask (nextTaskId st))
         | Some _, Some text =>
             (settle (nextTaskId st) (Rejected (Thrown text)) (allocate st),
              OfTask (nextTaskId st))
         | None, _ =>
             (settle (nextTaskId st) (Rejected (Thrown "TypeError")) (allocate st),
              OfTask (nextTaskId st))
         end.
Proof.
  intros Hrun Hroom. unfold scheduleTask. rewrite Hrun. cbn [negb].
  rewrite (proj2 (Z.leb_gt _ _) Hroom). cbn -[Z.modulo Z.to_nat].
  destruct (length (workers st) =? 0)%nat; [done |].
  destruct (workers st !! _); [destruct postThrows |]; done.
Qed.

Lemma settle_allocate_fields error st :
  Consistent st ->
  let st' := settle (nextTaskId st) (Rejected error) (allocate st) in
  nextTaskId st' = nextTaskId st + 1
  /\ taskQueue st' = taskQueue st
  /\ timers st' = timers st
  /\ posted st' = posted st
  /\ calls st'
     = calls st ++ [{| task := nextTaskId st; settlement := Rejected error;
                       registered := false; timerLive := false |}].
Proof.
  intros Hst st'. destruct (allocate_fresh st Hst) as [Hfresh Htimer].
  destruct (settle_fields (nextTaskId st) (Rejected error) (allocate st))
    as (Hc & Hq & Ht & Hp & Hn & _).
  unfold st'. rewrite Hc, Hq, Ht, Hp, Hn. unfold allocate, setTimeout. cbn.
  split; [done |]. split; [by rewrite delete_insert_id |].
  split; [| done].
  apply set_eq. intros i.
  rewrite elem_of_difference, elem_of_union, !elem_of_singleton.
  split; [tauto |]. intros Hi. split; [tauto |]. intros ->. done.
Qed.

(** X3: a submission that fails after its id was allocated.  On a
    running pool with room in the queue, [scheduleTask] with no worker
    in the pool rejects the promise with "No workers available", and
    [scheduleTask] whose [postMessage] throws rejects it with what was
    thrown.  In both cases the registry, the timers and the messages
    posted are as before the call, nothing stays pending for the task,
    and the id counter has advanced by one: the id is used up. *)
Theorem rejection_after_allocation opts cpus native actions fn args postThrows :
  let st := run actions (construct opts cpus native) in
  let res := scheduleTask fn args postThrows st in
  let error :=
    match workers st, postThrows with
    | [], _ | _, None => NoWorkers
    | _ :: _, Some text => Thrown text
    end in
  running st = true ->
  Z.of_nat (size (taskQueue st)) < maxQueueSize st ->
  workers st = [] \/ is_Some postThrows ->
  snd res = OfTask (nextTaskId st)
  /\ nextTaskId (fst res) = nextTaskId st + 1
  /\ taskQueue (fst res) = taskQueue st
  /\ timers (fst res) = timers st
  /\ posted (fst res) = posted st
  /\ calls (fst res)
     = calls st ++ [{| task := nextTaskId st; settlement := Rejected error;
                       registered := false; timerLive := false |}].
Proof.
  intros st res error Hrun Hroom Hcase.
  pose proof (reachable_Consistent opts cpus native actions) as Hst. fold st in Hst.
  assert (E : res = (settle (nextTaskId st) (Rejected error) (allocate st),
                     OfTask (nextTaskId st))).
  { unfold res. rewrite scheduleTask_allocating by done. unfold error.
    destruct (workers st) as [| w0 ws] eqn:Hws; [done |].
    destruct Hcase as [? | [text ->]]; [done |]. cbn [length Nat.eqb].
    destruct ((w0 :: ws) !! _) as [w |] eqn:Hl; [done |].
    apply lookup_ge_None in Hl.
    pose proof (Z.mod_pos_bound (nextTaskId st) (Z.of_nat (length (w0 :: ws)))
                  ltac:(cbn [length]; lia)).
    cbn [length] in *. lia. }
  rewrite E. cbn [fst snd]. split; [done |].
  by apply settle_allocate_fields.
Qed.

Lemma rejection_after_allocation_witness :
  snd (scheduleTask (CallerFunction "() => 42") [] None (newPool 4)) = OfTask 0
  /\ nextTaskId (fst (scheduleTask (CallerFunction "() => 42") [] None (newPool 4))) = 1
  /\ taskQueue (fst (scheduleTask (CallerFunction "() => 42") [] None (newPool 4))) = ∅.
Proof.
  destruct (rejection_after_allocation defaultOptions (Some 4) None []
              (CallerFunction "() => 42") [] None)
    as (H1 & H2 & H3 & _).
  - reflexivity.
  - vm_compute. reflexivity.
  - left. reflexivity.
  - split; [exact H1 |]. split; [exact H2 | exact H3].
Defined.

(** X4: the timeout of a task.  When the timer of a task that is still
    pending fires, the entry of the task leaves the registry, its promise
    is rejected with the "timed out" error that names the task and the
    configured timeout, and the other entries stay; a result message that
    arrives for the task afterwards settles nothing and only logs a
    warning, and the timer does not fire twice.  The timer of a task that
    is no longer pending does nothing. *)
Theorem timeout_rejects_pending_task opts cpus native actions id :
  let st := run actions (construct opts cpus native) in
  let st' := timerFires id st in
  (is_Some (taskQueue st !! id) ->
     taskQueue st' = delete id (taskQueue st)
     /\ timers st' = timers st ∖ {[id]}
     /\ calls st'
        = calls st ++ [{| task := id;
                          settlement := Rejected (TimedOut id (taskTimeout st));
                          registered := false; timerLive := false |}]
     /\ (forall message, rm_id message = Some id ->
           exists text,
             handleWorkerMessage message st' = warn text st')
     /\ timerFires id st' = st')
  /\ (taskQueue st !! id = None -> st' = st).
Proof.
  intros st st'.
  pose proof (reachable_Consistent opts cpus native actions) as Hst. fold st in Hst.
  split.
  - intros Hpending.
    assert (Hin : id ∈ timers st) by (by apply (timers_guard _ Hst)).
    unfold st'. rewrite (timerFires_settle id st Hst Hin).
    destruct (settle_fields id (Rejected (TimedOut id (taskTimeout st))) st)
      as (Hc & Hq & Ht & _).
    split; [done |]. split; [done |]. split; [done |]. split.
    + intros message Hid. apply handleWorkerMessage_dropped.
      intros id' _ Hid'. rewrite Hid in Hid'. injection Hid' as <-.
      rewrite Hq. apply lookup_delete_eq.
    + apply timerFires_dead. rewrite Ht.
      rewrite elem_of_difference, elem_of_singleton. tauto.
  - intros Hnone. apply timerFires_dead.
    rewrite (timers_guard _ Hst), Hnone. intros [? [=]].
Qed.

(** X5: a requested thread count of at least one is capped at the number
    of hardware threads: the pool is made for [min(requested, hardware)]
    workers, where the hardware count is 4 when its detection fails.  So
    the count never exceeds the request nor the hardware, and on a host
    that reports no CPU it is zero: no worker is ever created for such a
    pool. *)
Theorem requested_thread_count_is_capped opts cpus native requested ok :
  jsThreads opts = Some requested ->
  1 <= requested ->
  let st := construct opts cpus native in
  jsThreadCount st = Z.min requested (getAvailableHardwareThreads cpus)
  /\ jsThreadCount st <= requested
  /\ jsThreadCount st <= getAvailableHardwareThreads cpus
  /\ (cpus = None -> jsThreadCount st = Z.min requested 4)
  /\ length (workers (createWorkers allCreated st)) = Z.to_nat (jsThreadCount st)
  /\ (getAvailableHardwareThreads cpus <= 0 -> workers (createWorkers ok st) = []).
Proof.
  intros Hreq Hpos st.
  assert (E : jsThreadCount st = Z.min requested (getAvailableHardwareThreads cpus)).
  { change (jsThreadCount st) with (determineThreadCount cpus (jsThreads opts)).
    unfold determineThreadCount. rewrite Hreq.
    destruct (Z.eqb_spec requested 0); [lia |].
    destruct (Z.leb_spec requested 0); [lia |]. done. }
  split; [done |]. split; [lia |]. split; [lia |].
  split; [by intros -> |].
  split; [by apply createWorkers_length |].
  intros Hnone. unfold createWorkers.
  replace (Z.to_nat (jsThreadCount st)) with 0%nat by lia. done.
Qed.

Lemma requested_thread_count_is_capped_witness :
  jsThreadCount
    (construct {| jsThreads := Some 16; maxQueueSizeOption := None;
                  taskTimeoutOption := None |} (Some 8) None) = 8.
Proof.
  destruct (requested_thread_count_is_capped
              {| jsThreads := Some 16; maxQueueSizeOption := None;
                 taskTimeoutOption := None |} (Some 8) None 16 allCreated)
    as (H & _).
  - reflexivity.
  - lia.
  - exact H.
Defined.

End SchedulerFacts.

(* ================================================================== *)
(** ** The factory of math modules *)
(* ================================================================== *)

Module FactoryFacts.
Import MathModuleBridge MathModuleFactory.

Lemma tryModule_spec l kind fa :
  kind <> TYPESCRIPT ->
  tryModule l kind fa
  = if registers l kind
    then set_instances (<[kind := {| implementation := kind |}]> (instances fa)) fa
    else fa.
Proof.
  intros Hkind. unfold tryModule, createModule, createTypeScriptModule, isAvailable,
    registers.
  destruct kind; try done; destruct (imports l _); cbn;
    try (destruct (imports l TYPESCRIPT); reflexivity); try reflexivity.
  destruct (cppIsAvailable l) as [[|] |]; reflexivity.
Qed.

Lemma initializeModules_spec l :
  initializeModules l (factory initial)
  = if imports l TYPESCRIPT
    then
      Some
        (if registers l CPP
         then {| instances := <[CPP := {| implementation := CPP |}]>
                                (<[TYPESCRIPT := {| implementation := TYPESCRIPT |}]> ∅);
                 activeType := CPP |}
         else {| instances := <[TYPESCRIPT := {| implementation := TYPESCRIPT |}]> ∅;
                 activeType := TYPESCRIPT |})
    else None.
Proof.
  unfold initializeModules, createTypeScriptModule.
  destruct (imports l TYPESCRIPT) eqn:Hts; [| done].
  rewrite !tryModule_spec by done.
  change (registers l PYTHON) with false. change (registers l FORTRAN) with false.
  cbn iota. destruct (registers l CPP); reflexivity.
Qed.

Lemma initializeModules_Ready l fa :
  initializeModules l (factory initial) = Some fa -> Ready fa.
Proof.
  rewrite initializeModules_spec.
  destruct (imports l TYPESCRIPT); [| done].
  destruct (registers l CPP); intros [= <-].
  - split; try (vm_compute; reflexivity).
    intros t module. cbn.
    destruct t; vm_compute; intros [= <-]; reflexivity.
  - split; try (vm_compute; reflexivity).
    intros t module. cbn.
    destruct t; vm_compute; intros [= <-]; reflexivity.
Qed.

Lemma initialize_Invariant l s :
  Invariant s ->
  Invariant (fst (initialize l s))
  /\ (snd (initialize l s) = true -> isInitialized (fst (initialize l s)) = true)
  /\ (snd (initialize l s) = false ->
        fst (initialize l s) = s /\ isInitialized s = false
        /\ imports l TYPESCRIPT = false).
Proof.
  unfold Invariant, initialize. intros Hs.
  destruct (isInitialized s) eqn:Hinit.
  - cbn. rewrite Hinit. done.
  - subst s. destruct (initializeModules l (factory initial)) as [fa |] eqn:E.
    + cbn. split; [by eapply initializeModules_Ready |]. done.
    + cbn. split; [done |]. split; [done |]. intros _. split; [done |].
      split; [done |]. rewrite initializeModules_spec in E.
      by destruct (imports l TYPESCRIPT).
Qed.

Lemma better_registered fa best entry :
  fst best = TYPESCRIPT \/ has fa (fst best) = true ->
  fst (better fa best entry) = TYPESCRIPT \/ has fa (fst (better fa best entry)) = true.
Proof.
  intros Hbest. unfold better.
  destruct (Qgtb (snd entry) (snd best)); cbn; [| done].
  destruct (has fa (fst entry)) eqn:E; [by right | done].
Qed.

Lemma selectBest_registered fa results :
  selectBest fa results = TYPESCRIPT \/ has fa (selectBest fa results) = true.
Proof.
  unfold selectBest.
  generalize (entries results). intros l.
  assert (H : fst (TYPESCRIPT, results TYPESCRIPT) = TYPESCRIPT
              \/ has fa (fst (TYPESCRIPT, results TYPESCRIPT)) = true) by (by left).
  revert H. generalize (TYPESCRIPT, results TYPESCRIPT).
  induction l as [| e l IH]; intros best Hbest; [done |].
  cbn. apply IH. by apply better_registered.
Qed.

Lemma benchmarkAndSelectBest_Ready results fa :
  Ready fa -> Ready (fst (benchmarkAndSelectBest results fa)).
Proof.
  intros Hfa. unfold benchmarkAndSelectBest.
  destruct (List.filter (has fa) enumValues) as [| [] [|]]; try done.
  all: cbn [fst]; destruct Hfa; split; try done; cbn;
    destruct (selectBest_registered fa results) as [-> | H]; done.
Qed.

Lemma step_Invariant s c : Invariant s -> Invariant (step s c).
Proof.
  intros Hs. destruct c as [l | l t | l t | l t | l results]; cbn [step].
  - by apply initialize_Invariant.
  - unfold getModule.
    destruct (initialize_Invariant l s Hs) as (Hinv & _).
    destruct (initialize l s) as [s' [|]]; done.
  - unfold setActiveType.
    destruct (initialize_Invariant l s Hs) as (Hinv & Hok & _).
    destruct (initialize l s) as [s' [|]]; cbn [fst snd] in *; [| done].
    destruct (has (factory s') t) eqn:Ht; [| done].
    cbn [fst]. unfold Invariant in *. cbn. rewrite (Hok eq_refl) in *.
    destruct Hinv. split; done.
  - unfold isModuleAvailable.
    destruct (initialize_Invariant l s Hs) as (Hinv & _).
    destruct (initialize l s) as [s' [|]]; done.
  - unfold benchmark.
    destruct (initialize_Invariant l s Hs) as (Hinv & Hok & _).
    destruct (initialize l s) as [s' [|]]; cbn [fst snd] in *; [| done].
    pose proof (benchmarkAndSelectBest_Ready results (factory s')) as Hb.
    destruct (benchmarkAndSelectBest results (factory s')) as [fa best].
    cbn [fst] in *. unfold Invariant in *. cbn. rewrite (Hok eq_refl) in *.
    by apply Hb.
Qed.

Lemma run_Invariant calls : Invariant (run calls).
Proof.
  unfold run.
  assert (H : forall s, Invariant s -> Invariant (foldl step s calls)).
  { induction calls as [| c calls IH]; intros s Hs; [done |].
    cbn. apply IH. by apply step_Invariant. }
  apply H. reflexivity.
Qed.

Lemma Ready_kinds fa t :
  Ready fa -> has fa t = true -> t = TYPESCRIPT \/ t = CPP.
Proof.
  intros [_ Hp Hf _ _] Ht. destruct t; auto; congruence.
Qed.

(** X6: what the initialisation of the factory registers.  When the
    TypeScript implementation loads, [initializeModules] registers it,
    registers the C++ module exactly when its class loads and its
    [isAvailable()] answers true, and never registers the Python and
    the Fortran modules, whose classes define no [isAvailable]; the
    active kind becomes C++ when it is registered and TypeScript
    otherwise.  When the TypeScript implementation does not load,
    [initialize] is rejected and the factory stays uninitialised. *)
Theorem initialization_registers (l : Loader) :
  let cpp := imports l CPP && bool_decide (cppIsAvailable l = Some true) in
  (imports l TYPESCRIPT = true ->
     exists fa,
       initialize l initial = ({| factory := fa; isInitialized := true |}, true)
       /\ has fa TYPESCRIPT = true
       /\ has fa CPP = cpp
       /\ has fa PYTHON = false
       /\ has fa FORTRAN = false
       /\ activeType fa = (if cpp then CPP else TYPESCRIPT)
       /\ (forall t module,
             instances fa !! t = Some module -> implementation module = t))
  /\ (imports l TYPESCRIPT = false -> initialize l initial = (initial, false)).
Proof.
  intros cpp. pose proof (initializeModules_spec l) as E.
  unfold initialize. cbn [isInitialized initial factory] in *.
  split.
  - intros Hts. rewrite E, Hts. change (registers l CPP) with cpp.
    eexists. split; [reflexivity |].
    destruct cpp.
    + repeat split; try (vm_compute; reflexivity).
      intros t module. destruct t; vm_compute; intros [= <-]; reflexivity.
    + repeat split; try (vm_compute; reflexivity).
      intros t module. destruct t; vm_compute; intros [= <-]; reflexivity.
  - intros Hts. by rewrite E, Hts.
Qed.

(** X7: the factory always has a module to give.  After any sequence of
    calls of [initialize], [getModule], [setActiveType],
    [isModuleAvailable] and [benchmarkAndSelectBest], a call of
    [getModule(type)] is either rejected, which happens only when the
    factory is not initialised and the TypeScript implementation does
    not load, or fulfilled with a module, never with [undefined]: the
    instance of the class of [type] when that kind is registered, and
    otherwise the module of the active kind, which is then the
    TypeScript or the C++ module.  A request for the Python or the
    Fortran kind always gets the active module. *)
Theorem getModule_never_undefined (calls : list Call) (l : Loader)
    (type : MathModuleType) :
  let s := run calls in
  let s' := fst (getModule l type s) in
  match snd (getModule l type s) with
  | Rejects => isInitialized s = false /\ imports l TYPESCRIPT = false /\ s' = s
  | Fulfils value =>
      exists module,
        value = Some module
        /\ has (factory s') (activeType (factory s')) = true
        /\ (activeType (factory s') = TYPESCRIPT \/ activeType (factory s') = CPP)
        /\ implementation module
           = (if has (factory s') type then type else activeType (factory s'))
        /\ (type = PYTHON \/ type = FORTRAN ->
              implementation module = activeType (factory s'))
  end.
Proof.
  intros s s'. unfold s', getModule.
  pose proof (run_Invariant calls) as Hs. fold s in Hs.
  destruct (initialize_Invariant l s Hs) as (Hinv & Hok & Hfail).
  destruct (initialize l s) as [s1 [|]]; cbn [fst snd] in *.
  - unfold Invariant in Hinv. rewrite (Hok eq_refl) in Hinv.
    pose proof (ready_active _ Hinv) as Hactive.
    set (chosen := if has (factory s1) type then type else activeType (factory s1)).
    assert (Hchosen : has (factory s1) chosen = true).
    { unfold chosen. by destruct (has (factory s1) type) eqn:E. }
    unfold has in Hchosen. apply bool_decide_eq_true in Hchosen as [module Hm].
    exists module. split; [done |]. split; [done |].
    split; [by apply (Ready_kinds _ _ Hinv) |].
    split; [by apply (ready_classes _ Hinv) |].
    intros Hkind. rewrite (ready_classes _ Hinv _ _ Hm). unfold chosen.
    destruct Hkind as [-> | ->];
      [rewrite (ready_python _ Hinv) | rewrite (ready_fortran _ Hinv)]; done.
  - destruct (Hfail eq_refl) as (-> & ? & ?). done.
Qed.

(** X8: [setActiveType] changes the active kind only to a registered
    one.  After any sequence of calls, [setActiveType(type)] answers
    true exactly when the kind is registered once the factory is
    initialised; then [getCurrentType()] is [type] and the registered
    modules are as before; when it answers false the factory is left as
    the initialisation left it.  It never answers true for the Python
    or the Fortran kind. *)
Theorem setActiveType_registered_only (calls : list Call) (l : Loader)
    (type : MathModuleType) :
  let s := run calls in
  let ready := fst (initialize l s) in
  let s' := fst (setActiveType l type s) in
  match snd (setActiveType l type s) with
  | Rejects => isInitialized s = false /\ imports l TYPESCRIPT = false /\ s' = s
  | Fulfils true =>
      has (factory ready) type = true
      /\ (type = TYPESCRIPT \/ type = CPP)
      /\ getCurrentType s' = type
      /\ instances (factory s') = instances (factory ready)
      /\ isInitialized s' = true
  | Fulfils false =>
      has (factory ready) type = false
      /\ s' = ready
  end.
Proof.
  intros s ready s'. unfold s', ready, setActiveType.
  pose proof (run_Invariant calls) as Hs. fold s in Hs.
  destruct (initialize_Invariant l s Hs) as (Hinv & Hok & Hfail).
  destruct (initialize l s) as [s1 [|]]; cbn [fst snd] in *.
  - unfold Invariant in Hinv. rewrite (Hok eq_refl) in Hinv.
    destruct (has (factory s1) type) eqn:Ht; cbn [fst snd].
    + split; [done |]. split; [by apply (Ready_kinds _ _ Hinv) |].
      split; [done |]. split; [done |]. by apply Hok.
    + done.
  - destruct (Hfail eq_refl) as (-> & ? & ?). done.
Qed.

End FactoryFacts.

(* ================================================================== *)
(** ** Status, worker reports and the other batch operations *)
(* ================================================================== *)

Module PoolFacts.
Import ThreadPool Scheduler ThreadPoolStatus WorkerScript.

Lemma rejectPending_configuration (l : list (Z * Entry)) st :
  configuration (foldl rejectPending st l) = configuration st.
Proof.
  revert st. induction l as [| e l IH]; intros st; [done |].
  cbn [foldl]. rewrite IH. unfold rejectPending, clearEntryTimeout.
  by destruct (timeoutId (snd e)).
Qed.

Lemma scheduleTask_configuration fn args postThrows st :
  configuration (fst (scheduleTask fn args postThrows st)) = configuration st.
Proof.
  destruct (scheduleTask_cases fn args postThrows st)
    as [[_ ->] | [(_ & _ & ->) | [(_ & _ & e & _ & ->) | (_ & _ & _ & w & _ & ->)]]];
    done.
Qed.

Lemma scheduleBatches_configuration batches postThrows k st :
  configuration (fst (scheduleBatches batches postThrows k st)) = configuration st.
Proof.
  revert k st. induction batches as [| b batches IH]; intros k st; [done |].
  cbn [scheduleBatches].
  pose proof (scheduleTask_configuration ProcessBatch [ArgBatch b] (postThrows k) st)
    as H1.
  destruct (scheduleTask ProcessBatch [ArgBatch b] (postThrows k) st) as [st1 p].
  specialize (IH (S k) st1).
  destruct (scheduleBatches batches postThrows (S k) st1) as [st2 ps].
  cbn in *. congruence.
Qed.

Lemma createWorkers_configuration ok st :
  configuration (createWorkers ok st) = configuration st.
Proof.
  unfold createWorkers. generalize (seq 0 (Z.to_nat (jsThreadCount st))). intros l.
  revert st. induction l as [| i l IH]; intros st; [done |].
  cbn [foldl]. rewrite IH. unfold createWorker. by destruct (ok i).
Qed.

Lemma step_configuration st a : configuration (step st a) = configuration st.
Proof.
  destruct a as [fn args postThrows | message | id | | | ok | id ok | w
                 | starts ends options r postThrows | starts ends options r];
    cbn [step].
  - apply scheduleTask_configuration.
  - unfold handleWorkerMessage.
    destruct (if String.eqb _ _ then _ else _); [| done].
    destruct (taskQueue st !! _) as [tp |]; [| done].
    unfold clearEntryTimeout.
    destruct (timeoutId tp); (destruct (rm_error message) as [e |];
      [destruct (truthy e) |]); done.
  - unfold timerFires. destruct (bool_decide _); [| done].
    unfold timeoutHandler. cbn. by destruct (taskQueue st !! id).
  - unfold shutdown. destruct (running st); [| done]. cbn [negb].
    pose proof (rejectPending_configuration
                  (map_to_list (taskQueue (set_running false st)))
                  (set_running false st)) as H.
    unfold configuration in *. cbn in *. exact H.
  - unfold start. by destruct (running st).
  - apply createWorkers_configuration.
  - unfold createWorker. by destruct ok.
  - done.
  - unfold generateBezierPaths.
    destruct (running st); [| done]. cbn [negb].
    destruct (negb _); [done |]. destruct (_ =? _)%nat; [done |].
    assert (Hfb : forall st0,
              configuration (fst (bezierFallback starts ends options postThrows st0))
              = configuration st0).
    { intros st0. unfold bezierFallback.
      pose proof (scheduleBatches_configuration
                    (makeBatches starts ends options
                       (batchSize (length starts) (length (workers st0))))
                    postThrows 0%nat st0) as H.
      by destruct (scheduleBatches _ _ _ _). }
    destruct (nativePrimitive batchGenerateBezierPaths st) as [batch |]; [| apply Hfb].
    cbn zeta. destruct (batch _ _ _ _); [| done]. by rewrite Hfb.
  - unfold simulatePhysicsMovements.
    destruct (running st); [| done]. cbn [negb].
    destruct (negb _); [done |]. destruct (_ =? _)%nat; [done |].
    destruct (nativePrimitive batchSimulatePhysicsMovements st) as [batch |]; [| done].
    cbn zeta. by destruct (batch _ _ _ _).
Qed.

Lemma run_configuration actions st : configuration (run actions st) = configuration st.
Proof.
  revert st. induction actions as [| a actions IH]; intros st; [done |].
  cbn. change (foldl step ?s actions) with (run actions s).
  by rewrite IH, step_configuration.
Qed.

(** X9: what the constructor fixes stays fixed.  Whatever happens to a
    pool afterwards (submissions, results, timeouts, worker exits and
    re-creations, batch operations, shutdown and restart), the number of
    workers it was made for, the bound of its queue and the timeout of
    its tasks are those computed by the constructor: [maxQueueSize] is
    the option given, or 10000 when the option is absent or 0, and
    [taskTimeout] is the option given, or 30000 when it is absent or 0;
    the addon and the choice to use it do not change either. *)
Theorem configuration_is_fixed opts cpus native actions :
  let st := run actions (construct opts cpus native) in
  jsThreadCount st = determineThreadCount cpus (jsThreads opts)
  /\ maxQueueSize st
     = match maxQueueSizeOption opts with
       | Some 0 | None => 10000
       | Some size => size
       end
  /\ taskTimeout st
     = match taskTimeoutOption opts with
       | Some 0 | None => 30000
       | Some timeout => timeout
       end
  /\ cppModule st = native
  /\ fallbackMode st = fallbackMode (construct opts cpus native).
Proof.
  intros st.
  pose proof (run_configuration actions (construct opts cpus native)) as E.
  fold st in E. injection E as H1 H2 H3 H4 H5.
  rewrite H1, H2, H3, H4, H5.
  split; [reflexivity |].
  split; [cbn; unfold orDefault; by destruct (maxQueueSizeOption opts) as [[]|] |].
  split; [cbn; unfold orDefault; by destruct (taskTimeoutOption opts) as [[]|] |].
  done.
Qed.


(** X11: whatever a task throws, its promise is rejected.
    [serializeError] never produces a falsy value: a falsy exception and
    the empty string become "Unknown error", and any other value becomes
    an object with a name and a message.  So when the reply that the
    [catch] clause of the worker posts for a pending task reaches
    [handleWorkerMessage], the task leaves the registry, its timer is
    cancelled and its promise is rejected with the reported error; it is
    never resolved; the reply for a task that returned resolves it with
    the value returned.  The other reports of a worker, 'ready' at its start
    and the reports of uncaught errors, have a type other than 'result':
    they settle nothing and are logged as invalid messages. *)
Theorem thrown_task_is_rejected opts cpus native actions id error :
  let st := run actions (construct opts cpus native) in
  let st' := handleWorkerMessage (errorReply id error) st in
  truthy (serializeError error) = true
  /\ (is_Some (taskQueue st !! id) ->
        calls st'
        = calls st ++ [{| task := id;
                          settlement := Rejected (TaskFailed (serializeError error));
                          registered := false; timerLive := false |}]
        /\ taskQueue st' = delete id (taskQueue st)
        /\ timers st' = timers st ∖ {[id]})
  /\ (is_Some (taskQueue st !! id) ->
      forall result,
        calls (handleWorkerMessage (resultReply id result) st)
        = calls st ++ [{| task := id; settlement := Resolved result;
                          registered := false; timerLive := false |}])
  /\ handleWorkerMessage statusReport st
     = warn "Received invalid message from worker" st
  /\ handleWorkerMessage (errorReport error) st
     = warn "Received invalid message from worker" st.
Proof.
  intros st st'.
  pose proof (reachable_Consistent opts cpus native actions) as Hst. fold st in Hst.
  assert (Htruthy : truthy (serializeError error) = true).
  { destruct error as [| [|] | name message]; reflexivity. }
  split; [done |]. split; [| split; [| done]].
  - intros Hpending. unfold st'.
    rewrite (handleWorkerMessage_settle (errorReply id error) id st) by done.
    unfold messageSettlement. cbn [rm_error errorReply]. rewrite Htruthy.
    destruct (SchedulerFacts.settle_fields id
                (Rejected (TaskFailed (serializeError error))) st)
      as (Hc & Hq & Ht & _).
    done.
  - intros Hpending result.
    rewrite (handleWorkerMessage_settle (resultReply id result) id st) by done.
    unfold messageSettlement. cbn [rm_error rm_result resultReply].
    by destruct (SchedulerFacts.settle_fields id (Resolved result) st) as (Hc & _).
Qed.



(** X13: the native physics primitive and its failure.  On a running
    pool whose addon has the physics batch primitive, a call with as
    many start points as end points, at least one, enters the primitive
    once.  When the primitive returns, its paths are the result; when it
    throws, one warning is logged and the result is the straight-line
    fallback: the call does not fail.  In both cases no task is
    submitted and the registry is untouched. *)
Theorem physics_native_or_fallback (st : Pool) startPoints endPoints options
    mathRandom batch :
  running st = true ->
  length startPoints = length endPoints ->
  startPoints <> [] ->
  nativePrimitive batchSimulatePhysicsMovements st = Some batch ->
  let res := simulatePhysicsMovements startPoints endPoints options mathRandom st in
  nativeCalls (fst res) = S (nativeCalls st)
  /\ books (fst res) = books st
  /\ posted (fst res) = posted st
  /\ match batch startPoints endPoints options
             (resolveSeed (physicsSeed options) mathRandom) with
     | inr paths =>
         snd res = Returns (pathValue <$> paths)
         /\ warnings (fst res) = warnings st
     | inl _ =>
         snd res
         = Returns (pathValue <$> zip_with (linearPath options) startPoints endPoints)
         /\ warnings (fst res)
            = warnings st ++ ["C++ batch physics simulation failed, falling back to JS"]
     end.
Proof.
  intros Hrun Hlen Hne Hnative res.
  unfold res, simulatePhysicsMovements. rewrite Hrun. cbn [negb].
  rewrite (proj2 (Nat.eqb_eq _ _) Hlen). cbn [negb].
  destruct startPoints as [| p ps]; [done |]. cbn [length Nat.eqb].
  rewrite Hnative. cbn zeta.
  destruct (batch _ _ _ _); done.
Qed.

Lemma physics_native_or_fallback_witness :
  snd (simulatePhysicsMovements [origin] [target] somePhysics 0%float
         (construct defaultOptions (Some 4) (Some brokenPhysicsAddon)))
  = Returns (pathValue <$> zip_with (linearPath somePhysics) [origin] [target]).
Proof.
  pose proof (physics_native_or_fallback
                (construct defaultOptions (Some 4) (Some brokenPhysicsAddon))
                [origin] [target] somePhysics 0%float
                (fun _ _ _ _ => inl (Thrown "native failure"))
                eq_refl eq_refl ltac:(discriminate) eq_refl)
    as (_ & _ & _ & H).
  exact (proj1 H).
Defined.

Local Open Scope float_scope.

Lemma map_seq_from {A} (f : nat -> A) a n :
  List.map (fun j => f (a + j)%nat) (seq 0 n) = List.map f (seq a n).
Proof.
  revert a. induction n as [| n IH]; intros a; [done |].
  cbn [seq List.map]. f_equal; [f_equal; lia |].
  rewrite <- seq_shift, map_map, <- (IH (S a)).
  apply map_ext. intros j. f_equal. lia.
Qed.

Lemma jitterProcess_draws mathRandom n first :
  jitterX (jitterProcess mathRandom n first) ++ jitterY (jitterProcess mathRandom n first)
  = List.map (fun k => mathRandom k - 0.5) (seq first (2 * n)).
Proof.
  unfold jitterProcess. cbn [jitterX jitterY].
  replace (2 * n)%nat with (n + n)%nat by lia.
  rewrite seq_app, map_app. f_equal.
  - apply (map_seq_from (fun k => mathRandom k - 0.5)).
  - apply (map_seq_from (fun k => mathRandom k - 0.5)).
Qed.

Lemma ouFallback_draws mathRandom n c drawn :
  concat (List.map
            (fun i =>
               let p := jitterProcess mathRandom n (drawn + i * (2 * n)) in
               jitterX p ++ jitterY p)
            (seq 0 c))
  = List.map (fun k => mathRandom k - 0.5) (seq drawn (c * (2 * n))).
Proof.
  induction c as [| c IH].
  - done.
  - rewrite seq_S, map_app, concat_app, IH. cbn [List.map concat].
    rewrite app_nil_r, jitterProcess_draws.
    replace (S c * (2 * n))%nat with (c * (2 * n) + 2 * n)%nat by lia.
    rewrite seq_app, map_app. done.
Qed.

(** X14: [generateOUProcesses].  On a pool that is not running it
    throws; with a [count] or a [points] of zero or less it returns the
    empty array.  Otherwise, when the native primitive is not used, it
    returns [count] processes of [points] x-offsets and [points]
    y-offsets each, and the offsets, read process by process, x before
    y, are the successive values of [Math.random()] minus 0.5: each
    offset comes from a draw of its own.  The pool is left as it is. *)
Theorem ou_processes_fallback (st : Pool) options primitive mathRandom :
  let res := generateOUProcesses options primitive mathRandom st in
  let n := Z.to_nat (points options) in
  let c := Z.to_nat (count options) in
  (running st = false -> res = (st, OUThrows NotRunning))
  /\ (running st = true -> (count options <= 0 \/ points options <= 0)%Z ->
        res = (st, OUReturns []))
  /\ (running st = true ->
      (1 <= count options < 4294967296)%Z ->
      (1 <= points options < 4294967296)%Z ->
      fallbackMode st = true \/ cppModule st = None \/ primitive = None ->
      exists processes,
        res = (st, OUReturns processes)
        /\ length processes = c
        /\ Forall (fun p => length (jitterX p) = n /\ length (jitterY p) = n) processes
        /\ concat ((fun p => jitterX p ++ jitterY p) <$> processes)
           = (fun k => mathRandom k - 0.5) <$> seq 0 (c * (2 * n))).
Proof.
  intros res n c. unfold res, generateOUProcesses.
  split; [by intros -> |]. split.
  - intros -> Hle. cbn [negb].
    destruct Hle as [H | H].
    + by rewrite (proj2 (Z.leb_le _ _) H).
    + rewrite (proj2 (Z.leb_le (points options) 0) H). by rewrite orb_true_r.
  - intros -> Hc Hp Hnative. cbn [negb].
    rewrite (proj2 (Z.leb_gt (count options) 0)) by lia.
    rewrite (proj2 (Z.leb_gt (points options) 0)) by lia. cbn [orb].
    assert (E : (if fallbackMode st then None
                 else match cppModule st with Some _ => primitive | None => None end)
                = None).
    { destruct Hnative as [-> | [-> | ->]]; [done | | ].
      - by destruct (fallbackMode st).
      - destruct (fallbackMode st); [done |]. by destruct (cppModule st). }
    rewrite E. unfold ouFallback.
    rewrite (proj2 (Z.leb_gt 4294967296 (count options))) by lia.
    rewrite (proj2 (Z.leb_gt 4294967296 (points options))) by lia.
    fold n c. eexists. split; [reflexivity |].
    split; [by rewrite length_map, length_seq |].
    split.
    + apply Forall_forall. intros p Hp'.
      apply list_elem_of_In, in_map_iff in Hp' as (i & <- & _).
      unfold jitterProcess. cbn. by rewrite !length_map, !length_seq.
    + change (fmap (M := list) ?f ?l) with (List.map f l).
      rewrite map_map. apply (ouFallback_draws mathRandom n c 0).
Qed.

Lemma mul_nan_l x : nan * x = nan.
Proof.
  apply Prim2SF_inj. rewrite mul_spec. change (Prim2SF nan) with S754_nan.
  reflexivity.
Qed.

Lemma mul_nan_r x : x * nan = nan.
Proof.
  apply Prim2SF_inj. rewrite mul_spec. change (Prim2SF nan) with S754_nan.
  unfold SF64mul, SFmul. destruct (Prim2SF x); reflexivity.
Qed.

Lemma add_nan_l x : nan + x = nan.
Proof.
  apply Prim2SF_inj. rewrite add_spec. change (Prim2SF nan) with S754_nan.
  reflexivity.
Qed.

Lemma add_nan_r x : x + nan = nan.
Proof.
  apply Prim2SF_inj. rewrite add_spec. change (Prim2SF nan) with S754_nan.
  unfold SF64add, SFadd. destruct (Prim2SF x); reflexivity.
Qed.

Lemma bezierPoint_nan start cp1 cp2 end_ :
  bezierPoint start cp1 cp2 end_ nan = {| x := nan; y := nan |}.
Proof.
  unfold bezierPoint. cbv zeta.
  change (1 - nan) with nan. change (nan * nan) with nan.
  change (3 * nan) with nan. change (nan * nan) with nan.
  by rewrite !mul_nan_l, !add_nan_l.
Qed.

(** X15: the path of [generateBezierPath].  The path has [numPoints]
    points.  With an explicit seed it does not depend on what
    [Math.random()] returns.  With [numPoints = 1] the parameter of the
    only point is [0 / 0]: the path is one point whose coordinates are
    both NaN, whatever the end points and the options; with
    [numPoints = 0] the path is empty. *)
Theorem bezier_path_shape mathRandom start end_ options :
  length (generateBezierPath mathRandom start end_ options) = numPoints options
  /\ (forall otherRandom,
        is_Some (seed options) ->
        generateBezierPath mathRandom start end_ options
        = generateBezierPath otherRandom start end_ options)
  /\ (numPoints options = 1%nat ->
        generateBezierPath mathRandom start end_ options = [{| x := nan; y := nan |}])
  /\ (numPoints options = 0%nat ->
        generateBezierPath mathRandom start end_ options = []).
Proof.
  split; [| split; [| split]].
  - unfold generateBezierPath. cbv zeta. by rewrite length_map, length_seq.
  - intros otherRandom [s Hs]. unfold generateBezierPath. by rewrite Hs.
  - intros Hone. unfold generateBezierPath. cbv zeta. rewrite Hone.
    cbn [seq List.map].
    change (JS.of_nat 0 / (JS.of_nat 1 - 1)) with nan.
    by rewrite bezierPoint_nan.
  - intros Hzero. unfold generateBezierPath. cbv zeta. by rewrite Hzero.
Qed.

Local Close Scope float_scope.

End PoolFacts.

(* ================================================================== *)
(** ** The TypeScript math module, the OU process and the threading
       index *)
(* ================================================================== *)

Module MathFacts.
Import ThreadPool.
Local Open Scope float_scope.

(** X16: the curve of [generateBezierCurve].  The curve has [numPoints]
    points; with [numPoints = 1] its only point has the parameter
    [0 / 0] and both its coordinates are NaN, whatever the control
    points.  The path that the thread pool computes for a pair of points
    in its JavaScript fallback is such a curve: it is what
    [generateBezierCurve] returns for the same end points, the same
    number of points and some pair of control points. *)
Theorem bezier_curve_points p0 p1 p2 p3 numPoints :
  length (TypeScriptMathModule.generateBezierCurve p0 p1 p2 p3 numPoints) = numPoints
  /\ (numPoints = 1%nat ->
        TypeScriptMathModule.generateBezierCurve p0 p1 p2 p3 numPoints
        = [{| x := nan; y := nan |}])
  /\ (forall mathRandom options,
        exists cp1 cp2,
          generateBezierPath mathRandom p0 p3 options
          = TypeScriptMathModule.generateBezierCurve p0 cp1 cp2 p3
              (ThreadPool.numPoints options)).
Proof.
  unfold TypeScriptMathModule.generateBezierCurve.
  split; [by rewrite length_map, length_seq |]. split.
  - intros ->. cbn [seq List.map].
    change (JS.of_nat 0 / (JS.of_nat 1 - 1)) with nan.
    by rewrite PoolFacts.bezierPoint_nan.
  - intros mathRandom options. unfold generateBezierPath. cbv zeta.
    eexists _, _. reflexivity.
Qed.

Lemma simulate_length steps m k c h s end_ b :
  (length (TypeScriptMathModule.simulate steps m k c h s end_ b) <= steps)%nat.
Proof.
  revert b. induction steps as [| steps IH]; intros b; [done |].
  cbn [TypeScriptMathModule.simulate].
  destruct (TypeScriptMathModule.advance m k c h s end_ b) as [b' stop].
  destruct stop; cbn [length]; [lia |]. specialize (IH b'). lia.
Qed.

Lemma simulate_first steps m k c h s end_ b :
  (1 <= steps)%nat ->
  (1 <= length (TypeScriptMathModule.simulate steps m k c h s end_ b))%nat.
Proof.
  intros Hs. destruct steps as [| steps]; [lia |].
  cbn [TypeScriptMathModule.simulate].
  destruct (TypeScriptMathModule.advance m k c h s end_ b) as [b' stop].
  cbn [length]. lia.
Qed.

(** X17: the length of a simulated movement.  The path of
    [simulatePhysicsMovement] starts with the start point and has at
    most [maxSteps + 1] points, where [maxSteps] is 1000 when the
    options do not give it; with a [maxSteps] of zero or less the path
    is the start point alone, and with a [maxSteps] of one or more it
    has at least two points. *)
Theorem physics_movement_length start end_ options :
  let path := TypeScriptMathModule.simulatePhysicsMovement start end_ options in
  let maxSteps := default 1000%Z (TypeScriptMathModule.maxSteps options) in
  head path = Some start
  /\ (1 <= length path)%nat
  /\ (Z.of_nat (length path) <= Z.max 0 maxSteps + 1)%Z
  /\ ((maxSteps <= 0)%Z -> path = [start])
  /\ ((1 <= maxSteps)%Z -> (2 <= length path)%nat).
Proof.
  intros path maxSteps. unfold path, TypeScriptMathModule.simulatePhysicsMovement.
  cbv zeta. fold maxSteps.
  assert (Hstart : {| x := x start; y := y start |} = start) by (by destruct start).
  rewrite !Hstart. cbn [head length].
  match goal with
  | |- context [TypeScriptMathModule.simulate ?n ?m ?k ?c ?h ?s ?e ?b] =>
      pose proof (simulate_length n m k c h s e b) as Hle;
      pose proof (simulate_first n m k c h s e b) as Hge;
      set (rest := TypeScriptMathModule.simulate n m k c h s e b) in *
  end.
  split; [done |]. split; [lia |]. split; [lia |]. split.
  - intros Hz. subst rest. replace (Z.to_nat maxSteps) with 0%nat by lia. done.
  - intros Hp. assert (1 <= length rest)%nat by (apply Hge; lia). lia.
Qed.

(** X18: the time values of a velocity profile.  [generateTimeValues]
    returns [max(2, numPoints)] values, the first being 0 and the last
    1: with a [numPoints] of 2 or less the values are 0 and 1, so the
    result has two values even when one point, or none, was asked for.
    A profile other than 'minimum_jerk', 'asymmetric' and 'sigmoid'
    gives the linear values [i / (numPoints - 1)]. *)
Theorem time_values_shape pow exp numPoints velocityProfile :
  let values :=
    TypeScriptMathModule.generateTimeValues pow exp numPoints velocityProfile in
  length values = Z.to_nat (Z.max 2 numPoints)
  /\ head values = Some 0
  /\ last values = Some 1
  /\ ((numPoints <= 2)%Z -> values = [0; 1])
  /\ (velocityProfile <> "minimum_jerk" -> velocityProfile <> "asymmetric" ->
      velocityProfile <> "sigmoid" ->
      values
      = [0] ++ List.map (fun i => JS.of_nat i / JS.of_Z (numPoints - 1))
                 (seq 1 (Z.to_nat (numPoints - 2))) ++ [1]).
Proof.
  intros values. unfold values, TypeScriptMathModule.generateTimeValues.
  split; [| split; [| split; [| split]]].
  - rewrite !length_app, length_map, length_seq. cbn [length]. lia.
  - done.
  - by rewrite app_assoc, last_snoc.
  - intros Hle. replace (Z.to_nat (numPoints - 2)) with 0%nat by lia. done.
  - intros H1 H2 H3. do 2 f_equal. apply map_ext. intros i.
    unfold TypeScriptMathModule.adjusted.
    apply String.eqb_neq in H1, H2, H3. by rewrite H1, H2, H3.
Qed.

Lemma jitterLoop_length log cos sin mathRandom theta sigma dt steps drawn px py :
  length (TypeScriptMathModule.jitterLoop log cos sin mathRandom theta sigma dt
            steps drawn px py) = steps.
Proof.
  revert drawn px py. induction steps as [| steps IH]; intros drawn px py; [done |].
  cbn [TypeScriptMathModule.jitterLoop]. cbv zeta. cbn [length]. by rewrite IH.
Qed.

(** X19: the arrays of [generateOrnsteinUhlenbeckProcess].  For a number
    of points from 0 to [2^32 - 1] both arrays start with 0 and have
    [max(1, points)] values: they are never empty, and a call for no
    point returns one value in each.  For a negative number of points,
    or one of [2^32] or more, the call throws a RangeError before any
    draw. *)
Theorem ou_jitter_arrays log cos sin mathRandom points theta sigma dt :
  let res :=
    TypeScriptMathModule.generateOrnsteinUhlenbeckProcess log cos sin mathRandom
      points theta sigma dt in
  ((0 <= points < 4294967296)%Z ->
     exists restX restY,
       res = TypeScriptMathModule.JittersReturn (0 :: restX) (0 :: restY)
       /\ length (0 :: restX) = Z.to_nat (Z.max 1 points)
       /\ length (0 :: restY) = Z.to_nat (Z.max 1 points))
  /\ (points = 0%Z -> res = TypeScriptMathModule.JittersReturn [0] [0])
  /\ ((points < 0 \/ 4294967296 <= points)%Z ->
        res = TypeScriptMathModule.JittersThrow
                (Thrown "RangeError: Invalid array length")).
Proof.
  intros res. unfold res, TypeScriptMathModule.generateOrnsteinUhlenbeckProcess.
  split; [| split].
  - intros Hp.
    rewrite (proj2 (Z.ltb_ge points 0)) by lia.
    rewrite (proj2 (Z.leb_gt 4294967296 points)) by lia. cbn [orb]. cbv zeta.
    eexists _, _. split; [reflexivity |].
    cbn [length]. rewrite !length_map, !jitterLoop_length. lia.
  - by intros ->.
  - intros [H | H].
    + by rewrite (proj2 (Z.ltb_lt points 0) H).
    + rewrite (proj2 (Z.leb_le 4294967296 points) H). by rewrite orb_true_r.
Qed.

Lemma nextLoop_app log cos random a b p :
  OUProcess.nextLoop log cos random (a + b) p
  = let '(p1, v1) := OUProcess.nextLoop log cos random a p in
    let '(p2, v2) := OUProcess.nextLoop log cos random b p1 in
    (p2, v1 ++ v2).
Proof.
  revert p. induction a as [| a IH]; intros p.
  - cbn. by destruct (OUProcess.nextLoop log cos random b p).
  - cbn [Nat.add OUProcess.nextLoop].
    destruct (OUProcess.next log cos random p) as [p0 v0].
    rewrite IH.
    destruct (OUProcess.nextLoop log cos random a p0) as [p1 v1].
    by destruct (OUProcess.nextLoop log cos random b p1) as [p2 v2].
Qed.

Lemma last_cons_default {A} (a : A) l d d' :
  List.last (a :: l) d = List.last (a :: l) d'.
Proof.
  revert a. induction l as [| b l IH]; intros a; [done |].
  change (List.last (a :: b :: l) d) with (List.last (b :: l) d).
  change (List.last (a :: b :: l) d') with (List.last (b :: l) d'). apply IH.
Qed.

Lemma nextLoop_spec log cos random n p :
  let '(p', values) := OUProcess.nextLoop log cos random n p in
  length values = n
  /\ OUProcess.drawn p' = (OUProcess.drawn p + 2 * n)%nat
  /\ OUProcess.params p' = OUProcess.params p
  /\ OUProcess.getValue p' = List.last values (OUProcess.currentValue p).
Proof.
  revert p. induction n as [| n IH]; intros p.
  - cbn. repeat split; lia.
  - cbn [OUProcess.nextLoop].
    destruct (OUProcess.next log cos random p) as [p0 v0] eqn:E0.
    specialize (IH p0).
    destruct (OUProcess.nextLoop log cos random n p0) as [p1 v1].
    destruct IH as (Hl & Hd & Hp & Hv).
    unfold OUProcess.next in E0. injection E0 as <- <-.
    cbn [OUProcess.drawn OUProcess.params OUProcess.currentValue] in *.
    split; [cbn; lia |]. split; [lia |]. split; [done |].
    rewrite Hv. destruct v1 as [| v v1]; [reflexivity |].
    change (List.last (?a :: v :: v1) ?d) with (List.last (v :: v1) d).
    apply last_cons_default.
Qed.

(** X20: [nextN] of an OU process.  [nextN(steps)] returns [steps]
    values (none for a [steps] of zero or less), makes two draws of the
    random function for each and leaves the parameters as they are;
    afterwards [getValue()] is the last value returned, or the value
    before the call when there is none.  Two calls in a row return, one
    after the other, the values of a single call for the sum of the
    steps, and leave the process in the same state. *)
Theorem nextN_values log cos random steps more (p : OUProcess.Process) :
  let res := OUProcess.nextN log cos random steps p in
  length (snd res) = Z.to_nat steps
  /\ OUProcess.drawn (fst res) = (OUProcess.drawn p + 2 * Z.to_nat steps)%nat
  /\ OUProcess.params (fst res) = OUProcess.params p
  /\ OUProcess.getValue (fst res) = List.last (snd res) (OUProcess.getValue p)
  /\ ((0 <= steps)%Z -> (0 <= more)%Z ->
        OUProcess.nextN log cos random (steps + more) p
        = (fst (OUProcess.nextN log cos random more (fst res)),
           snd res ++ snd (OUProcess.nextN log cos random more (fst res)))).
Proof.
  intros res. unfold res, OUProcess.nextN.
  pose proof (nextLoop_spec log cos random (Z.to_nat steps) p) as H.
  destruct (OUProcess.nextLoop log cos random (Z.to_nat steps) p) as [p1 v1] eqn:E1.
  cbn [fst snd]. destruct H as (H1 & H2 & H3 & H4).
  split; [done |]. split; [done |]. split; [done |]. split; [done |].
  intros Hs Hm. rewrite Z2Nat.inj_add by done. rewrite nextLoop_app, E1.
  by destruct (OUProcess.nextLoop log cos random (Z.to_nat more) p1).
Qed.

Local Close Scope float_scope.

End MathFacts.

Module ThreadingFacts.
Import ThreadPool Scheduler Chunks Threading.

Lemma scheduleTasks_run n st :
  fst (scheduleTasks n st)
  = run ((fun job : TaskFunction * list Arg => CallScheduleTask (fst job) (snd job) None)
           <$> replicate n (itemTask, [])) st.
Proof.
  revert st. induction n as [| n IH]; intros st; [done |].
  cbn [scheduleTasks replicate fmap list_fmap run foldl step fst snd].
  destruct (scheduleTask itemTask [] None st) as [st1 p].
  specialize (IH st1). destruct (scheduleTasks n st1) as [st2 ps].
  cbn [fst] in *. exact IH.
Qed.

Lemma scheduleTasks_length n st : length (snd (scheduleTasks n st)) = n.
Proof.
  revert st. induction n as [| n IH]; intros st; [done |].
  cbn [scheduleTasks].
  destruct (scheduleTask itemTask [] None st) as [st1 p].
  specialize (IH st1). destruct (scheduleTasks n st1) as [st2 ps].
  cbn in *. by rewrite IH.
Qed.

(** X21: [parallelMap] does not send the items.  For an empty array it
    returns the empty array and submits nothing.  Otherwise it submits
    one task per item, and what is posted to the workers depends on the
    number of items only: two arrays of the same length lead to the same
    messages.  On a running pool with workers and room in the queue,
    every message carries the text [() => fn(item)] as its function and
    no argument, and the ids of the messages are consecutive. *)
Theorem parallel_map_sends_no_item {T} opts cpus native actions
    (items others : list T) :
  let st := run actions (construct opts cpus native) in
  let res := parallelMap items st in
  parallelMap (@nil T) st = (st, Returns [])
  /\ (length others = length items -> parallelMap others st = res)
  /\ (items <> [] ->
      exists promises, snd res = Awaits promises /\ length promises = length items)
  /\ (running st = true ->
      (1 <= length (workers st))%nat ->
      (Z.of_nat (size (taskQueue st)) + Z.of_nat (length items) <= maxQueueSize st) ->
      exists sent,
        posted (fst res) = posted st ++ sent
        /\ length sent = length items
        /\ forall i worker message, sent !! i = Some (worker, message) ->
             tm_id message = nextTaskId st + Z.of_nat i
             /\ tm_functionData message = CallerFunction "() => fn(item)"
             /\ tm_args message = []).
Proof.
  intros st res.
  pose proof (reachable_Consistent opts cpus native actions) as Hst. fold st in Hst.
  split; [done |]. split; [| split].
  - intros Hlen. unfold res, parallelMap.
    destruct others as [| o others], items as [| i items]; try done.
    by rewrite Hlen.
  - intros Hne. unfold res, parallelMap. destruct items as [| i items]; [done |].
    pose proof (scheduleTasks_length (length (i :: items)) st) as Hl.
    destruct (scheduleTasks (length (i :: items)) st) as [st1 ps].
    exists ps. done.
  - intros Hrun Hw Hroom.
    assert (E : fst res = fst (scheduleTasks (length items) st)).
    { unfold res, parallelMap. destruct items as [| i items]; [done |].
      by destruct (scheduleTasks (length (i :: items)) st). }
    rewrite E, scheduleTasks_run.
    destruct (SchedulerFacts.sends_in_turn (replicate (length items) (itemTask, []))
                st Hst Hrun Hw)
      as (_ & sent & Hposted & Hlen & Hsent).
    { by rewrite length_replicate. }
    exists sent. split; [done |]. rewrite length_replicate in Hlen.
    split; [done |]. intros i w m Hi.
    destruct (Hsent i w m Hi) as (Hid & Hjob & _).
    split; [done |].
    apply lookup_replicate in Hjob as [[= Hf Ha] _]. done.
Qed.

(** X22: the chunks of [parallelChunk].  For a chunk size of one or more
    the items are cut into [ceil(n / chunkSize)] chunks that are
    contiguous and in order, so that their concatenation is the array of
    the items; no chunk is empty and none is longer than the chunk size;
    one task is submitted per chunk.  An empty array returns the empty
    array at once, whatever the chunk size.  With a chunk size of zero or
    less and at least one item the loop that makes the chunks does not
    end. *)
Theorem parallel_chunk_partition {T} (items : list T) (chunkSize : Z) (st : Pool) :
  parallelChunk (@nil T) chunkSize st = Some (st, Returns [])
  /\ (items <> [] -> chunkSize <= 0 -> parallelChunk items chunkSize st = None)
  /\ (items <> [] -> 1 <= chunkSize ->
      exists cs,
        chunks items chunkSize = Some cs
        /\ parallelChunk items chunkSize st = Some (parallelMap cs st)
        /\ concat cs = items
        /\ length cs = ceilDiv (length items) (Z.to_nat chunkSize)
        /\ Forall (fun c => c <> [] /\ Z.of_nat (length c) <= chunkSize) cs
        /\ forall k c, cs !! k = Some c ->
             c = take (Z.to_nat chunkSize) (drop (k * Z.to_nat chunkSize) items)).
Proof.
  split; [done |]. split.
  - intros Hne Hle. unfold parallelChunk, chunks.
    destruct items; [done |]. by rewrite (proj2 (Z.leb_le chunkSize 0) Hle).
  - intros Hne Hpos. unfold parallelChunk, chunks.
    rewrite (proj2 (Z.leb_gt chunkSize 0)) by lia.
    set (size := Z.to_nat chunkSize).
    assert (Hsize : (1 <= size)%nat) by (unfold size; lia).
    eexists. split; [reflexivity |].
    split; [by destruct items |].
    split; [by apply concat_batches |].
    split; [unfold batchOffsets; by rewrite !length_map, length_seq |].
    split.
    + apply Forall_forall. intros c Hc.
      apply list_elem_of_In, in_map_iff in Hc as (i & <- & Hi).
      unfold batchOffsets in Hi. apply in_map_iff in Hi as (k & <- & Hk).
      apply in_seq in Hk as [_ Hk]. cbn in Hk.
      assert (HN : (1 <= length items)%nat) by (destruct items; [done | cbn; lia]).
      pose proof (ceilDiv_tight (length items) size Hsize HN) as Htight.
      unfold slice. split.
      * intros Hnil. apply (f_equal length) in Hnil.
        rewrite length_take, length_drop in Hnil. cbn in Hnil. nia.
      * rewrite length_take, length_drop. lia.
    + intros k c Hk. unfold batchOffsets in Hk.
      change (List.map ?f ?l) with (f <$> l) in Hk.
      rewrite !list_lookup_fmap in Hk.
      destruct (seq 0 _ !! k) as [j |] eqn:Hj; [| done].
      apply lookup_seq in Hj as [-> _]. cbn in Hk. injection Hk as <-.
      unfold slice. f_equal. lia.
Qed.

End ThreadingFacts.

(* ================================================================== *)
(** ** Accounting of the tasks, stopped pools and restarts *)
(* ================================================================== *)

Module AccountingFacts.
Import ThreadPool Scheduler ThreadPoolStatus.

Lemma Accounted_books st st' : books st' = books st -> Accounted st -> Accounted st'.
Proof.
  unfold books, Accounted. intros [= Hq _ Hc Hn _]. by rewrite Hq, Hc, Hn.
Qed.

Lemma allocate_Accounted st : Accounted st -> Accounted (allocate st).
Proof.
  intros (Hpos & Hall & Hlow). unfold Accounted, allocate, setTimeout. cbn.
  split; [lia |]. split.
  - intros id Hid.
    destruct (decide (id = nextTaskId st)) as [-> | Hne].
    + left. rewrite lookup_insert_eq. eauto.
    + rewrite lookup_insert_ne by done. apply Hall. lia.
  - intros id Hid.
    destruct (decide (id = nextTaskId st)) as [-> | Hne]; [done |].
    rewrite lookup_insert_ne in Hid by done. by apply Hlow.
Qed.

Lemma settle_Accounted id s st :
  is_Some (taskQueue st !! id) -> Accounted st -> Accounted (settle id s st).
Proof.
  intros Hpending (Hpos & Hall & Hlow). unfold Accounted.
  destruct (SchedulerFacts.settle_fields id s st) as (Hc & Hq & _ & _ & Hn & _).
  rewrite Hc, Hq, Hn. split; [done |]. split.
  - intros id' Hid'. rewrite fmap_app, elem_of_app. cbn.
    destruct (decide (id' = id)) as [-> | Hne].
    + right. right. by left.
    + rewrite lookup_delete_ne by done.
      destruct (Hall id' Hid'); [by left | by right; left].
  - intros id' Hid'. rewrite fmap_app, elem_of_app in Hid'. cbn in Hid'.
    destruct (decide (id' = id)) as [-> | Hne]; [apply Hlow; by left |].
    rewrite lookup_delete_ne in Hid' by done.
    destruct Hid' as [? | [? | Hin]]; [apply Hlow; by left | apply Hlow; by right |].
    apply list_elem_of_singleton in Hin. done.
Qed.

Lemma scheduleTask_Accounted fn args postThrows st :
  Accounted st -> Accounted (fst (scheduleTask fn args postThrows st)).
Proof.
  intros Hst.
  destruct (scheduleTask_cases fn args postThrows st)
    as [[_ ->] | [(_ & _ & ->) | [(_ & _ & e & _ & ->) | (_ & _ & _ & w & _ & ->)]]];
    cbn [fst]; try done.
  - apply settle_Accounted; [apply allocate_lookup | by apply allocate_Accounted].
  - eapply Accounted_books; [| by apply allocate_Accounted]. reflexivity.
Qed.

Lemma scheduleBatches_Accounted batches postThrows k st :
  Accounted st -> Accounted (fst (scheduleBatches batches postThrows k st)).
Proof.
  revert k st. induction batches as [| b batches IH]; intros k st Hst; [done |].
  cbn [scheduleBatches].
  pose proof (scheduleTask_Accounted ProcessBatch [ArgBatch b] (postThrows k) st Hst)
    as H1.
  destruct (scheduleTask _ _ _ st) as [st1 p]. cbn [fst] in H1.
  specialize (IH (S k) st1 H1).
  destruct (scheduleBatches batches postThrows (S k) st1) as [st2 ps]. done.
Qed.

Lemma generateBezierPaths_Accounted startPoints endPoints options mathRandom
    postThrows st :
  Accounted st ->
  Accounted
    (fst (generateBezierPaths startPoints endPoints options mathRandom postThrows st)).
Proof.
  intros Hst. unfold generateBezierPaths.
  destruct (running st); cbn [negb]; [| done].
  destruct (length startPoints =? length endPoints)%nat; cbn [negb]; [| done].
  destruct (length startPoints =? 0)%nat; [done |].
  assert (Hfb : forall st0, Accounted st0 ->
            Accounted (fst (bezierFallback startPoints endPoints options postThrows st0))).
  { intros st0 H0. unfold bezierFallback.
    pose proof (scheduleBatches_Accounted
                  (makeBatches startPoints endPoints options
                     (batchSize (length startPoints) (length (workers st0))))
                  postThrows 0%nat st0 H0) as H.
    by destruct (scheduleBatches _ _ _ _). }
  destruct (nativePrimitive _ st) as [batch |]; [| by apply Hfb].
  cbn zeta. destruct (batch _ _ _ _).
  - apply Hfb. eapply Accounted_books; [| exact Hst]. reflexivity.
  - eapply Accounted_books; [| exact Hst]. reflexivity.
Qed.

Lemma shutdown_Accounted st :
  Consistent st -> Accounted st -> Accounted (fst (shutdown st)).
Proof.
  intros Hc (Hpos & Hall & Hlow). destruct (running st) eqn:Hrun.
  - rewrite shutdown_running by done. unfold Accounted. cbn.
    assert (Hcalls : forall id,
              id ∈ task <$> (shutdownCall (taskQueue st) <$> map_to_list (taskQueue st))
              <-> is_Some (taskQueue st !! id)).
    { intros id. rewrite <- list_fmap_compose, list_elem_of_fmap. split.
      - intros ([i tp] & -> & Hin). apply elem_of_map_to_list in Hin. cbn.
        destruct (entries_named _ Hc _ _ Hin) as [-> _]. eauto.
      - intros [tp Htp]. exists (id, tp). split.
        + cbn. by destruct (entries_named _ Hc _ _ Htp) as [-> _].
        + by apply elem_of_map_to_list. }
    split; [done |]. split.
    + intros id Hid. right. rewrite fmap_app, elem_of_app, Hcalls.
      destruct (Hall id Hid); [by right | by left].
    + intros id [[? Hid] | Hid]; [by rewrite lookup_empty in Hid |].
      rewrite fmap_app, elem_of_app, Hcalls in Hid.
      destruct Hid; apply Hlow; [by right | by left].
  - by rewrite shutdown_stopped.
Qed.

Lemma step_Accounted st a :
  Consistent st -> Accounted st -> Accounted (step st a).
Proof.
  intros Hc Hst.
  destruct a as [fn args pt | message | taskId | | | ok | id ok | w
                | sp ep opt mr pt | sp ep opt mr]; cbn [step].
  - by apply scheduleTask_Accounted.
  - destruct (String.eqb (rm_type message) "result") eqn:Hty.
    + apply String.eqb_eq in Hty.
      destruct (rm_id message) as [id |] eqn:Hid.
      * destruct (taskQueue st !! id) as [tp |] eqn:Htp.
        -- rewrite (handleWorkerMessage_settle message id) by eauto.
           apply settle_Accounted; eauto.
        -- destruct (handleWorkerMessage_dropped message st) as [text ->].
           { intros i _ Hi. congruence. }
           eapply Accounted_books; [| exact Hst]; reflexivity.
      * destruct (handleWorkerMessage_dropped message st) as [text ->].
        { intros i _ Hi. congruence. }
        eapply Accounted_books; [| exact Hst]; reflexivity.
    + destruct (handleWorkerMessage_dropped message st) as [text ->].
      { intros i Hi. rewrite Hi in Hty. done. }
      eapply Accounted_books; [| exact Hst]; reflexivity.
  - destruct (decide (taskId ∈ timers st)) as [Hin | Hin].
    + rewrite timerFires_settle by done.
      apply settle_Accounted; [by apply (timers_guard _ Hc) | done].
    + by rewrite timerFires_dead.
  - by apply shutdown_Accounted.
  - eapply Accounted_books; [apply start_books | done].
  - eapply Accounted_books; [apply createWorkers_books | done].
  - eapply Accounted_books; [apply createWorker_books | done].
  - eapply Accounted_books; [| exact Hst]; reflexivity.
  - by apply generateBezierPaths_Accounted.
  - eapply Accounted_books; [apply simulatePhysicsMovements_books | done].
Qed.

Lemma run_Accounted actions st :
  Consistent st -> Accounted st -> Accounted (run actions st).
Proof.
  revert st. induction actions as [| a actions IH]; intros st Hc Hst; [done |].
  cbn. apply IH; [by apply step_Consistent | by apply step_Accounted].
Qed.

Lemma reachable_Accounted opts cpus native actions :
  Accounted (run actions (construct opts cpus native)).
Proof.
  apply run_Accounted; [apply construct_Consistent |].
  split; [done |]. split.
  - intros id Hid. cbn in Hid. lia.
  - intros id [[? Hid] | Hid]; cbn in Hid.
    + by rewrite lookup_empty in Hid.
    + by apply elem_of_nil in Hid.
Qed.

Lemma scheduleBatches_running batches postThrows k st :
  running (fst (scheduleBatches batches postThrows k st)) = running st.
Proof.
  revert k st. induction batches as [| b batches IH]; intros k st; [done |].
  cbn [scheduleBatches].
  assert (H1 : running (fst (scheduleTask ProcessBatch [ArgBatch b] (postThrows k) st))
               = running st).
  { destruct (scheduleTask_cases ProcessBatch [ArgBatch b] (postThrows k) st)
      as [[_ ->] | [(_ & _ & ->) | [(_ & _ & e & _ & ->) | (_ & _ & _ & w & _ & ->)]]];
      done. }
  destruct (scheduleTask _ _ _ st) as [st1 p]. cbn [fst] in H1.
  specialize (IH (S k) st1).
  destruct (scheduleBatches batches postThrows (S k) st1) as [st2 ps].
  cbn in *. congruence.
Qed.

Lemma step_Idle st a : Consistent st -> Idle st -> Idle (step st a).
Proof.
  intros Hc Hst. unfold Idle in *.
  destruct a as [fn args pt | message | taskId | | | ok | id ok | w
                | sp ep opt mr pt | sp ep opt mr]; cbn [step].
  - destruct (scheduleTask_cases fn args pt st)
      as [[Hrun ->] | [(Hrun & _ & ->) | [(Hrun & _ & e & _ & ->)
                                          | (Hrun & _ & _ & w & _ & ->)]]];
      cbn [fst]; try done; cbn; congruence.
  - destruct (running st) eqn:Hrun.
    + unfold handleWorkerMessage.
      destruct (if String.eqb _ _ then _ else _); [| cbn; congruence].
      destruct (taskQueue st !! _) as [tp |]; [| cbn; congruence].
      unfold clearEntryTimeout.
      destruct (timeoutId tp); (destruct (rm_error message) as [e |];
        [destruct (truthy e) |]); cbn; congruence.
    + intros _. destruct (handleWorkerMessage_dropped message st) as [text ->].
      { intros i _ _. rewrite (Hst eq_refl). apply lookup_empty. }
      by apply Hst.
  - destruct (decide (taskId ∈ timers st)) as [Hin | Hin].
    + rewrite timerFires_settle by done.
      apply (timers_guard _ Hc) in Hin as [tp Htp].
      intros Hrun. cbn in Hrun. rewrite (Hst Hrun) in Htp.
      by rewrite lookup_empty in Htp.
    + by rewrite timerFires_dead.
  - destruct (running st) eqn:Hrun.
    + rewrite (shutdown_running st Hc Hrun). cbn. intros _. reflexivity.
    + rewrite (shutdown_stopped st Hrun). cbn. intros _. by apply Hst.
  - unfold start. destruct (running st) eqn:Hrun; cbn; congruence.
  - rewrite createWorkers_running.
    pose proof (createWorkers_books ok st) as [= -> _ _ _ _]. done.
  - unfold createWorker. by destruct ok.
  - done.
  - unfold generateBezierPaths.
    destruct (running st) eqn:Hrun; cbn [negb]; [| cbn; intros _; by apply Hst].
    destruct (negb _); [cbn; congruence |].
    destruct (_ =? _)%nat; [cbn; congruence |].
    assert (Hfb : forall st0, running st0 = true ->
              running (fst (bezierFallback sp ep opt pt st0)) = false ->
              taskQueue (fst (bezierFallback sp ep opt pt st0)) = ∅).
    { intros st0 H0. unfold bezierFallback.
      pose proof (scheduleBatches_running
                    (makeBatches sp ep opt (batchSize (length sp) (length (workers st0))))
                    pt 0%nat st0) as H.
      destruct (scheduleBatches _ _ _ _). cbn in *. congruence. }
    destruct (nativePrimitive _ st) as [batch |]; [| by apply Hfb].
    cbn zeta. destruct (batch _ _ _ _); [by apply Hfb | cbn; congruence].
  - pose proof (simulatePhysicsMovements_books sp ep opt mr st) as [= -> _ _ _ _].
    intros Hrun. apply Hst. revert Hrun. unfold simulatePhysicsMovements.
    destruct (running st) eqn:Hrun; cbn [negb]; [| done].
    destruct (negb _); [cbn; congruence |].
    destruct (_ =? _)%nat; [cbn; congruence |].
    destruct (nativePrimitive _ st) as [batch |]; [| cbn; congruence].
    cbn zeta. destruct (batch _ _ _ _); cbn; congruence.
Qed.

Lemma reachable_Idle opts cpus native actions :
  Idle (run actions (construct opts cpus native)).
Proof.
  assert (H : forall st, Consistent st -> Idle st -> Idle (run actions st)).
  { induction actions as [| a actions IH]; intros st Hc Hst; [done |].
    cbn. apply IH; [by apply step_Consistent | by apply step_Idle]. }
  apply H; [apply construct_Consistent |]. intros Hrun. cbn in Hrun. done.
Qed.

(** X23: no task is lost.  At any time, every task id handed out so
    far, from 0 up to [nextTaskId], is in exactly one of two states:
    its task is pending, with its entry in the registry and its timer
    live, and no callback of its promise was invoked yet; or a callback
    of its promise was invoked, and the task has neither an entry nor a
    timer.  Any other id has no entry, no timer and no callback. *)
Theorem no_task_is_lost opts cpus native actions id :
  let st := run actions (construct opts cpus native) in
  let pending :=
    is_Some (taskQueue st !! id) /\ id ∈ timers st /\ (id ∉ task <$> calls st) in
  let settled :=
    taskQueue st !! id = None /\ (id ∉ timers st) /\ id ∈ task <$> calls st in
  0 <= nextTaskId st
  /\ (0 <= id < nextTaskId st -> pending \/ settled)
  /\ ~ (pending /\ settled)
  /\ (id < 0 \/ nextTaskId st <= id ->
        taskQueue st !! id = None /\ (id ∉ timers st) /\ (id ∉ task <$> calls st)).
Proof.
  intros st pending settled.
  pose proof (reachable_Consistent opts cpus native actions) as Hc. fold st in Hc.
  pose proof (reachable_Accounted opts cpus native actions) as (Hpos & Hall & Hlow).
  fold st in Hpos, Hall, Hlow.
  assert (Hexcl : id ∈ task <$> calls st -> taskQueue st !! id = None).
  { intros Hin. apply list_elem_of_fmap in Hin as (c & -> & Hc').
    by apply (calls_final _ Hc). }
  assert (Hguard : taskQueue st !! id = None -> id ∉ timers st).
  { intros Hn. rewrite (timers_guard _ Hc), Hn. intros [? [=]]. }
  split; [done |]. split; [| split].
  - intros Hid. destruct (Hall id Hid) as [Hp | Hs].
    + left. split; [done |]. split; [by apply (timers_guard _ Hc) |].
      intros Hin. apply Hexcl in Hin. rewrite Hin in Hp. by destruct Hp.
    + right. split; [by apply Hexcl |]. split; [by apply Hguard, Hexcl | done].
  - intros [(_ & _ & Hp) (_ & _ & Hs)]. done.
  - intros Hout.
    assert (Hnone : taskQueue st !! id = None).
    { destruct (taskQueue st !! id) eqn:E; [| done].
      pose proof (entries_allocated _ Hc id (ex_intro _ _ E)).
      pose proof (Hlow id (or_introl (ex_intro _ _ E))). lia. }
    split; [done |]. split; [by apply Hguard |].
    intros Hin. pose proof (Hlow id (or_intror Hin)).
    apply list_elem_of_fmap in Hin as (c & -> & Hc').
    pose proof (calls_allocated _ Hc c Hc'). lia.
Qed.

(** X24: a stopped pool is idle.  Whenever a pool is not running, its
    registry is empty, no timer is live and every task id handed out so
    far has had a callback of its promise invoked: nothing is pending.
    A submission to it is rejected at once with "not running" and leaves
    the pool as it is, and both batch operations throw the same error. *)
Theorem stopped_pool_is_idle opts cpus native actions fn args postThrows
    startPoints endPoints bezier physics mathRandom batchThrows :
  let st := run actions (construct opts cpus native) in
  running st = false ->
  taskQueue st = ∅
  /\ timers st = ∅
  /\ (forall id, 0 <= id < nextTaskId st -> id ∈ task <$> calls st)
  /\ scheduleTask fn args postThrows st = (st, RejectedAtOnce NotRunning)
  /\ generateBezierPaths startPoints endPoints bezier mathRandom batchThrows st
     = (st, Throws NotRunning)
  /\ simulatePhysicsMovements startPoints endPoints physics mathRandom st
     = (st, Throws NotRunning).
Proof.
  intros st Hrun.
  pose proof (reachable_Consistent opts cpus native actions) as Hc. fold st in Hc.
  pose proof (reachable_Accounted opts cpus native actions) as (Hpos & Hall & Hlow).
  fold st in Hpos, Hall, Hlow.
  pose proof (reachable_Idle opts cpus native actions Hrun) as Hq. fold st in Hq.
  split; [done |]. split.
  { apply set_eq. intros id. rewrite (timers_guard _ Hc), Hq, lookup_empty.
    rewrite elem_of_empty. split; [intros [? [=]] | done]. }
  split.
  { intros id Hid. destruct (Hall id Hid) as [[? Hp] | Hs]; [| done].
    by rewrite Hq, lookup_empty in Hp. }
  unfold scheduleTask, generateBezierPaths, simulatePhysicsMovements.
  by rewrite Hrun.
Qed.

Lemma stopped_pool_is_idle_witness :
  running stoppedPool = false
  /\ taskQueue stoppedPool = ∅
  /\ timers stoppedPool = ∅.
Proof.
  split; [reflexivity |].
  pose proof (stopped_pool_is_idle defaultOptions (Some 4) None
                [CreateWorkers allCreated; CallShutdown]
                (CallerFunction "() => 42") [] None [] [] someOptions somePhysics
                0%float (fun _ => None) eq_refl)
    as (H1 & H2 & _).
  split; [exact H1 | exact H2].
Defined.

(** X25: a restart.  From any state of a pool, [shutdown] followed by
    [start] and the creation of the workers gives a running pool with as
    many workers as the constructor computed, an empty registry and no
    live timer, whose next task id is the one the pool had before: ids
    are not handed out again after a restart.  [start] first terminates
    the workers that the stopped pool still had and leaves none. *)
Theorem restart_after_shutdown opts cpus native actions :
  let st := run actions (construct opts cpus native) in
  let stopped := fst (shutdown st) in
  let started := fst (start stopped) in
  let restarted := createWorkers allCreated started in
  running stopped = false
  /\ snd (start stopped) = Some (workers stopped)
  /\ workers started = []
  /\ running restarted = true
  /\ length (workers restarted)
     = Z.to_nat (determineThreadCount cpus (jsThreads opts))
  /\ taskQueue restarted = ∅
  /\ timers restarted = ∅
  /\ nextTaskId restarted = nextTaskId st.
Proof.
  intros st stopped started restarted.
  pose proof (reachable_Consistent opts cpus native (actions ++ [CallShutdown])) as Hc.
  pose proof (reachable_Idle opts cpus native (actions ++ [CallShutdown])) as Hidle.
  rewrite <- run_app in Hc, Hidle. change (run [CallShutdown] ?s) with (fst (shutdown s))
    in Hc, Hidle. fold st stopped in Hc, Hidle.
  assert (Hstop : running stopped = false).
  { unfold stopped. destruct (running st) eqn:Hrun.
    - by rewrite (shutdown_running st (reachable_Consistent _ _ _ _) Hrun).
    - by rewrite shutdown_stopped. }
  assert (Hnext : nextTaskId stopped = nextTaskId st).
  { unfold stopped. destruct (running st) eqn:Hrun.
    - by rewrite (shutdown_running st (reachable_Consistent _ _ _ _) Hrun).
    - by rewrite shutdown_stopped. }
  assert (Hcount : jsThreadCount stopped = determineThreadCount cpus (jsThreads opts)).
  { pose proof (PoolFacts.run_configuration (actions ++ [CallShutdown])
                  (construct opts cpus native)) as E.
    rewrite <- run_app in E. change (run [CallShutdown] ?s) with (fst (shutdown s)) in E.
    fold st stopped in E. by injection E as -> _ _ _ _. }
  assert (Hstart : start stopped
            = (set_workers [] (set_terminated (terminated stopped ++ workers stopped)
                                 (set_running true stopped)),
               Some (workers stopped))).
  { unfold start. by rewrite Hstop. }
  unfold restarted, started. rewrite Hstart. cbn [fst snd].
  split; [done |]. split; [done |]. split; [done |].
  split; [by rewrite createWorkers_running |].
  split; [rewrite createWorkers_length by done; cbn; by rewrite Hcount |].
  match goal with
  | |- context [createWorkers allCreated ?s] =>
      pose proof (createWorkers_books allCreated s) as [= Hq Ht _ Hn _]
  end.
  rewrite Hq, Ht, Hn. cbn.
  split; [by apply Hidle |]. split; [| done].
  apply set_eq. intros id. rewrite (timers_guard _ Hc), (Hidle Hstop), lookup_empty.
  rewrite elem_of_empty. split; [intros [? [=]] | done].
Qed.

(** X26: tasks go to workers of the pool.  Whatever the state of the
    pool, [scheduleTask] posts at most one message, and posts it to a
    worker that is in the pool at that time, with the id it has just
    handed out.  The listener of the 'exit' event takes the worker that
    exited out of the pool, so no later task is given to it; and nothing
    is posted by a pool that was shut down. *)
Theorem tasks_go_to_pool_workers (st : Pool) fn args postThrows exited :
  let res := scheduleTask fn args postThrows st in
  (posted (fst res) = posted st
   \/ exists worker message,
        posted (fst res) = posted st ++ [(worker, message)]
        /\ worker ∈ workers st
        /\ tm_id message = nextTaskId st
        /\ snd res = OfTask (nextTaskId st))
  /\ (exited ∉ workers (workerExited exited st))
  /\ (forall worker message,
        (worker, message) ∈ posted (fst (scheduleTask fn args postThrows
                                           (workerExited exited st))) ->
        (worker, message) ∈ posted st \/ worker <> exited)
  /\ posted (fst (scheduleTask fn args postThrows (fst (shutdown st))))
     = posted (fst (shutdown st)).
Proof.
  intros res.
  assert (Hpost : forall st0,
            posted (fst (scheduleTask fn args postThrows st0)) = posted st0
            \/ exists worker message,
                 posted (fst (scheduleTask fn args postThrows st0))
                 = posted st0 ++ [(worker, message)]
                 /\ worker ∈ workers st0
                 /\ tm_id message = nextTaskId st0
                 /\ snd (scheduleTask fn args postThrows st0) = OfTask (nextTaskId st0)).
  { intros st0.
    destruct (scheduleTask_cases fn args postThrows st0)
      as [[_ ->] | [(_ & _ & ->) | [(_ & _ & e & _ & ->) | (_ & _ & _ & w & Hw & ->)]]];
      cbn [fst snd]; try (by left).
    right. exists w, {| tm_id := nextTaskId st0; tm_functionData := fn; tm_args := args |}.
    split; [done |]. split; [by eapply list_elem_of_lookup_2 | done]. }
  assert (Hgone : exited ∉ workers (workerExited exited st)).
  { unfold workerExited. cbn. intros Hin.
    apply list_elem_of_In, filter_In in Hin as [_ Hne].
    by rewrite bool_decide_eq_true_2 in Hne. }
  split; [apply Hpost |]. split; [done |]. split.
  - intros worker message Hin.
    destruct (Hpost (workerExited exited st)) as [E | (w & m & E & Hw & _)];
      rewrite E in Hin.
    + by left.
    + apply elem_of_app in Hin as [Hin | Hin]; [by left |].
      apply list_elem_of_singleton in Hin. injection Hin as -> ->.
      right. intros ->. done.
  - assert (Hstop : running (fst (shutdown st)) = false).
    { unfold shutdown. destruct (running st) eqn:Hrun; [| done]. cbn [negb].
      unfold terminateWorkers. cbn.
      assert (H : forall l s, running (foldl rejectPending s l) = running s).
      { induction l as [| e l IH]; intros s; [done |].
        cbn [foldl]. rewrite IH. unfold rejectPending, clearEntryTimeout.
        by destruct (timeoutId (snd e)). }
      by rewrite H. }
    unfold scheduleTask. by rewrite Hstop.
Qed.

End AccountingFacts.

(* ================================================================== *)
(** ** A curve computed on the thread pool *)
(* ================================================================== *)

Module CurveFacts.
Import ThreadPool Chunks BezierPathGenerator.
Local Open Scope nat_scope.

Lemma filter_below (P : nat -> bool) bound total :
  bound <= total ->
  (forall i, i < total -> P i = true <-> i < bound) ->
  List.filter P (seq 0 total) = seq 0 bound.
Proof.
  intros Hle HP.
  replace total with (bound + (total - bound)) by lia.
  rewrite seq_app, List.filter_app.
  assert (Hall : forall l, (forall i, In i l -> P i = true) -> List.filter P l = l).
  { induction l as [| i l IH]; intros H; [done |].
    cbn. rewrite (H i) by (by left). f_equal. apply IH. intros j Hj. apply H. by right. }
  assert (Hnone : forall l, (forall i, In i l -> P i = false) -> List.filter P l = []).
  { induction l as [| i l IH]; intros H; [done |].
    cbn. rewrite (H i) by (by left). apply IH. intros j Hj. apply H. by right. }
  rewrite Hall, Hnone; [by rewrite app_nil_r | |].
  - intros i Hi. apply in_seq in Hi.
    destruct (P i) eqn:E; [| done]. apply HP in E; lia.
  - intros i Hi. apply in_seq in Hi. apply HP; lia.
Qed.

Lemma below_chunks n size i :
  1 <= size -> i < ceilDiv n size <-> i * size < n.
Proof.
  intros Hsize. destruct (Nat.eq_dec n 0) as [-> | Hn].
  - rewrite ceilDiv_zero by done. lia.
  - pose proof (ceilDiv_tight n size Hsize ltac:(lia)).
    pose proof (ceilDiv_covers n size Hsize). split; intros; nia.
Qed.

Lemma ranges_spec numPoints threads :
  1 <= threads ->
  let pointsPerThread := ceilDiv numPoints threads in
  ranges numPoints threads
  = List.map
      (fun i =>
         (Z.of_nat (i * pointsPerThread),
          Z.min (Z.of_nat ((i + 1) * pointsPerThread) - 1) (Z.of_nat numPoints - 1)))
      (seq 0 (ceilDiv numPoints pointsPerThread))
  /\ ceilDiv numPoints pointsPerThread <= threads.
Proof.
  intros Hthreads pointsPerThread. unfold ranges. fold pointsPerThread.
  destruct (Nat.eq_dec numPoints 0) as [-> | Hn].
  - assert (Hzero : pointsPerThread = 0).
    { unfold pointsPerThread. by apply ceilDiv_zero. }
    rewrite Hzero. split; [| unfold ceilDiv; cbn; lia].
    replace (ceilDiv 0 0) with 0 by reflexivity. cbn [seq List.map].
    induction (seq 0 threads) as [| i l IH]; [done |].
    cbn [List.map List.filter fst snd].
    replace (i * 0) with 0 by lia.
    replace ((i + 1) * 0) with 0 by lia. cbn. exact IH.
  - assert (Hppt : 1 <= pointsPerThread).
    { unfold pointsPerThread. apply ceilDiv_pos; lia. }
    assert (Hcount : ceilDiv numPoints pointsPerThread <= threads).
    { pose proof (batch_count numPoints threads Hthreads) as H.
      by rewrite batchSize_ceil in H by lia. }
    split; [| done].
    rewrite <- (filter_below
                  (fun i => (Z.of_nat (i * pointsPerThread)
                             <=? Z.min (Z.of_nat ((i + 1) * pointsPerThread) - 1)
                                   (Z.of_nat numPoints - 1))%Z)
                  (ceilDiv numPoints pointsPerThread) threads Hcount).
    + generalize (seq 0 threads). intros l.
      induction l as [| i l IH]; [done |].
      cbn [List.map List.filter fst snd].
      destruct (_ <=? _)%Z; cbn [List.map]; by rewrite IH.
    + intros i _. rewrite below_chunks by done. rewrite Z.leb_le. nia.
Qed.

Lemma generateBezierPoints_slice p0 p1 p2 p3 numPoints size i :
  1 <= size ->
  generateBezierPoints (Z.of_nat (i * size))
    (Z.min (Z.of_nat ((i + 1) * size) - 1) (Z.of_nat numPoints - 1)) numPoints
    p0 p1 p2 p3
  = List.map
      (fun j => bezierPoint p0 p1 p2 p3
                  (PrimFloat.div (JS.of_nat j)
                     (PrimFloat.sub (JS.of_nat numPoints) 1%float)))
      (slice (i * size) (i * size + size) (seq 0 numPoints)).
Proof.
  intros Hsize. unfold generateBezierPoints, slice.
  rewrite drop_seq, take_seq. cbn [Nat.add].
  replace (i * size + size - i * size) with size by lia.
  replace (Z.to_nat (Z.min (Z.of_nat ((i + 1) * size) - 1) (Z.of_nat numPoints - 1)
                     - Z.of_nat (i * size) + 1))
    with (size `min` (numPoints - i * size)) by lia.
  rewrite <- (PoolFacts.map_seq_from
                (fun j => bezierPoint p0 p1 p2 p3
                            (PrimFloat.div (JS.of_nat j)
                               (PrimFloat.sub (JS.of_nat numPoints) 1%float)))
                (i * size)).
  apply map_ext. intros k. unfold JS.of_nat. do 3 f_equal. lia.
Qed.

(** X27: a curve computed on the thread pool.  For a curve of more than
    50 points [generateBezierCurveWithThreadPool] gives the thread of
    index [i] the points of the indices from [i * pointsPerThread] to
    [min((i + 1) * pointsPerThread, numPoints) - 1], where
    [pointsPerThread] is [ceil(numPoints / numThreads)], and makes no
    task for a thread whose range would be empty.  The ranges are
    consecutive and cover the indices from 0 to [numPoints - 1] once
    each, and there are at most [numThreads] tasks.  The partial paths of
    the tasks, collected in the order of the tasks, are the points that
    [generateBezierCurveInternal] computes one after the other. *)
Theorem thread_pool_curve_is_the_curve p0 p1 p2 p3 numPoints totalThreads :
  let threads := numThreads totalThreads in
  let pointsPerThread := ceilDiv numPoints threads in
  let tasks := ranges numPoints threads in
  1 <= threads
  /\ length tasks = ceilDiv numPoints pointsPerThread
  /\ length tasks <= threads
  /\ (forall i range, tasks !! i = Some range ->
        i * pointsPerThread < numPoints
        /\ fst range = Z.of_nat (i * pointsPerThread)
        /\ snd range = (Z.of_nat (Nat.min ((i + 1) * pointsPerThread) numPoints) - 1)%Z)
  /\ collectedPath p0 p1 p2 p3 numPoints threads
     = generateBezierCurveInternal p0 p1 p2 p3 numPoints.
Proof.
  intros threads pointsPerThread tasks.
  assert (Hthreads : 1 <= threads) by (unfold threads, numThreads; lia).
  destruct (ranges_spec numPoints threads Hthreads) as [Hranges Hcount].
  fold pointsPerThread tasks in Hranges, Hcount.
  split; [done |].
  split; [by rewrite Hranges, length_map, length_seq |].
  split; [by rewrite Hranges, length_map, length_seq |].
  split.
  - intros i range Hi. rewrite Hranges in Hi.
    change (List.map ?f ?l) with (f <$> l) in Hi. rewrite list_lookup_fmap in Hi.
    destruct (seq 0 _ !! i) as [j |] eqn:Hj; [| done].
    apply lookup_seq in Hj as [-> Hlt]. cbn in Hi. injection Hi as <-. cbn [fst snd].
    destruct (Nat.eq_dec numPoints 0) as [Hz | Hn].
    { exfalso. revert Hlt. unfold pointsPerThread. rewrite Hz.
      rewrite (ceilDiv_zero threads Hthreads). cbn. lia. }
    assert (Hppt : 1 <= pointsPerThread).
    { unfold pointsPerThread. apply ceilDiv_pos; lia. }
    apply below_chunks in Hlt; [| done]. split; [done |]. split; [done |]. lia.
  - unfold collectedPath, generateBezierCurveInternal. fold tasks. rewrite Hranges.
    destruct (Nat.eq_dec numPoints 0) as [-> | Hn].
    { replace pointsPerThread with 0
        by (unfold pointsPerThread; by rewrite (ceilDiv_zero threads Hthreads)).
      reflexivity. }
    assert (Hppt : 1 <= pointsPerThread).
    { unfold pointsPerThread. apply ceilDiv_pos; lia. }
    rewrite map_map.
    rewrite (map_ext _
               (fun i =>
                  List.map
                    (fun j => bezierPoint p0 p1 p2 p3
                                (PrimFloat.div (JS.of_nat j)
                                   (PrimFloat.sub (JS.of_nat numPoints) 1%float)))
                    (slice (i * pointsPerThread) (i * pointsPerThread + pointsPerThread)
                       (seq 0 numPoints))));
      [| intros i; cbn [fst snd]; by apply generateBezierPoints_slice].
    rewrite <- (map_map (fun i => slice (i * pointsPerThread)
                                    (i * pointsPerThread + pointsPerThread)
                                    (seq 0 numPoints))
                  (List.map _)).
    rewrite <- concat_map. f_equal.
    pose proof (concat_batches (seq 0 numPoints) pointsPerThread Hppt) as H.
    unfold batchOffsets in H. rewrite length_seq, map_map in H. exact H.
Qed.

End CurveFacts.

(* ================================================================== *)
(** ** A batch on a pool without workers *)
(* ================================================================== *)

Module NoWorkerFacts.
Import ThreadPool Scheduler Chunks Dispatcher.

Lemma ceilDiv_self n : (1 <= n)%nat -> ceilDiv n n = 1%nat.
Proof.
  intros Hn. pose proof (ceilDiv_covers n n Hn).
  pose proof (ceilDiv_tight n n Hn Hn). nia.
Qed.

(** X28: a batch on a pool that has no worker.  On a running pool with
    no worker and no native primitive, [generateBezierPaths] makes one
    chunk of the whole input, because the chunk size
    [max(1, ceil(N / 0))] is infinite, and submits one task for it.
    That task is rejected at once with "No workers available", so the
    batch call fails; the task id is used up, nothing is posted and the
    registry is as before. *)
Theorem batch_without_workers opts cpus native actions startPoints endPoints
    options mathRandom :
  let st := run actions (construct opts cpus native) in
  let res :=
    generateBezierPaths startPoints endPoints options mathRandom (fun _ => None) st in
  running st = true ->
  nativePrimitive batchGenerateBezierPaths st = None ->
  workers st = [] ->
  length startPoints = length endPoints ->
  startPoints <> [] ->
  Z.of_nat (size (taskQueue st)) < maxQueueSize st ->
  makeBatches startPoints endPoints options (batchSize (length startPoints) 0)
  = [{| ThreadPool.startPoints := startPoints; ThreadPool.endPoints := endPoints;
        ThreadPool.options := options |}]
  /\ snd res = Awaits [OfTask (nextTaskId st)]
  /\ promiseState (calls (fst res)) (OfTask (nextTaskId st))
     = Some (Rejected NoWorkers)
  /\ batchResult (snd res) (fst res) = Failed
  /\ nextTaskId (fst res) = nextTaskId st + 1
  /\ posted (fst res) = posted st
  /\ taskQueue (fst res) = taskQueue st.
Proof.
  intros st res Hrun Hnative Hworkers Hlen Hne Hroom.
  pose proof (reachable_Consistent opts cpus native actions) as Hst. fold st in Hst.
  assert (HN : (1 <= length startPoints)%nat).
  { destruct startPoints; [done | cbn; lia]. }
  assert (Hbatches :
    makeBatches startPoints endPoints options (batchSize (length startPoints) 0)
    = [{| ThreadPool.startPoints := startPoints; ThreadPool.endPoints := endPoints;
          ThreadPool.options := options |}]).
  { unfold makeBatches, batchOffsets, batchSize. cbn [Nat.eqb].
    replace (Nat.max 1 (length startPoints)) with (length startPoints) by lia.
    rewrite ceilDiv_self by done. cbn [seq List.map Nat.mul Nat.add].
    unfold slice. rewrite Nat.sub_0_r, !drop_0.
    rewrite take_ge by lia. rewrite (take_ge endPoints) by lia. done. }
  split; [done |].
  assert (E : res = (settle (nextTaskId st) (Rejected NoWorkers) (allocate st),
                     Awaits [OfTask (nextTaskId st)])).
  { unfold res. rewrite generateBezierPaths_fallback; try done.
    - unfold bezierFallback. rewrite Hworkers. cbn [length]. rewrite Hbatches.
      cbn [scheduleBatches].
      rewrite SchedulerFacts.scheduleTask_allocating by done.
      rewrite Hworkers. reflexivity.
    - lia. }
  rewrite E. cbn [fst snd].
  destruct (SchedulerFacts.settle_allocate_fields NoWorkers st Hst)
    as (Hn & Hq & _ & Hp & Hc).
  cbv zeta in Hn, Hq, Hp, Hc.
  assert (Hstate : promiseState
                     (calls (settle (nextTaskId st) (Rejected NoWorkers) (allocate st)))
                     (OfTask (nextTaskId st))
                   = Some (Rejected NoWorkers)).
  { rewrite Hc. unfold promiseState.
    rewrite find_skip.
    - cbn. by rewrite bool_decide_eq_true_2.
    - intros c Hin. apply bool_decide_eq_false.
      pose proof (calls_allocated _ Hst c Hin). lia. }
  split; [done |]. split; [done |]. split.
  { unfold batchResult. cbn [promiseAll]. by rewrite Hstate. }
  done.
Qed.

Lemma batch_without_workers_witness :
  batchResult
    (snd (generateBezierPaths [origin] [target] someOptions 0%float (fun _ => None)
            (newPool 4)))
    (fst (generateBezierPaths [origin] [target] someOptions 0%float (fun _ => None)
            (newPool 4)))
  = Failed.
Proof.
  pose proof (batch_without_workers defaultOptions (Some 4) None []
                [origin] [target] someOptions 0%float
                eq_refl eq_refl eq_refl eq_refl ltac:(discriminate)
                ltac:(vm_compute; reflexivity))
    as (_ & _ & _ & H & _).
  exact H.
Defined.

End NoWorkerFacts.

